(** * ExpertNet front end: team reassignment state machine

  A shallow embedding of the team-handling code of [frontend/script.js]:
  the construction of [profOrder]/[profMap] in [renderResults], the
  swap-icon click listener installed by [renderTeamCards], the listener
  installed by [attachDropdownListeners], [getProfsForTags],
  [sortResults], [filterResults], [populateDepartmentFilter],
  [renderIndividualResults], [switchTab] and the click handlers.

  Modelling conventions.
  - JavaScript arrays are lists.  A JavaScript string is kept as the
    [string] of the bytes of its UTF-8 encoding, which is how a string
    literal of this file is read: equality and emptiness are those of
    the JavaScript string, and [trim] is written on the encodings of the
    code points it strips.
  - A JavaScript object used with [Object.entries] is the list of its own
    properties in insertion order, a list of pairs; expert names are assumed
    to be neither array-index strings (which [Object.entries] would put
    first) nor members of [Object.prototype].
  - [apiData.all_profs_by_tag] is only ever looked up: a [gmap].
  - Reading [.tags] of a missing [profMap] entry throws a [TypeError];
    handlers return [option], [None] standing for that uncaught error.
  - [undefined] and the empty string are identified for the display
    fields, which the code only reads through [x || ''] or a truth test.
  - What the page writes into its markup is written as it is: a request
    of the page ([fired]) is one whose name and tags are [plainText], so
    that the attributes [data-current-prof], [data-tags],
    [data-prof-name], [data-tag] and [value] are read back as they were
    written.  The other strings of the response are taken to hold no
    markup either. *)

From stdpp Require Import gmap strings list fin_maps sorting.
From Stdlib Require Import QArith OrdersEx.

Open Scope nat_scope.

(** ** JavaScript arrays *)

Section js_array.
Context {A : Type} `{EqDecision A}.

(** [arr.indexOf(x)]; [None] stands for [-1]. *)
Fixpoint indexOf (arr : list A) (x : A) : option nat :=
  match arr with
  | [] => None
  | y :: r => if decide (y = x) then Some 0 else S <$> indexOf r x
  end.

(** [arr.splice(i, 0, x)], as an expression for the new array. *)
Definition splice0 (i : nat) (x : A) (arr : list A) : list A :=
  take i arr ++ x :: drop i arr.

(** [arr.filter((n, i) => f(i, n))], the index starting at [i]. *)
Fixpoint filter_from (f : nat → A → bool) (i : nat) (arr : list A) : list A :=
  match arr with
  | [] => []
  | x :: r => if f i x then x :: filter_from f (S i) r else filter_from f (S i) r
  end.

(** [arr.filter((n, i, arr) => arr.indexOf(n) === i)] *)
Definition filterFirstIndex (arr : list A) : list A :=
  filter_from (λ i n, bool_decide (indexOf arr n = Some i)) 0 arr.

(** [Array.from(new Set(arr))]: a [Set] iterates in insertion order. *)
Definition setAdd (s : list A) (x : A) : list A :=
  if decide (x ∈ s) then s else s ++ [x].

Definition arrayFromSet (arr : list A) : list A := foldl setAdd [] arr.

(** Both idioms keep the first occurrence of every element; [uniq] is the
    recursive description used in the proofs. *)
Fixpoint uniq (l : list A) : list A :=
  match l with
  | [] => []
  | x :: r => x :: filter (λ y, y ≠ x) (uniq r)
  end.

(** The insertion point [profOrder.indexOf(old) + 1]. *)
Definition indexAfter (arr : list A) (x : A) : nat :=
  match indexOf arr x with Some i => S i | None => 0 end.
End js_array.

(** A comparator's result is kept by its sign: [Lt] negative, [Eq] zero,
  [Gt] positive.  [Array.prototype.sort] is stable: [sort_insert] puts
  an element before the first one it does not have to follow. *)
Section js_sort.
Context {A : Type} (cmp : A → A → comparison).

Fixpoint sort_insert (x : A) (l : list A) : list A :=
  match l with
  | [] => [x]
  | y :: r => match cmp x y with
              | Gt => y :: sort_insert x r
              | _ => x :: l
              end
  end.

Definition js_sort (l : list A) : list A := foldr sort_insert [] l.
End js_sort.

(** ** JavaScript objects as ordered property lists *)

Section js_object.
Context {V : Type}.

(** [o[k]] *)
Fixpoint obj_get (o : list (string * V)) (k : string) : option V :=
  match o with
  | [] => None
  | (k', v) :: r => if decide (k' = k) then Some v else obj_get r k
  end.

(** [o[k] = v]: an existing property keeps its place, a new one is last. *)
Fixpoint obj_set (o : list (string * V)) (k : string) (v : V) : list (string * V) :=
  match o with
  | [] => [(k, v)]
  | (k', v') :: r =>
      if decide (k' = k) then (k', v) :: r else (k', v') :: obj_set r k v
  end.

(** [delete o[k]] *)
Definition obj_delete (o : list (string * V)) (k : string) : list (string * V) :=
  filter (λ e, e.1 ≠ k) o.

Definition obj_keys (o : list (string * V)) : list string := o.*1.
End js_object.

(** ** Data of the API response and of the team *)

(** An entry of [apiData.all_profs_by_tag[tag]]. *)
Record RosterProf := {
  r_name : string;
  r_department : string;
  r_base_url : string;
  r_position : string;
  r_google_scholar_url : string
}.

(** An entry of [apiData.team], and a value of [profMap]. *)
Record TeamProf := {
  name : string;
  department : string;
  base_url : string;
  position : string;
  google_scholar_url : string;
  score : option Q;
  tags : list string
}.

(** An entry of [apiData.individual]. *)
Record IndividualProf := {
  i_name : string;
  i_department : string;
  i_position : string;
  i_base_url : string;
  i_google_scholar_url : string;
  rank_score : Q;
  semantic : Q;
  weighted_match : Q;
  matching_tags : list string
}.

Record ApiData := {
  team : list TeamProf;
  all_profs_by_tag : gmap string (list RosterProf);
  individual : list IndividualProf
}.

(** The two variables [profOrder] and [profMap] of [renderResults], shared
    by the listeners: the TeamAssignment. *)
Record TeamState := {
  profOrder : list string;
  profMap : list (string * TeamProf)
}.

(** [prof.tags = ts] *)
Definition setTags (prof : TeamProf) (ts : list string) : TeamProf :=
  {| name := name prof; department := department prof;
     base_url := base_url prof; position := position prof;
     google_scholar_url := google_scholar_url prof; score := score prof;
     tags := ts |}.

(** [tg.trim()] strips the code points of WhiteSpace and LineTerminator
    from both ends.  In UTF-8 these are the bytes 9 to 13 and 32 (TAB, LF,
    VT, FF, CR, SP), the two bytes 194 160 (U+00A0), and the three bytes
    225 154 128 (U+1680), 226 128 128 to 226 128 138 (U+2000 to U+200A),
    226 128 168 and 226 128 169 (U+2028, U+2029), 226 128 175 (U+202F),
    226 129 159 (U+205F), 227 128 128 (U+3000) and 239 187 191
    (U+FEFF). *)
Definition whiteSpace1 (c : Ascii.ascii) : bool := Ascii.is_space c.

Definition whiteSpace2 (c1 c2 : Ascii.ascii) : bool :=
  ((Ascii.N_of_ascii c1 =? 194) && (Ascii.N_of_ascii c2 =? 160))%N.

Definition whiteSpace3 (c1 c2 c3 : Ascii.ascii) : bool :=
  let n1 := Ascii.N_of_ascii c1 in
  let n2 := Ascii.N_of_ascii c2 in
  let n3 := Ascii.N_of_ascii c3 in
  ((n1 =? 225) && (n2 =? 154) && (n3 =? 128)
   || (n1 =? 226) && (n2 =? 128)
      && ((128 <=? n3) && (n3 <=? 138)
          || (n3 =? 168) || (n3 =? 169) || (n3 =? 175))
   || (n1 =? 226) && (n2 =? 129) && (n3 =? 159)
   || (n1 =? 227) && (n2 =? 128) && (n3 =? 128)
   || (n1 =? 239) && (n2 =? 187) && (n3 =? 191))%N.

(** The string without the white space it starts with; [w2] and [w3]
    recognise the encodings of two and of three bytes. *)
Fixpoint trimStartBy (w2 : Ascii.ascii → Ascii.ascii → bool)
    (w3 : Ascii.ascii → Ascii.ascii → Ascii.ascii → bool) (s : string) : string :=
  match s with
  | EmptyString => EmptyString
  | String c1 r1 =>
      if whiteSpace1 c1 then trimStartBy w2 w3 r1 else
      match r1 with
      | EmptyString => s
      | String c2 r2 =>
          if w2 c1 c2 then trimStartBy w2 w3 r2 else
          match r2 with
          | EmptyString => s
          | String c3 r3 => if w3 c1 c2 c3 then trimStartBy w2 w3 r3 else s
          end
      end
  end.

Definition trimStart (s : string) : string :=
  trimStartBy whiteSpace2 whiteSpace3 s.

(** The end of the string is the start of its bytes in reverse order,
    where an encoding is met last byte first. *)
Definition trimEnd (s : string) : string :=
  String.rev (trimStartBy (λ c2 c1, whiteSpace2 c1 c2)
                          (λ c3 c2 c1, whiteSpace3 c1 c2 c3)
                          (String.rev s)).

Definition trim (s : string) : string := trimEnd (trimStart s).

(** [!tg || tg.trim() === ''] *)
Definition isBlank (tg : string) : bool :=
  bool_decide (tg = "") || bool_decide (trim tg = "").

(** ** [sortResults] *)

Inductive Criteria := alphabetical | relevance | otherCriteria.

(** [b.score - a.score], by its sign.  The [score] of an entry is the
    number the subtraction makes of the field: a finite double, kept as
    the rational it is ([Some]; the difference of two doubles has the sign
    of the difference of the rationals), or [NaN] ([None]; a missing
    field).  A difference that is [NaN] is taken for [0] by [sort]. *)
Definition byScore (a b : TeamProf) : comparison :=
  match score a, score b with
  | Some sa, Some sb => (sb ?= sa)%Q
  | _, _ => Eq
  end.

(** [sortResults(results, criteria)], as the array [results] is
    afterwards.  [Array.prototype.sort] is stable; where its comparator is
    not consistent the order it gives is left to the implementation, and
    the result is [None].  By relevance the comparator is consistent when
    every entry has a score, and when none has.  [localeCompare] depends
    on the host's collation: it is a parameter, taken to be consistent as
    every collation is. *)
Definition sortResults (localeCompare : string → string → comparison)
    (results : list TeamProf) (criteria : Criteria)
    : option (list TeamProf) :=
  match criteria with
  | alphabetical =>
      Some (js_sort (λ a b, localeCompare (name a) (name b)) results)
  | relevance =>
      if decide (Forall (λ prof, is_Some (score prof)) results
                 ∨ Forall (λ prof, score prof = None) results)
      then Some (js_sort byScore results)
      else None
  | otherCriteria => Some results
  end.

(** ** [filterResults] and [populateDepartmentFilter] *)

(** [!department] holds of the empty string, the value of the option
    "All Departments". *)
Definition filterResults (results : list TeamProf) (dept : string)
    : list TeamProf :=
  if decide (dept = "") then results
  else filter (λ prof, department prof = dept) results.

(** The options of [#filter-department] once the function has run, each
    a pair of its [value] and its [textContent]. *)
Definition populateDepartmentFilter (results : list TeamProf)
    : list (string * string) :=
  let departments := arrayFromSet (department <$> results) in
  ("", "All Departments") :: ((λ dept, (dept, dept)) <$> departments).

(** ** [renderIndividualResults] *)

Record IndividualCard := {
  card_number : nat;
  card_prof : IndividualProf;
  matchingTags : list string;
  moreTagsCount : nat
}.

(** One card per professor, in the order of the argument, numbered from
    [index + 1]; at most five tags are shown. *)
Definition renderIndividualResults (professors : list IndividualProf)
    : list IndividualCard :=
  imap (λ index prof,
          {| card_number := index + 1;
             card_prof := prof;
             matchingTags := take 5 (matching_tags prof);
             moreTagsCount := length (matching_tags prof) - 5 |})
       professors.

(** ** The ranking of the individual mode *)

(** Modelled from the spec: the ranking of the individual mode is made by
    the back end ([services/problem_service.py]), which is not among the
    sources; the front end renders [apiData.individual] as received.  The
    spec: "Individual-mode results are the full expert roster sorted
    descending by [rank], ties broken by expert identifier (lexicographic)
    for determinism."  Ranks are rationals, identifiers are compared code
    unit by code unit. *)
Definition rankedBefore (a b : IndividualProf) : Prop :=
  match (rank_score b ?= rank_score a)%Q with
  | Lt => True
  | Eq => String_as_OT.compare (i_name a) (i_name b) ≠ Gt
  | Gt => False
  end.

#[global] Instance rankedBefore_dec a b : Decision (rankedBefore a b).
Proof. unfold rankedBefore. destruct (_ ?= _)%Q; apply _. Defined.

(** Modelled from the spec: the ranked list of the individual mode. *)
Definition rankIndividuals (roster : list IndividualProf)
    : list IndividualProf :=
  merge_sort rankedBefore roster.

(** ** The team of [renderResults] *)

(** The body of [apiData.team.forEach]: a first entry for a name is copied
    into [profMap] and its name pushed on [profOrder]; a later entry for
    the same name only contributes its tags. *)
Definition addTeamProf (st : TeamState) (teamProf : TeamProf) : TeamState :=
  match obj_get (profMap st) (name teamProf) with
  | None =>
      {| profOrder := profOrder st ++ [name teamProf];
         profMap := obj_set (profMap st) (name teamProf) teamProf |}
  | Some prof =>
      {| profOrder := profOrder st;
         profMap := obj_set (profMap st) (name teamProf)
                      (setTags prof (tags prof ++ tags teamProf)) |}
  end.

Definition buildTeam (team : list TeamProf) : TeamState :=
  foldl addTeamProf {| profOrder := []; profMap := [] |} team.

Section handlers.
Variable apiData : ApiData.

(** [(apiData.all_profs_by_tag && apiData.all_profs_by_tag[tag]) || []] *)
Definition allProfs (tag : string) : list RosterProf :=
  default [] (all_profs_by_tag apiData !! tag).

(** [allProfs.some(p => p.name === profName)] for the professors of [tg] *)
Definition possesses (profName tg : string) : bool :=
  existsb (λ p, bool_decide (r_name p = profName)) (allProfs tg).

(** [allProfs.find(p => p.name === profName)] *)
Definition findProf (profName tg : string) : option RosterProf :=
  List.find (λ p, bool_decide (r_name p = profName)) (allProfs tg).

(** [profCount[n] = (profCount[n] || 0) + 1] *)
Definition countProf (profCount : list (string * nat)) (n : string)
    : list (string * nat) :=
  obj_set profCount n (default 0 (obj_get profCount n) + 1).

(** [.sort((a, b) => b[1] - a[1])] on the entries of a count object *)
Definition byCountDesc (a b : string * nat) : comparison := b.2 ?= a.2.

Definition getProfsForTags (tags : list string) : list (string * nat) :=
  js_sort byCountDesc
    (foldl (λ profCount tag,
              foldl (λ pc p, countProf pc (r_name p)) profCount (allProfs tag))
           [] tags).

(** [allProfsForTags.find(p => p.name === newProfName)?.count || 1] *)
Definition newProfCommonCount (tagsOfOldProf : list string)
    (newProfName : string) : nat :=
  match List.find (λ p, bool_decide (p.1 = newProfName))
                  (getProfsForTags tagsOfOldProf) with
  | Some (_, S count) => S count
  | _ => 1
  end.

(** "Determine tags to move" *)
Definition tagsToMove (tagsOfOldProf : list string) (newProfName : string)
    : list string :=
  if bool_decide (1 ≤ newProfCommonCount tagsOfOldProf newProfName)
     && bool_decide (1 < length tagsOfOldProf)
  then filter (λ tg, ¬ isBlank tg ∧ possesses newProfName tg) tagsOfOldProf
  else tagsOfOldProf.

(** The loop looking up department, url, position and scholar url of a
    professor who joins the team through the dropdown. *)
Fixpoint findDetails (tgs : list string) (newProfName : string)
    : option RosterProf :=
  match tgs with
  | [] => None
  | tg :: r =>
      if isBlank tg then findDetails r newProfName
      else match findProf newProfName tg with
           | Some found => Some found
           | None => findDetails r newProfName
           end
  end.

Definition dropdownNewProf (tgs : list string) (newProfName : string)
    : TeamProf :=
  let found := findDetails tgs newProfName in
  {| name := newProfName;
     department := from_option r_department "" found;
     base_url := from_option r_base_url "" found;
     position := from_option r_position "" found;
     google_scholar_url := from_option r_google_scholar_url "" found;
     score := None;
     tags := [] |}.

Definition swapNewProf (tag profName : string) : TeamProf :=
  let found := findProf profName tag in
  {| name := profName;
     department := from_option r_department "" found;
     base_url := from_option r_base_url "" found;
     position := "";
     google_scholar_url := "";
     score := None;
     tags := [] |}.

(** [profMap[n].tags = f(profMap[n].tags)], which throws when
    [profMap[n]] is missing. *)
Definition updTags (st : TeamState) (n : string)
    (f : list string → list string) : option TeamState :=
  prof ← obj_get (profMap st) n;
  Some {| profOrder := profOrder st;
          profMap := obj_set (profMap st) n (setTags prof (f (tags prof))) |}.

(** [if (!profMap[n]) { profMap[n] = fresh; profOrder.splice(oldIdx + 1, 0, n) }] *)
Definition introduce (st : TeamState) (oldProfName n : string)
    (fresh : TeamProf) : TeamState :=
  match obj_get (profMap st) n with
  | Some _ => st
  | None =>
      {| profOrder := splice0 (indexAfter (profOrder st) oldProfName) n
                              (profOrder st);
         profMap := obj_set (profMap st) n fresh |}
  end.

(** The end of both listeners: an emptied source is deleted from
    [profMap] and filtered out of [profOrder], then [profOrder] is
    de-duplicated. *)
Definition dropEmptied (st : TeamState) (oldProfName : string)
    : option TeamState :=
  oldProf ← obj_get (profMap st) oldProfName;
  let st' :=
    if decide (length (tags oldProf) = 0)
    then {| profOrder := filter (λ n, n ≠ oldProfName) (profOrder st);
            profMap := obj_delete (profMap st) oldProfName |}
    else st in
  Some {| profOrder := filterFirstIndex (profOrder st');
          profMap := profMap st' |}.

(** Both listeners are one sequence of statements, which differ in what
    is taken from the source ([f1]), what is given to the destination
    ([f2]) and the record made for a newcomer. *)
Definition moveTags (st : TeamState) (oldProfName newProfName : string)
    (f1 f2 : list string → list string) (fresh : TeamProf)
    : option TeamState :=
  st1 ← updTags st oldProfName f1;
  st3 ← updTags (introduce st1 oldProfName newProfName fresh) newProfName f2;
  dropEmptied st3 oldProfName.

(** The [change] listener of a [.alt-prof-select], on the attributes
    [data-current-prof], [data-tags] and the chosen value. *)
Definition dropdownListener (st : TeamState) (oldProfName : string)
    (tagsOfOldProf : list string) (newProfName : string) : option TeamState :=
  if decide (newProfName = "") then Some st else
  let tagsToMove := tagsToMove tagsOfOldProf newProfName in
  (* Remove tags from old prof *)
  st1 ← updTags st oldProfName (filter (λ tg, tg ∉ tagsToMove));
  (* Add tags to new prof *)
  let st2 := introduce st1 oldProfName newProfName
               (dropdownNewProf tagsToMove newProfName) in
  let filteredTagsToMove := filter (λ tg, ¬ isBlank tg) tagsToMove in
  st3 ← updTags st2 newProfName
          (λ ts, arrayFromSet (ts ++ filteredTagsToMove));
  dropEmptied st3 oldProfName.

(** The holder search of the swap listener:
    [for (const [name, prof] of Object.entries(profMap))
       if (prof.tags && prof.tags.includes(tag)) { ...; break; }] *)
Definition findHolder (st : TeamState) (tag : string)
    : option (string * TeamProf) :=
  List.find (λ e, bool_decide (tag ∈ tags e.2)) (profMap st).

(** The [click] listener of a swap icon of the tag table, on the
    attributes [data-prof-name] and [data-tag] of its cell. *)
Definition swapListener (st : TeamState) (profName tag : string)
    : option TeamState :=
  match findHolder st tag with
  | None => Some st
  | Some (oldProfName, cardToSwap) =>
      if decide (profName = oldProfName) then Some st else
      st1 ← updTags st oldProfName (filter (λ tg, tg ≠ tag));
      let st2 := introduce st1 oldProfName profName
                   (swapNewProf tag profName) in
      st3 ← updTags st2 profName (λ ts, ts ++ [tag]);
      dropEmptied st3 oldProfName
  end.

(** *** Requests and runs *)

Inductive Transition :=
  | SwapIcon (profName tag : string)
  | DropdownChange (oldProfName : string) (tagsOfOldProf : list string)
                   (newProfName : string).

Definition step (st : TeamState) (t : Transition) : option TeamState :=
  match t with
  | SwapIcon profName tag => swapListener st profName tag
  | DropdownChange oldProfName tagsOfOldProf newProfName =>
      dropdownListener st oldProfName tagsOfOldProf newProfName
  end.

(** The only throwing statement of a listener precedes its first
    assignment, so an uncaught error leaves the team as it was. *)
Definition after (st : TeamState) (t : Transition) : TeamState :=
  default st (step st t).

Definition run (st : TeamState) (ts : list Transition) : TeamState :=
  foldl after st ts.

(** *** What [renderTeamCards] offers *)

(** [profsSorted] of a card: the other professors of the card's tags. *)
Definition profsForDropdown (teamProf : TeamProf) : list (string * nat) :=
  js_sort byCountDesc
    (foldl (λ profCount tag,
              foldl (λ pc p,
                       if decide (r_name p ≠ name teamProf)
                       then countProf pc (r_name p) else pc)
                    profCount (allProfs tag))
           [] (tags teamProf)).

Record Select := {
  data_current_prof : string;
  data_tags : list string;
  options : list string
}.

(** Text that is the same in the markup and in the element or attribute
    read back from it: no quote (34), apostrophe (39), ampersand (38) or
    angle bracket (60, 62), which end or start something; no carriage
    return (13), which the parser reads as a line feed; no NUL (0), which
    it replaces. *)
Definition plainText (s : string) : Prop :=
  Forall (λ c, Ascii.N_of_ascii c ∉ [34; 39; 38; 60; 62; 13; 0]%N)
         (String.list_ascii_of_string s).

(** A card has a select when its professor has at least one tag.  The
    fields are the values the template writes between quotes
    ([data-current-prof="..."], [data-tags='...'] with the JSON text of the
    tags, [value='...']). *)
Definition renderSelect (teamProf : TeamProf) : option Select :=
  match tags teamProf with
  | [] => None
  | _ => Some {| data_current_prof := name teamProf;
                 data_tags := tags teamProf;
                 options := "" :: (profsForDropdown teamProf).*1 |}
  end.

Definition renderTeamCards (st : TeamState) : list Select :=
  omap (λ profName, obj_get (profMap st) profName ≫= renderSelect)
       (profOrder st).

(** A request the page issues in state [st]: the icon of a cell of the
    tag table, or a value chosen in a rendered select, with the values
    its listener reads from the attributes.  These are the values written
    when they are plain text. *)
Definition fired (st : TeamState) (t : Transition) : Prop :=
  match t with
  | SwapIcon profName tag =>
      profName ∈ r_name <$> allProfs tag
      ∧ plainText profName ∧ plainText tag
  | DropdownChange oldProfName tagsOfOldProf newProfName =>
      Exists (λ sel, data_current_prof sel = oldProfName
                     ∧ data_tags sel = tagsOfOldProf
                     ∧ newProfName ∈ options sel)
             (renderTeamCards st)
      ∧ plainText oldProfName ∧ Forall plainText tagsOfOldProf
      ∧ plainText newProfName
  end.

Fixpoint firedRun (st : TeamState) (ts : list Transition) : Prop :=
  match ts with
  | [] => True
  | t :: r => fired st t ∧ firedRun (after st t) r
  end.
End handlers.

#[global] Instance fired_dec apiData st t : Decision (fired apiData st t).
Proof. destruct t; simpl; apply _. Defined.

#[global] Instance firedRun_dec apiData st ts :
  Decision (firedRun apiData st ts).
Proof. revert st. induction ts; intros st; simpl; apply _. Defined.

(** ** Notions used in the statements *)

(** The tags assigned to [n]: none for somebody who is not in the team. *)
Definition tagsOf (st : TeamState) (n : string) : list string :=
  from_option tags [] (obj_get (profMap st) n).

Definition member (st : TeamState) (n : string) : Prop :=
  is_Some (obj_get (profMap st) n).

(** The record under [k] once [f1] was applied to the tags of the source,
    and then once the destination was introduced and given [f2] of its
    tags; the order once the destination was introduced. *)
Definition takenProf (st : TeamState) (old : string)
    (f1 : list string → list string) (k : string) : option TeamProf :=
  if decide (old = k)
  then (λ p, setTags p (f1 (tags p))) <$> obj_get (profMap st) old
  else obj_get (profMap st) k.

Definition movedProf (st : TeamState) (old new : string)
    (f1 f2 : list string → list string) (fresh : TeamProf) (k : string)
    : option TeamProf :=
  if decide (new = k)
  then Some (let n := default fresh (takenProf st old f1 new) in
             setTags n (f2 (tags n)))
  else takenProf st old f1 k.

Definition movedOrder (st : TeamState) (old new : string) : list string :=
  match obj_get (profMap st) new with
  | Some _ => profOrder st
  | None => splice0 (indexAfter (profOrder st) old) new (profOrder st)
  end.

(** The shape [renderResults] and the listeners keep: [profOrder] lists
    the keys of [profMap], each once, and every record sits under its own
    name. *)
Record wf (st : TeamState) : Prop := {
  wf_order : NoDup (profOrder st);
  wf_keys : NoDup (obj_keys (profMap st));
  wf_member : ∀ n, n ∈ profOrder st ↔ member st n;
  wf_name : ∀ k p, obj_get (profMap st) k = Some p → name p = k
}.

(** No tag under two different members. *)
Definition uniqueHolders (st : TeamState) : Prop :=
  ∀ k1 k2 tg, tg ∈ tagsOf st k1 → tg ∈ tagsOf st k2 → k1 = k2.

(** No member without a tag. *)
Definition nonEmptyMembers (st : TeamState) : Prop :=
  Forall (λ e, tags e.2 ≠ []) (profMap st).

(** What the team assembler promises of [apiData.team]: entries of
    different names share no tag. *)
Definition disjointTeam (team : list TeamProf) : Prop :=
  Forall (λ e1, Forall (λ e2, name e1 = name e2
                              ∨ Forall (λ tg, tg ∉ tags e2) (tags e1))
                       team) team.

(** What a request gives the destination: a swap icon always gives its
    tag; the dropdown gives the non-blank tags among those to move. *)
Definition givesTag (apiData : ApiData) (st : TeamState) (t : Transition)
    : Prop :=
  match t with
  | SwapIcon _ _ => True
  | DropdownChange _ tagsOfOldProf newProfName =>
      member st newProfName
      ∨ filter (λ tg, ¬ isBlank tg) (tagsToMove apiData tagsOfOldProf newProfName)
        ≠ []
  end.

(** The source of a dropdown request holds the tags the request carries
    (the [data-tags] of a rendered card are the tags of its professor). *)
Definition sourceHolds (st : TeamState) (t : Transition) : Prop :=
  match t with
  | SwapIcon _ _ => True
  | DropdownChange oldProfName tagsOfOldProf _ =>
      Forall (λ tg, tg ∈ tagsOf st oldProfName) tagsOfOldProf
  end.

Fixpoint sourceHoldsRun (apiData : ApiData) (st : TeamState)
    (ts : list Transition) : Prop :=
  match ts with
  | [] => True
  | t :: r => sourceHolds st t ∧ sourceHoldsRun apiData (after apiData st t) r
  end.

#[global] Instance sourceHolds_dec st t : Decision (sourceHolds st t).
Proof. destruct t; simpl; apply _. Defined.

#[global] Instance sourceHoldsRun_dec apiData st ts :
  Decision (sourceHoldsRun apiData st ts).
Proof. revert st. induction ts; intros st; simpl; apply _. Defined.



(** ** The page: tabs, sections and variables of the script *)

(** An element's [classList] is kept as the set of its tokens; [add] and
    [remove] take any number of tokens. *)
Definition classList_add (classList : gset string) (tokens : list string)
    : gset string :=
  classList ∪ list_to_set tokens.

Definition classList_remove (classList : gset string) (tokens : list string)
    : gset string :=
  classList ∖ list_to_set tokens.

(** The class lists the script changes, the value of the input and the
    three variables of the script.  What the sections contain
    ([innerHTML]) is not part of this record. *)
Record Page := {
  problemInput_value : string;
  teamTab : gset string;
  individualTab : gset string;
  teamResultsSection : gset string;
  individualResultsSection : gset string;
  tagTableContainer : gset string;
  filterSortBar : gset string;
  tabNavigation : gset string;
  currentResults : list TeamProf;
  currentApiData : option ApiData;
  currentMode : string
}.

(** The page as [index.html] has it and the script initialises it. *)
Definition initialPage : Page :=
  {| problemInput_value := "";
     teamTab :=
       list_to_set ["flex-1"; "py-4"; "px-6"; "text-center"; "font-semibold";
                    "text-purple-600"; "border-b-2"; "border-purple-600";
                    "bg-purple-50"; "transition-all"; "duration-200"];
     individualTab :=
       list_to_set ["flex-1"; "py-4"; "px-6"; "text-center"; "font-semibold";
                    "text-gray-600"; "border-b-2"; "border-transparent";
                    "hover:text-purple-600"; "hover:bg-purple-50";
                    "transition-all"; "duration-200"];
     teamResultsSection :=
       list_to_set ["grid"; "grid-cols-1"; "md:grid-cols-2";
                    "lg:grid-cols-3"; "gap-8"];
     individualResultsSection := list_to_set ["hidden"];
     tagTableContainer := list_to_set ["mt-8"; "hidden"];
     filterSortBar :=
       list_to_set ["bg-white"; "p-6"; "rounded-lg"; "shadow-md"; "mb-8";
                    "hidden"];
     tabNavigation :=
       list_to_set ["bg-white"; "rounded-lg"; "shadow-md"; "mb-8"; "hidden"];
     currentResults := [];
     currentApiData := None;
     currentMode := "team" |}.

(** [switchTab(mode)], without the rendering of the individual cards. *)
Definition switchTab (pg : Page) (mode : string) : Page :=
  if decide (mode = "team") then
    {| problemInput_value := problemInput_value pg;
       teamTab :=
         classList_remove
           (classList_add (teamTab pg)
              ["text-purple-600"; "border-purple-600"; "bg-purple-50"])
           ["text-gray-600"; "border-transparent"];
       individualTab :=
         classList_add
           (classList_remove (individualTab pg)
              ["text-purple-600"; "border-purple-600"; "bg-purple-50"])
           ["text-gray-600"; "border-transparent"];
       teamResultsSection :=
         classList_remove (teamResultsSection pg) ["hidden"];
       individualResultsSection :=
         classList_add (individualResultsSection pg) ["hidden"];
       tagTableContainer := tagTableContainer pg;
       filterSortBar := filterSortBar pg;
       tabNavigation := tabNavigation pg;
       currentResults := currentResults pg;
       currentApiData := currentApiData pg;
       currentMode := mode |}
  else
    {| problemInput_value := problemInput_value pg;
       teamTab :=
         classList_add
           (classList_remove (teamTab pg)
              ["text-purple-600"; "border-purple-600"; "bg-purple-50"])
           ["text-gray-600"; "border-transparent"];
       individualTab :=
         classList_remove
           (classList_add (individualTab pg)
              ["text-purple-600"; "border-purple-600"; "bg-purple-50"])
           ["text-gray-600"; "border-transparent"];
       teamResultsSection :=
         classList_add (teamResultsSection pg) ["hidden"];
       individualResultsSection :=
         classList_remove (individualResultsSection pg) ["hidden"];
       tagTableContainer := tagTableContainer pg;
       filterSortBar := filterSortBar pg;
       tabNavigation := tabNavigation pg;
       currentResults := currentResults pg;
       currentApiData := currentApiData pg;
       currentMode := mode |}.

(** [handleClearClick()] *)
Definition handleClearClick (pg : Page) : Page :=
  {| problemInput_value := "";
     teamTab :=
       classList_remove
         (classList_add (teamTab pg)
            ["text-purple-600"; "border-purple-600"; "bg-purple-50"])
         ["text-gray-600"; "border-transparent"];
     individualTab :=
       classList_add
         (classList_remove (individualTab pg)
            ["text-purple-600"; "border-purple-600"; "bg-purple-50"])
         ["text-gray-600"; "border-transparent"];
     teamResultsSection :=
       classList_remove (teamResultsSection pg) ["hidden"];
     individualResultsSection :=
       classList_add (individualResultsSection pg) ["hidden"];
     tagTableContainer := classList_add (tagTableContainer pg) ["hidden"];
     filterSortBar := classList_add (filterSortBar pg) ["hidden"];
     tabNavigation := classList_add (tabNavigation pg) ["hidden"];
     currentResults := [];
     currentApiData := None;
     currentMode := "team" |}.

(** [handleAnalyzeClick()]: the problem statement passed to
    [analyzeProblem], [None] when the input is refused with an alert. *)
Definition handleAnalyzeClick (pg : Page) : option string :=
  let problemStatement := trim (problemInput_value pg) in
  if decide (problemStatement = "") then None else Some problemStatement.



(** What [analyzeProblem] does to the page; [data] is the response with
    its team sorted. *)
Definition analyzeProblem (pg : Page) (data : ApiData) : Page :=
  {| problemInput_value := problemInput_value pg;
     teamTab := teamTab pg;
     individualTab := individualTab pg;
     teamResultsSection := teamResultsSection pg;
     individualResultsSection := individualResultsSection pg;
     tagTableContainer := tagTableContainer pg;
     filterSortBar := classList_remove (filterSortBar pg) ["hidden"];
     tabNavigation := classList_remove (tabNavigation pg) ["hidden"];
     currentResults := team data;
     currentApiData := Some data;
     currentMode := currentMode pg |}.

(** The callback [renderTeamCards] defers with [setTimeout], for what it
    does to the class lists: the tag table is shown. *)
Definition tagTableTimeout (pg : Page) : Page :=
  {| problemInput_value := problemInput_value pg;
     teamTab := teamTab pg;
     individualTab := individualTab pg;
     teamResultsSection := teamResultsSection pg;
     individualResultsSection := individualResultsSection pg;
     tagTableContainer := classList_remove (tagTableContainer pg) ["hidden"];
     filterSortBar := filterSortBar pg;
     tabNavigation := tabNavigation pg;
     currentResults := currentResults pg;
     currentApiData := currentApiData pg;
     currentMode := currentMode pg |}.

(** What happens to the page: typing, the two tabs, the Clear button, a
    response of the API (with its team sorted), the deferred callback. *)
Inductive PageEvent :=
  | Typed (text : string)
  | TeamTabClick
  | IndividualTabClick
  | ClearClick
  | ResponseOk (data : ApiData)
  | TagTableTimeout.

Definition pageStep (pg : Page) (e : PageEvent) : Page :=
  match e with
  | Typed text =>
      {| problemInput_value := text;
         teamTab := teamTab pg;
         individualTab := individualTab pg;
         teamResultsSection := teamResultsSection pg;
         individualResultsSection := individualResultsSection pg;
         tagTableContainer := tagTableContainer pg;
         filterSortBar := filterSortBar pg;
         tabNavigation := tabNavigation pg;
         currentResults := currentResults pg;
         currentApiData := currentApiData pg;
         currentMode := currentMode pg |}
  | TeamTabClick => switchTab pg "team"
  | IndividualTabClick => switchTab pg "individual"
  | ClearClick => handleClearClick pg
  | ResponseOk data => analyzeProblem pg data
  | TagTableTimeout => tagTableTimeout pg
  end.

Definition pageRun (es : list PageEvent) : Page :=
  foldl pageStep initialPage es.

(** ** Sample data *)

Definition rosterProf (n : string) : RosterProf :=
  {| r_name := n; r_department := "Computer Science";
     r_base_url := "/faculty/" +:+ n; r_position := "Professor";
     r_google_scholar_url := "" |}.

Definition teamProf (n : string) (ts : list string) : TeamProf :=
  {| name := n; department := "Computer Science";
     base_url := "/faculty/" +:+ n; position := "Professor";
     google_scholar_url := ""; score := None; tags := ts |}.

Definition apiOf (team : list TeamProf)
    (byTag : list (string * list RosterProf)) : ApiData :=
  {| team := team; all_profs_by_tag := list_to_map byTag; individual := [] |}.

Definition individualProf (n : string) (r : Q) : IndividualProf :=
  {| i_name := n; i_department := "Computer Science";
     i_position := "Professor"; i_base_url := "/faculty/" +:+ n;
     i_google_scholar_url := ""; rank_score := r; semantic := 50;
     weighted_match := 50; matching_tags := ["ml"] |}.

(** Ann holds two tags; Bob has neither of them. *)
Definition apiTwoTags : ApiData :=
  apiOf [teamProf "Ann" ["ml"; "nlp"]]
        [("ml", [rosterProf "Ann"; rosterProf "Cid"]);
         ("nlp", [rosterProf "Ann"])].

(** Ann holds one tag, which Bob has too. *)
Definition apiOneTag : ApiData :=
  apiOf [teamProf "Ann" ["ml"]]
        [("ml", [rosterProf "Ann"; rosterProf "Bob"])].

(** Ann holds a blank tag and a proper one; Bob has both. *)
Definition apiBlankTag : ApiData :=
  apiOf [teamProf "Ann" [" "; "ml"]]
        [(" ", [rosterProf "Ann"; rosterProf "Bob"]);
         ("ml", [rosterProf "Ann"; rosterProf "Bob"])].

(** Ann holds only a blank tag, which Bob has too. *)
Definition apiOnlyBlank : ApiData :=
  apiOf [teamProf "Ann" [" "]]
        [(" ", [rosterProf "Ann"; rosterProf "Bob"])].

(** Ann holds one tag and Bob another; Bob has Ann's tag too. *)
Definition apiBackAndForth : ApiData :=
  apiOf [teamProf "Ann" ["ml"]; teamProf "Bob" ["db"]]
        [("ml", [rosterProf "Ann"; rosterProf "Bob"]);
         ("db", [rosterProf "Bob"])].

(** Ann holds two tags and Bob a third; Bob has none of Ann's. *)
Definition apiNoOverlap : ApiData :=
  apiOf [teamProf "Ann" ["ml"; "nlp"]; teamProf "Bob" ["db"]]
        [("ml", [rosterProf "Ann"; rosterProf "Cid"]);
         ("nlp", [rosterProf "Ann"]);
         ("db", [rosterProf "Bob"])].

(** Ann and Bob both hold [ml], and Ann another tag; Bob has [ml]. *)
Definition apiSharedTag : ApiData :=
  apiOf [teamProf "Ann" ["ml"; "nlp"]; teamProf "Bob" ["db"; "ml"]]
        [("ml", [rosterProf "Ann"; rosterProf "Bob"]);
         ("nlp", [rosterProf "Ann"]);
         ("db", [rosterProf "Bob"])].

(** A no-break space (U+00A0). *)
Definition noBreakSpace : string :=
  String (Ascii.ascii_of_N 194) (String (Ascii.ascii_of_N 160) "").

(** Ann holds a no-break space as a tag and a proper one; Bob has both. *)
Definition apiNoBreakSpace : ApiData :=
  apiOf [teamProf "Ann" [noBreakSpace; "ml"]]
        [(noBreakSpace, [rosterProf "Ann"; rosterProf "Bob"]);
         ("ml", [rosterProf "Ann"; rosterProf "Bob"])].


(** Ann holds two tags and Bob a third; Bob has one of Ann's. *)
Definition apiTwoMembers : ApiData :=
  apiOf [teamProf "Ann" ["ml"; "nlp"]; teamProf "Bob" ["db"]]
        [("ml", [rosterProf "Ann"; rosterProf "Bob"]);
         ("nlp", [rosterProf "Ann"]);
         ("db", [rosterProf "Bob"; rosterProf "Cid"])].

(** ** Tactics for the class lists *)

(** Class lists are compared by evaluation, and only once they are
    closed. *)
Ltac page_fields :=
  cbn [problemInput_value teamTab individualTab teamResultsSection
       individualResultsSection tagTableContainer filterSortBar
       tabNavigation currentResults currentApiData currentMode].

Ltac closed_eq := apply (bool_decide_unpack _); vm_compute; exact I.

(** Equalities of class lists built by [add] and [remove], by cases on
    the membership of a token in each list of tokens. *)
Ltac class_lists :=
  unfold classList_add, classList_remove; apply set_eq; intros x;
  repeat (rewrite elem_of_union || rewrite elem_of_difference);
  repeat match goal with
         | |- context [x ∈ list_to_set ?l] =>
             let Hx := fresh in
             destruct (decide (x ∈ (list_to_set l : gset string))) as [Hx|Hx];
             revert Hx; generalize (x ∈ (list_to_set l : gset string))
         end;
  tauto.

(** * Facts *)

#[local] Set Warnings "-clear-no-such-hyp".

(** ** Arrays *)

Section array_facts.
Context {A : Type} `{EqDecision A}.
Implicit Types (l k : list A) (x y : A).

Lemma elem_of_uniq l x : x ∈ uniq l ↔ x ∈ l.
Proof.
  induction l as [|y l IH]; simpl; [done|].
  rewrite !elem_of_cons, list_elem_of_filter, IH.
  destruct (decide (x = y)); naive_solver.
Qed.

Lemma NoDup_uniq l : NoDup (uniq l).
Proof.
  induction l as [|y l IH]; simpl; [constructor|].
  apply NoDup_cons; split; [|by apply NoDup_filter].
  rewrite list_elem_of_filter; naive_solver.
Qed.

Lemma filter_all l (P : A → Prop) `{!∀ x, Decision (P x)} :
  (∀ x, x ∈ l → P x) → filter P l = l.
Proof.
  induction l as [|y l IH]; intros HP; [done|].
  rewrite filter_cons_True by (apply HP; left).
  f_equal; apply IH; intros; apply HP; by right.
Qed.


Lemma filter_ext_elem l (P Q : A → Prop)
    `{!∀ x, Decision (P x)} `{!∀ x, Decision (Q x)} :
  (∀ x, x ∈ l → P x ↔ Q x) → filter P l = filter Q l.
Proof.
  induction l as [|y l IH]; intros HPQ; [done|].
  rewrite !filter_cons.
  assert (filter P l = filter Q l) as -> by (apply IH; intros; apply HPQ; by right).
  pose proof (HPQ y (list_elem_of_here _ _)).
  repeat case_decide; naive_solver.
Qed.


Lemma uniq_NoDup_id l : NoDup l → uniq l = l.
Proof.
  induction 1 as [|y l Hy _ IH]; simpl; [done|].
  rewrite IH. f_equal. apply filter_all. intros x Hx ->. done.
Qed.


Lemma uniq_app l k :
  uniq (l ++ k) = uniq l ++ filter (λ x, x ∉ l) (uniq k).
Proof.
  induction l as [|y l IH]; simpl.
  - symmetry. apply filter_all. intros x _. apply not_elem_of_nil.
  - f_equal. rewrite IH, filter_app. f_equal.
    rewrite list_filter_filter. apply filter_ext_elem.
    intros x _. rewrite not_elem_of_cons. naive_solver.
Qed.




(** The two JavaScript idioms compute [uniq]. *)
Lemma foldl_setAdd l s :
  NoDup s → foldl setAdd s l = s ++ filter (λ x, x ∉ s) (uniq l).
Proof.
  revert s. induction l as [|y l IH]; intros s Hs; simpl.
  - by rewrite app_nil_r.
  - unfold setAdd at 2. destruct (decide (y ∈ s)) as [Hy|Hy].
    + rewrite IH by done. f_equal.
      rewrite filter_cons_False by naive_solver.
      rewrite list_filter_filter. apply filter_ext_elem.
      intros x _. split; [|naive_solver]. intros Hx. split; [done|].
      by intros ->.
    + rewrite IH.
      2:{ apply NoDup_app. split_and!; [done| |apply NoDup_singleton].
          intros x Hx ->%list_elem_of_singleton. done. }
      rewrite filter_cons_True by done.
      rewrite <- app_assoc. simpl. do 2 f_equal.
      rewrite list_filter_filter. apply filter_ext_elem.
      intros x _. rewrite not_elem_of_app, list_elem_of_singleton. naive_solver.
Qed.

Lemma arrayFromSet_uniq l : arrayFromSet l = uniq l.
Proof.
  unfold arrayFromSet. rewrite foldl_setAdd by constructor. simpl.
  apply filter_all. intros x _. apply not_elem_of_nil.
Qed.

Lemma indexOf_None l x : indexOf l x = None ↔ x ∉ l.
Proof.
  induction l as [|y l IH]; simpl.
  - split; [intros _; apply not_elem_of_nil|done].
  - rewrite not_elem_of_cons. case_decide; [naive_solver|].
    destruct (indexOf l x); simpl in *; naive_solver.
Qed.

Lemma indexOf_Some l x i :
  indexOf l x = Some i ↔
  ∃ l1 l2, l = l1 ++ x :: l2 ∧ (x ∉ l1) ∧ length l1 = i.
Proof.
  revert i. induction l as [|y l IH]; intros i; simpl.
  - split; [done|]. intros ([|??] & ? & ? & _); done.
  - case_decide as Hy.
    + subst y. split.
      * intros [= <-]. exists (@nil A), l. split_and!; [done|apply not_elem_of_nil|done].
      * intros ([|z l1] & l2 & Heq & Hx & <-); [done|].
        injection Heq as -> _. exfalso. apply Hx. left.
    + destruct (indexOf l x) as [j|] eqn:Hj; simpl.
      * split.
        -- intros [= <-]. destruct (proj1 (IH j) eq_refl) as (l1 & l2 & -> & Hx & <-).
           exists (y :: l1), l2. split_and!; [done| |done].
           rewrite not_elem_of_cons. naive_solver.
        -- intros ([|z l1] & l2 & Heq & Hx & <-); injection Heq as -> ->; [done|].
           simpl. f_equal. assert (Some j = Some (length l1)) as [= ->]; [|done].
           apply IH. exists l1, l2. rewrite not_elem_of_cons in Hx. naive_solver.
      * split; [done|].
        intros ([|z l1] & l2 & Heq & Hx & <-); injection Heq as -> ->; [done|].
        exfalso. assert (None = Some (length l1)); [|done].
        apply IH. exists l1, l2. rewrite not_elem_of_cons in Hx. naive_solver.
Qed.

Lemma filter_from_uniq (arr pre l : list A) :
  arr = pre ++ l →
  filter_from (λ i n, bool_decide (indexOf arr n = Some i)) (length pre) l
  = filter (λ x, x ∉ pre) (uniq l).
Proof.
  revert pre. induction l as [|y l IH]; intros pre ->; simpl; [done|].
  specialize (IH (pre ++ [y])).
  rewrite <- app_assoc, length_app in IH. simpl in IH.
  rewrite Nat.add_1_r in IH. rewrite IH by done. clear IH.
  case_bool_decide as Hi.
  - apply indexOf_Some in Hi as (l1 & l2 & Heq & Hy & Hlen).
    apply app_inj_1 in Heq as [<- _]; [|done].
    rewrite filter_cons_True by done. f_equal.
    rewrite list_filter_filter.
    apply filter_ext_elem. intros x _.
    rewrite not_elem_of_app, list_elem_of_singleton. naive_solver.
  - assert (y ∈ pre) as Hpre.
    { destruct (decide (y ∈ pre)) as [|Hn]; [done|]. exfalso. apply Hi.
      apply indexOf_Some. by exists pre, l. }
    rewrite filter_cons_False by naive_solver.
    rewrite list_filter_filter.
    apply filter_ext_elem. intros x _.
    rewrite not_elem_of_app, list_elem_of_singleton.
    naive_solver.
Qed.

Lemma filterFirstIndex_uniq l : filterFirstIndex l = uniq l.
Proof.
  unfold filterFirstIndex.
  change 0 with (length (@nil A)). rewrite (filter_from_uniq l [] l eq_refl).
  apply filter_all. intros x _. apply not_elem_of_nil.
Qed.

(** [splice] at any index adds exactly the new element. *)
Lemma elem_of_splice0 i x l y : y ∈ splice0 i x l ↔ y = x ∨ y ∈ l.
Proof.
  unfold splice0. rewrite elem_of_app, elem_of_cons.
  rewrite <- (take_drop i l) at 3. rewrite elem_of_app. naive_solver.
Qed.


Lemma NoDup_splice0 i x l : x ∉ l → NoDup l → NoDup (splice0 i x l).
Proof.
  intros Hx Hl. unfold splice0. rewrite <- (take_drop i l) in Hx, Hl.
  apply NoDup_app in Hl as (H1 & H2 & H3).
  rewrite not_elem_of_app in Hx.
  apply NoDup_app. split_and!; [done| |].
  - intros y Hy. rewrite not_elem_of_cons. naive_solver.
  - apply NoDup_cons. naive_solver.
Qed.

Lemma splice0_indexAfter l x y :
  x ∈ l →
  ∃ l1 l2, l = l1 ++ x :: l2 ∧ (x ∉ l1)
           ∧ splice0 (indexAfter l x) y l = l1 ++ x :: y :: l2.
Proof.
  intros Hx. unfold indexAfter.
  destruct (indexOf l x) as [i|] eqn:Hi.
  - apply indexOf_Some in Hi as (l1 & l2 & -> & Hl1 & <-).
    exists l1, l2. split_and!; [done..|].
    unfold splice0.
    replace (S (length l1)) with (length l1 + 1) by lia.
    rewrite take_app_add, drop_app_add. simpl.
    by rewrite <- app_assoc.
  - by apply indexOf_None in Hi.
Qed.
End array_facts.

(** ** Objects *)

Section object_facts.
Context {V : Type}.
Implicit Types (o : list (string * V)) (k : string) (v : V).

Lemma obj_get_set_eq o k v : obj_get (obj_set o k v) k = Some v.
Proof.
  induction o as [|[k' v'] o IH]; simpl; repeat (case_decide; simpl); done.
Qed.

Lemma obj_get_set_ne o k k' v :
  k ≠ k' → obj_get (obj_set o k v) k' = obj_get o k'.
Proof.
  intros Hne. induction o as [|[k0 v0] o IH]; simpl;
    repeat (case_decide; simpl); congruence.
Qed.

Lemma obj_get_set o k k' v :
  obj_get (obj_set o k v) k' = if decide (k = k') then Some v else obj_get o k'.
Proof.
  case_decide as Hk; [subst; apply obj_get_set_eq|by apply obj_get_set_ne].
Qed.



Lemma obj_get_delete o k k' :
  obj_get (obj_delete o k) k' = if decide (k = k') then None else obj_get o k'.
Proof.
  unfold obj_delete. induction o as [|[k0 v0] o IH]; simpl.
  - by case_decide.
  - rewrite filter_cons. simpl. repeat (case_decide; simpl); congruence.
Qed.

Lemma elem_of_obj_keys o k : k ∈ obj_keys o ↔ is_Some (obj_get o k).
Proof.
  unfold obj_keys. induction o as [|[k0 v0] o IH]; csimpl.
  - rewrite elem_of_nil. split; [done|]. by intros [? ?].
  - rewrite elem_of_cons, IH. case_decide; naive_solver.
Qed.

Lemma obj_keys_set o k v :
  obj_keys (obj_set o k v)
  = match obj_get o k with
    | Some _ => obj_keys o
    | None => obj_keys o ++ [k]
    end.
Proof.
  unfold obj_keys. induction o as [|[k0 v0] o IH]; csimpl; [done|].
  case_decide; csimpl; [done|]. rewrite IH. by destruct (obj_get o k).
Qed.

Lemma obj_keys_delete o k :
  obj_keys (obj_delete o k) = filter (λ n, n ≠ k) (obj_keys o).
Proof.
  unfold obj_keys, obj_delete. induction o as [|[k0 v0] o IH]; csimpl; [done|].
  rewrite !filter_cons. csimpl. case_decide; csimpl; by rewrite IH.
Qed.

Lemma NoDup_obj_keys_set o k v :
  NoDup (obj_keys o) → NoDup (obj_keys (obj_set o k v)).
Proof.
  intros Hnd. rewrite obj_keys_set.
  destruct (obj_get o k) eqn:Hg; [done|].
  apply NoDup_app. split_and!; [done| |apply NoDup_singleton].
  intros x Hx ->%list_elem_of_singleton.
  apply elem_of_obj_keys in Hx as [? ?]. congruence.
Qed.

Lemma NoDup_obj_keys_delete o k :
  NoDup (obj_keys o) → NoDup (obj_keys (obj_delete o k)).
Proof. intros. rewrite obj_keys_delete. by apply NoDup_filter. Qed.

(** With distinct keys, the entries are the graph of [obj_get]. *)
Lemma elem_of_obj_entries o k v :
  NoDup (obj_keys o) → (k, v) ∈ o ↔ obj_get o k = Some v.
Proof.
  unfold obj_keys. induction o as [|[k0 v0] o IH]; csimpl; intros Hnd.
  - by rewrite elem_of_nil.
  - apply NoDup_cons in Hnd as [Hk0 Hnd]. rewrite elem_of_cons, IH by done.
    case_decide as Hk.
    + subst k0. split; [|naive_solver]. intros [[= ->]|Hg]; [done|].
      exfalso. apply Hk0. apply elem_of_obj_keys. eauto.
    + naive_solver.
Qed.

(** The loop [for (const [k, v] of Object.entries(o)) if (f(v)) break]. *)
Lemma obj_find_Some o (f : string * V → bool) k v :
  NoDup (obj_keys o) →
  List.find f o = Some (k, v) → obj_get o k = Some v ∧ f (k, v).
Proof.
  intros Hnd Hf. apply find_some in Hf as [Hin Hf].
  rewrite <- elem_of_obj_entries by done.
  split; [by apply list_elem_of_In|by apply Is_true_true].
Qed.

Lemma obj_find_None o (f : string * V → bool) k v :
  List.find f o = None → obj_get o k = Some v → ¬ f (k, v).
Proof.
  intros Hf Hg. apply Is_true_false.
  apply (find_none _ _ Hf). apply list_elem_of_In.
  clear Hf. induction o as [|[k0 v0] o IH]; simpl in *; [done|].
  case_decide; [simplify_eq; left|right; auto].
Qed.

End object_facts.

(** ** The statements of the listeners *)

Lemma setTags_id p : setTags p (tags p) = p.
Proof. by destruct p. Qed.

Lemma length_zero_nil {A} (l : list A) : length l = 0 ↔ l = [].
Proof. destruct l; naive_solver. Qed.

Lemma updTags_Some st n f p :
  obj_get (profMap st) n = Some p →
  updTags st n f
  = Some {| profOrder := profOrder st;
            profMap := obj_set (profMap st) n (setTags p (f (tags p))) |}.
Proof. intros Hp. unfold updTags. by rewrite Hp. Qed.

Lemma updTags_inv st n f st' :
  updTags st n f = Some st' →
  ∃ p, obj_get (profMap st) n = Some p
       ∧ st' = {| profOrder := profOrder st;
                  profMap := obj_set (profMap st) n (setTags p (f (tags p))) |}.
Proof.
  unfold updTags. destruct (obj_get (profMap st) n) as [p|]; [|done].
  intros [= <-]. eauto.
Qed.

Lemma introduce_get st old n fresh k :
  obj_get (profMap (introduce st old n fresh)) k
  = if decide (n = k) then Some (default fresh (obj_get (profMap st) n))
    else obj_get (profMap st) k.
Proof.
  unfold introduce. destruct (obj_get (profMap st) n) as [q|] eqn:Hq; simpl.
  - case_decide; congruence.
  - by rewrite obj_get_set.
Qed.

Lemma introduce_order st old n fresh :
  profOrder (introduce st old n fresh)
  = match obj_get (profMap st) n with
    | Some _ => profOrder st
    | None => splice0 (indexAfter (profOrder st) old) n (profOrder st)
    end.
Proof. unfold introduce. by destruct (obj_get (profMap st) n). Qed.

Lemma dropEmptied_Some st old p :
  obj_get (profMap st) old = Some p →
  dropEmptied st old
  = Some (if decide (tags p = [])
          then {| profOrder := uniq (filter (λ n, n ≠ old) (profOrder st));
                  profMap := obj_delete (profMap st) old |}
          else {| profOrder := uniq (profOrder st);
                  profMap := profMap st |}).
Proof.
  intros Hp. unfold dropEmptied. rewrite Hp. simpl.
  rewrite filterFirstIndex_uniq.
  destruct (decide (length (tags p) = 0)) as [H0|H0];
    rewrite length_zero_nil in H0; case_decide; done.
Qed.

(** *** Well-formedness *)

Lemma wf_updTags st n f st' : wf st → updTags st n f = Some st' → wf st'.
Proof.
  intros [Ho Hk Hm Hn] (p & Hp & ->)%updTags_inv.
  split; simpl.
  - done.
  - by apply NoDup_obj_keys_set.
  - intros k. rewrite Hm. unfold member. simpl. rewrite obj_get_set.
    case_decide; [subst; rewrite Hp; split; eauto|done].
  - intros k q. rewrite obj_get_set. case_decide; [|apply Hn].
    intros [= <-]. subst. simpl. by apply Hn.
Qed.

Lemma wf_introduce st old n fresh :
  wf st → name fresh = n → wf (introduce st old n fresh).
Proof.
  intros [Ho Hk Hm Hn] Hfresh. unfold introduce.
  destruct (obj_get (profMap st) n) as [q|] eqn:Hq; [done|].
  assert (n ∉ profOrder st) as Hnin.
  { rewrite Hm. unfold member. rewrite Hq. by intros [? ?]. }
  split; simpl.
  - by apply NoDup_splice0.
  - by apply NoDup_obj_keys_set.
  - intros k. rewrite elem_of_splice0, Hm. unfold member. simpl.
    rewrite obj_get_set. case_decide; [subst; split; eauto|naive_solver].
  - intros k q. rewrite obj_get_set. case_decide; [|apply Hn]. congruence.
Qed.

Lemma wf_dropEmptied st old st' : wf st → dropEmptied st old = Some st' → wf st'.
Proof.
  intros [Ho Hk Hm Hn] Hd.
  destruct (obj_get (profMap st) old) as [p|] eqn:Hp;
    [|unfold dropEmptied in Hd; by rewrite Hp in Hd].
  rewrite dropEmptied_Some with (p := p) in Hd by done.
  injection Hd as <-. case_decide; split; simpl.
  - apply NoDup_uniq.
  - by apply NoDup_obj_keys_delete.
  - intros k. rewrite elem_of_uniq, list_elem_of_filter, Hm. unfold member.
    simpl. rewrite obj_get_delete. case_decide; [subst|naive_solver].
    split; [naive_solver|]. by intros [? ?].
  - intros k q. rewrite obj_get_delete. case_decide; [done|apply Hn].
  - apply NoDup_uniq.
  - done.
  - intros k. by rewrite elem_of_uniq.
  - done.
Qed.

Lemma wf_moveTags st old new f1 f2 fresh st' :
  wf st → name fresh = new →
  moveTags st old new f1 f2 fresh = Some st' → wf st'.
Proof.
  intros Hwf Hfresh Hm. unfold moveTags in Hm.
  destruct (updTags st old f1) as [st1|] eqn:H1; [|done]. simpl in Hm.
  destruct (updTags _ new f2) as [st3|] eqn:H3; [|done]. simpl in Hm.
  eapply wf_dropEmptied; [|done].
  eapply wf_updTags; [|done].
  eapply wf_introduce; [|done].
  by eapply wf_updTags.
Qed.

(** *** The common sequence of the listeners *)

Lemma moveTags_inv st old new f1 f2 fresh st' :
  moveTags st old new f1 f2 fresh = Some st' →
  ∃ p3,
    member st old
    ∧ movedProf st old new f1 f2 fresh old = Some p3
    ∧ (∀ k, obj_get (profMap st') k
            = if decide (tags p3 = [] ∧ old = k) then None
              else movedProf st old new f1 f2 fresh k)
    ∧ profOrder st'
      = uniq (if decide (tags p3 = [])
              then filter (λ k, k ≠ old) (movedOrder st old new)
              else movedOrder st old new).
Proof.
  unfold moveTags. intros Hm.
  destruct (updTags st old f1) as [st1|] eqn:H1; [|done]. simpl in Hm.
  apply updTags_inv in H1 as (p & Hp & ->).
  destruct (updTags _ new f2) as [st3|] eqn:H3; [|done]. simpl in Hm.
  apply updTags_inv in H3 as (n & Hn & ->).
  rewrite introduce_get in Hn. rewrite decide_True in Hn by done.
  injection Hn as <-. simpl in *.
  set (st1 := {| profOrder := profOrder st;
                 profMap := obj_set (profMap st) old _ |}) in *.
  set (st3 := {| profOrder := profOrder (introduce st1 old new fresh);
                 profMap := _ |}) in *.
  assert (∀ k, obj_get (profMap st3) k = movedProf st old new f1 f2 fresh k)
    as Hget.
  { intros k. unfold st3, movedProf, takenProf. simpl.
    rewrite obj_get_set. case_decide as Hk.
    - rewrite Hp. simpl. do 2 f_equal; by rewrite obj_get_set.
    - rewrite introduce_get, decide_False by done. simpl.
      rewrite obj_get_set. rewrite Hp. done. }
  assert (profOrder st3 = movedOrder st old new) as Hord.
  { unfold st3, movedOrder. simpl. rewrite introduce_order. simpl.
    rewrite obj_get_set. case_decide; [subst; by rewrite Hp|done]. }
  destruct (obj_get (profMap st3) old) as [p3|] eqn:Hp3;
    [|unfold dropEmptied in Hm; by rewrite Hp3 in Hm].
  rewrite (dropEmptied_Some _ _ _ Hp3) in Hm. injection Hm as <-.
  exists p3. split_and!.
  - by exists p.
  - by rewrite <- Hget.
  - intros k. case_decide as He; simpl.
    + rewrite obj_get_delete, <- Hget. repeat case_decide; naive_solver.
    + rewrite Hget. case_decide; naive_solver.
  - rewrite <- Hord. by case_decide.
Qed.

Lemma moveTags_is_Some st old new f1 f2 fresh :
  member st old → is_Some (moveTags st old new f1 f2 fresh).
Proof.
  intros [p Hp]. unfold moveTags. rewrite (updTags_Some _ _ _ _ Hp). simpl.
  set (st2 := introduce _ _ _ _).
  assert (is_Some (obj_get (profMap st2) new)) as [n Hn].
  { unfold st2. rewrite introduce_get, decide_True by done. eauto. }
  rewrite (updTags_Some _ _ _ _ Hn). simpl.
  set (st3 := Build_TeamState _ _).
  assert (is_Some (obj_get (profMap st3) old)) as [p3 Hp3].
  { unfold st3, st2. simpl. rewrite obj_get_set. case_decide; [eauto|].
    rewrite introduce_get, decide_False by done. simpl.
    rewrite obj_get_set_eq. eauto. }
  rewrite (dropEmptied_Some _ _ _ Hp3). eauto.
Qed.

Lemma moveTags_member_old st old new f1 f2 fresh st' :
  moveTags st old new f1 f2 fresh = Some st' → member st old.
Proof. by intros (p3 & Hm & _)%moveTags_inv. Qed.

(** Every member's tags afterwards: [f1] was applied to the source, then
    [f2] to the destination. *)
Lemma moveTags_tagsOf st old new f1 f2 fresh st' k :
  moveTags st old new f1 f2 fresh = Some st' → tags fresh = [] →
  tagsOf st' k
  = (if decide (new = k) then f2 else id)
      ((if decide (old = k) then f1 else id) (tagsOf st k)).
Proof.
  intros (p3 & [p Hp] & Hp3 & Hget & _)%moveTags_inv Hfresh.
  assert (∀ k', from_option tags [] (movedProf st old new f1 f2 fresh k')
                = (if decide (new = k') then f2 else id)
                    ((if decide (old = k') then f1 else id) (tagsOf st k')))
    as Htags.
  { intros k'. unfold movedProf, takenProf, tagsOf. rewrite Hp. simpl.
    repeat case_decide; simplify_eq; simpl; rewrite ?Hp; try done.
    destruct (obj_get (profMap st) k'); simpl; by rewrite ?Hfresh. }
  unfold tagsOf at 1. rewrite Hget. case_decide as He; [|apply Htags].
  destruct He as [He <-]. simpl. rewrite <- Htags, Hp3. done.
Qed.

Lemma moveTags_member st old new f1 f2 fresh st' k :
  moveTags st old new f1 f2 fresh = Some st' → tags fresh = [] →
  member st' k ↔ (k = new ∨ member st k) ∧ (k = old → tagsOf st' old ≠ []).
Proof.
  intros Hm Hfresh.
  destruct (moveTags_inv _ _ _ _ _ _ _ Hm) as (p3 & [p Hp] & Hp3 & Hget & _).
  assert (tagsOf st' old = tags p3) as Ht3.
  { unfold tagsOf. rewrite Hget. case_decide as He; [destruct He as [He _]; by rewrite He|].
    by rewrite Hp3. }
  unfold member. rewrite Hget, Ht3.
  unfold movedProf, takenProf in *. rewrite Hp in *. simpl in *.
  repeat case_decide; simplify_eq; split; naive_solver.
Qed.

Lemma moveTags_other st old new f1 f2 fresh st' k :
  moveTags st old new f1 f2 fresh = Some st' → k ≠ old → k ≠ new →
  obj_get (profMap st') k = obj_get (profMap st) k.
Proof.
  intros (p3 & _ & _ & Hget & _)%moveTags_inv Ho Hn.
  rewrite Hget. unfold movedProf, takenProf.
  repeat case_decide; naive_solver.
Qed.

(** The order afterwards: the destination, if new, was put where
    [splice] puts it, and an emptied source is gone. *)
Lemma moveTags_order st old new f1 f2 fresh st' :
  wf st → moveTags st old new f1 f2 fresh = Some st' → tags fresh = [] →
  profOrder st'
  = filter (λ k, k = old → tagsOf st' old ≠ []) (movedOrder st old new).
Proof.
  intros Hwf Hm Hfresh.
  destruct (moveTags_inv _ _ _ _ _ _ _ Hm) as (p3 & [p Hp] & Hp3 & Hget & ->).
  assert (tagsOf st' old = tags p3) as ->.
  { unfold tagsOf. rewrite Hget. case_decide as He; [destruct He as [He _]; by rewrite He|].
    by rewrite Hp3. }
  assert (NoDup (movedOrder st old new)) as Hnd.
  { unfold movedOrder. destruct (obj_get (profMap st) new) eqn:Hn.
    - apply Hwf.
    - apply NoDup_splice0; [|apply Hwf]. rewrite (wf_member _ Hwf).
      unfold member. rewrite Hn. by intros [? ?]. }
  case_decide as He.
  - rewrite uniq_NoDup_id by by apply NoDup_filter.
    apply filter_ext_elem. naive_solver.
  - rewrite uniq_NoDup_id by done. symmetry. apply filter_all. done.
Qed.

(** *** The two listeners *)

Section listener_facts.
Variable apiData : ApiData.
Implicit Types (st : TeamState) (T : list string).

Lemma newProfCommonCount_pos T new : 1 ≤ newProfCommonCount apiData T new.
Proof.
  unfold newProfCommonCount.
  destruct (List.find _ _) as [[? [|?]]|]; lia.
Qed.

(** More than one tag on the card: the tags the destination has, blank
    ones left out.  One tag (or none): the tags of the card. *)
Lemma tagsToMove_multi T new :
  1 < length T →
  tagsToMove apiData T new
  = filter (λ tg, ¬ isBlank tg ∧ possesses apiData new tg) T.
Proof.
  intros HT. unfold tagsToMove.
  rewrite (bool_decide_eq_true_2 _ (newProfCommonCount_pos T new)).
  by rewrite (bool_decide_eq_true_2 _ HT).
Qed.

Lemma tagsToMove_single T new :
  length T ≤ 1 → tagsToMove apiData T new = T.
Proof.
  intros HT. unfold tagsToMove.
  rewrite (bool_decide_eq_false_2 (1 < length T)) by lia.
  by rewrite andb_false_r.
Qed.

Lemma tagsToMove_subseteq T new tg : tg ∈ tagsToMove apiData T new → tg ∈ T.
Proof.
  destruct (decide (1 < length T)) as [HT|HT].
  - rewrite tagsToMove_multi by done. rewrite list_elem_of_filter. naive_solver.
  - rewrite tagsToMove_single by lia. done.
Qed.

Lemma possesses_spec new tg :
  possesses apiData new tg ↔ new ∈ r_name <$> allProfs apiData tg.
Proof.
  unfold possesses. rewrite list_elem_of_fmap.
  split.
  - intros (p & Hp & Hn)%Is_true_true%existsb_exists.
    exists p. apply bool_decide_eq_true in Hn.
    split; [done|by apply list_elem_of_In].
  - intros (p & -> & Hp). apply Is_true_true, existsb_exists.
    exists p. split; [by apply list_elem_of_In|by apply bool_decide_eq_true].
Qed.

Lemma dropdownListener_moveTags st old T new :
  new ≠ "" →
  dropdownListener apiData st old T new
  = moveTags st old new
      (filter (λ tg, tg ∉ tagsToMove apiData T new))
      (λ ts, arrayFromSet
               (ts ++ filter (λ tg, ¬ isBlank tg) (tagsToMove apiData T new)))
      (dropdownNewProf apiData (tagsToMove apiData T new) new).
Proof. intros Hn. unfold dropdownListener. by rewrite decide_False. Qed.

Lemma swapListener_moveTags st profName tag old card :
  findHolder st tag = Some (old, card) → profName ≠ old →
  swapListener apiData st profName tag
  = moveTags st old profName (filter (λ tg, tg ≠ tag)) (λ ts, ts ++ [tag])
      (swapNewProf apiData tag profName).
Proof.
  intros Hf Hn. unfold swapListener. rewrite Hf. by rewrite decide_False.
Qed.

(** The swap listener never throws. *)
Lemma swapListener_is_Some st profName tag :
  wf st → is_Some (swapListener apiData st profName tag).
Proof.
  intros Hwf. unfold swapListener.
  destruct (findHolder st tag) as [[old card]|] eqn:Hf; [|eauto].
  case_decide; [eauto|].
  apply moveTags_is_Some.
  apply obj_find_Some in Hf as [Hg _]; [|apply Hwf]. by exists card.
Qed.

Lemma wf_step st t st' : wf st → step apiData st t = Some st' → wf st'.
Proof.
  intros Hwf. destruct t as [profName tag|old T new]; simpl.
  - unfold swapListener.
    destruct (findHolder st tag) as [[old card]|]; [|by intros [= <-]].
    case_decide; [by intros [= <-]|].
    by apply wf_moveTags.
  - destruct (decide (new = "")) as [->|Hn]; [by intros [= <-]|].
    rewrite dropdownListener_moveTags by done. by apply wf_moveTags.
Qed.

Lemma wf_after st t : wf st → wf (after apiData st t).
Proof.
  intros Hwf. unfold after.
  destruct (step apiData st t) eqn:Hs; [by eapply wf_step|done].
Qed.

Lemma wf_run st ts : wf st → wf (run apiData st ts).
Proof.
  revert st. induction ts as [|t ts IH]; intros st Hwf; [done|].
  apply IH. by apply wf_after.
Qed.
End listener_facts.

(** *** The team built by [renderResults] *)

Lemma wf_addTeamProf st e : wf st → wf (addTeamProf st e).
Proof.
  intros [Ho Hk Hm Hn]. unfold addTeamProf.
  destruct (obj_get (profMap st) (name e)) as [p|] eqn:Hp; split; simpl.
  - done.
  - by apply NoDup_obj_keys_set.
  - intros k. rewrite Hm. unfold member. simpl. rewrite obj_get_set.
    case_decide; [subst; rewrite Hp; split; eauto|done].
  - intros k q. rewrite obj_get_set. case_decide; [|apply Hn].
    intros [= <-]. subst. simpl. by apply Hn.
  - apply NoDup_app. split_and!; [done| |apply NoDup_singleton].
    intros x Hx ->%list_elem_of_singleton.
    apply Hm in Hx as [? ?]. congruence.
  - by apply NoDup_obj_keys_set.
  - intros k. rewrite elem_of_app, list_elem_of_singleton, Hm. unfold member.
    simpl. rewrite obj_get_set. case_decide; [subst; split; eauto|naive_solver].
  - intros k q. rewrite obj_get_set. case_decide; [|apply Hn]. congruence.
Qed.

Lemma wf_empty : wf {| profOrder := []; profMap := [] |}.
Proof.
  split; simpl; [constructor|constructor| |done].
  intros n. rewrite elem_of_nil. split; [done|]. by intros [? ?].
Qed.

Lemma wf_foldl_addTeamProf st team : wf st → wf (foldl addTeamProf st team).
Proof.
  revert st. induction team as [|e team IH]; intros st Hwf; [done|].
  apply IH. by apply wf_addTeamProf.
Qed.

Lemma wf_buildTeam team : wf (buildTeam team).
Proof. apply wf_foldl_addTeamProf, wf_empty. Qed.

(** *** What the dropdown listener does to the tags *)

Section dropdown_facts.
Variable apiData : ApiData.
Implicit Types (st : TeamState) (T : list string).

Lemma dropdownListener_is_Some st old T new :
  member st old → is_Some (dropdownListener apiData st old T new).
Proof.
  intros Hm. destruct (decide (new = "")) as [->|Hn]; [by eexists|].
  rewrite dropdownListener_moveTags by done. by apply moveTags_is_Some.
Qed.

Lemma dropdownListener_tagsOf st old T new st' k :
  new ≠ "" → dropdownListener apiData st old T new = Some st' →
  tagsOf st' k
  = (if decide (new = k)
     then λ ts, uniq (ts ++ filter (λ tg, ¬ isBlank tg)
                                   (tagsToMove apiData T new))
     else id)
      ((if decide (old = k)
        then filter (λ tg, tg ∉ tagsToMove apiData T new) else id)
         (tagsOf st k)).
Proof.
  intros Hn. rewrite dropdownListener_moveTags by done. intros Hm.
  rewrite (moveTags_tagsOf _ _ _ _ _ _ _ k Hm) by done.
  case_decide; [|done]. by rewrite arrayFromSet_uniq.
Qed.

Lemma dropdownListener_member st old T new st' k :
  new ≠ "" → dropdownListener apiData st old T new = Some st' →
  member st' k ↔ (k = new ∨ member st k) ∧ (k = old → tagsOf st' old ≠ []).
Proof.
  intros Hn. rewrite dropdownListener_moveTags by done. intros Hm.
  by apply (moveTags_member _ _ _ _ _ _ _ k Hm).
Qed.

End dropdown_facts.

(** *** What the swap listener does *)

Lemma uniq_nil {A} `{EqDecision A} (l : list A) : uniq l = [] → l = [].
Proof. by destruct l. Qed.

Lemma nonEmptyMembers_spec st :
  wf st → nonEmptyMembers st ↔ ∀ k, member st k → tagsOf st k ≠ [].
Proof.
  intros Hwf. unfold nonEmptyMembers, member, tagsOf.
  rewrite Forall_forall. split.
  - intros Hall k [p Hp]. rewrite Hp. simpl.
    apply (Hall (k, p)). apply elem_of_obj_entries; [apply Hwf|done].
  - intros Hall [k p] Hin. apply elem_of_obj_entries in Hin; [|apply Hwf].
    specialize (Hall k). rewrite Hin in Hall. apply Hall. eauto.
Qed.

Section swap_facts.
Variable apiData : ApiData.
Implicit Types (st : TeamState).

Lemma swapListener_cases st profName tag st' :
  swapListener apiData st profName tag = Some st' →
  st' = st
  ∨ ∃ old card,
      findHolder st tag = Some (old, card) ∧ profName ≠ old
      ∧ moveTags st old profName (filter (λ tg, tg ≠ tag)) (λ ts, ts ++ [tag])
          (swapNewProf apiData tag profName) = Some st'.
Proof.
  unfold swapListener.
  destruct (findHolder st tag) as [[old card]|] eqn:Hf;
    [|intros [= <-]; by left].
  case_decide; [intros [= <-]; by left|].
  intros Hm. right. by exists old, card.
Qed.

Lemma findHolder_Some st tag old card :
  wf st → findHolder st tag = Some (old, card) →
  obj_get (profMap st) old = Some card ∧ tag ∈ tags card.
Proof.
  intros Hwf Hf. apply obj_find_Some in Hf as [Hg Hin]; [|apply Hwf].
  split; [done|]. by apply bool_decide_unpack in Hin.
Qed.

Lemma findHolder_None st tag k :
  findHolder st tag = None → tag ∉ tagsOf st k.
Proof.
  intros Hf. unfold tagsOf.
  destruct (obj_get (profMap st) k) as [p|] eqn:Hp; [|apply not_elem_of_nil].
  intros Hin. apply (obj_find_None _ _ _ _ Hf Hp). simpl.
  by apply bool_decide_pack.
Qed.

Lemma findHolder_is_Some st tag k :
  tag ∈ tagsOf st k → is_Some (findHolder st tag).
Proof.
  intros Hin. destruct (findHolder st tag) eqn:Hf; [eauto|].
  by apply (findHolder_None _ _ k) in Hf.
Qed.
End swap_facts.

(** *** Moves seen as sets of tags *)

(** When [f1] takes the tags [M] away and [f2] adds the tags [F], a tag is
    under [k] afterwards iff it was and has not been taken, or [k] is the
    destination and the tag one of those added. *)
Lemma moveTags_elem st old new f1 f2 fresh st' (M F : list string) k tg :
  moveTags st old new f1 f2 fresh = Some st' → tags fresh = [] →
  (∀ ts x, x ∈ f1 ts ↔ x ∈ ts ∧ x ∉ M) →
  (∀ ts x, x ∈ f2 ts ↔ x ∈ ts ∨ x ∈ F) →
  tg ∈ tagsOf st' k
  ↔ (tg ∈ tagsOf st k ∧ ¬ (old = k ∧ tg ∈ M)) ∨ (new = k ∧ tg ∈ F).
Proof.
  intros Hm Hfresh Hf1 Hf2.
  rewrite (moveTags_tagsOf _ _ _ _ _ _ _ k Hm Hfresh).
  repeat case_decide; simpl; rewrite ?Hf2, ?Hf1; naive_solver.
Qed.

Lemma uniqueHolders_moveTags st old new f1 f2 fresh st' (M F : list string) :
  uniqueHolders st →
  moveTags st old new f1 f2 fresh = Some st' → tags fresh = [] →
  (∀ ts x, x ∈ f1 ts ↔ x ∈ ts ∧ x ∉ M) →
  (∀ ts x, x ∈ f2 ts ↔ x ∈ ts ∨ x ∈ F) →
  (∀ x, x ∈ F → x ∈ M) → (∀ x, x ∈ M → x ∈ tagsOf st old) →
  uniqueHolders st'.
Proof.
  intros Hu Hm Hfresh Hf1 Hf2 HFM HM k1 k2 tg.
  rewrite !(moveTags_elem _ _ _ _ _ _ _ M F _ _ Hm Hfresh Hf1 Hf2).
  intros [[H1 N1]|[<- H1]] [[H2 N2]|[<- H2]]; [by eapply Hu| | |done].
  - exfalso. apply N1. split; [|by apply HFM].
    apply (Hu _ _ tg); [apply HM, HFM, H2|done].
  - exfalso. apply N2. split; [|by apply HFM].
    apply (Hu _ _ tg); [apply HM, HFM, H1|done].
Qed.

Lemma elem_of_filter_ne (ts : list string) tag x :
  x ∈ filter (λ tg, tg ≠ tag) ts ↔ x ∈ ts ∧ x ∉ [tag].
Proof. rewrite list_elem_of_filter, list_elem_of_singleton. naive_solver. Qed.

Lemma elem_of_snoc (ts : list string) tag x :
  x ∈ ts ++ [tag] ↔ x ∈ ts ∨ x ∈ [tag].
Proof. by rewrite elem_of_app. Qed.

Lemma elem_of_filter_not_elem (ts M : list string) x :
  x ∈ filter (λ tg, tg ∉ M) ts ↔ x ∈ ts ∧ x ∉ M.
Proof. rewrite list_elem_of_filter. naive_solver. Qed.

Lemma elem_of_arrayFromSet_app (ts F : list string) x :
  x ∈ arrayFromSet (ts ++ F) ↔ x ∈ ts ∨ x ∈ F.
Proof. by rewrite arrayFromSet_uniq, elem_of_uniq, elem_of_app. Qed.

Section unique_holders.
Variable apiData : ApiData.
Implicit Types (st : TeamState).

Lemma uniqueHolders_swapListener st profName tag st' :
  wf st → uniqueHolders st →
  swapListener apiData st profName tag = Some st' → uniqueHolders st'.
Proof.
  intros Hwf Hu [->|(old & card & Hf & Hno & Hm)]%swapListener_cases; [done|].
  apply findHolder_Some in Hf as [Hg Hin]; [|done].
  eapply (uniqueHolders_moveTags _ _ _ _ _ _ _ [tag] [tag]); try done.
  - intros ts x. apply elem_of_filter_ne.
  - intros ts x. apply elem_of_snoc.
  - intros x ->%list_elem_of_singleton. unfold tagsOf. by rewrite Hg.
Qed.

Lemma uniqueHolders_dropdownListener st old T new st' :
  uniqueHolders st → (∀ tg, tg ∈ T → tg ∈ tagsOf st old) →
  dropdownListener apiData st old T new = Some st' → uniqueHolders st'.
Proof.
  intros Hu HT. destruct (decide (new = "")) as [->|Hn]; [by intros [= <-]|].
  rewrite dropdownListener_moveTags by done. intros Hm.
  eapply (uniqueHolders_moveTags _ _ _ _ _ _ _
            (tagsToMove apiData T new)
            (filter (λ tg, ¬ isBlank tg) (tagsToMove apiData T new)));
    try done.
  - intros ts x. apply elem_of_filter_not_elem.
  - intros ts x. apply elem_of_arrayFromSet_app.
  - intros x. rewrite list_elem_of_filter. naive_solver.
  - intros x Hx. by apply HT, (tagsToMove_subseteq apiData T new).
Qed.

(** A rendered select carries the name and the tags of a member. *)
Lemma fired_dropdown st old T new :
  wf st → fired apiData st (DropdownChange old T new) →
  member st old ∧ T = tagsOf st old.
Proof.
  intros Hwf [(sel & Hsel & <- & <- & _)%Exists_exists _].
  unfold renderTeamCards in Hsel.
  apply list_elem_of_omap in Hsel as (n & Hn & Hr).
  destruct (obj_get (profMap st) n) as [p|] eqn:Hp; [|done]. simpl in Hr.
  unfold renderSelect in Hr. destruct (tags p) eqn:Htags; [done|].
  injection Hr as <-. simpl.
  rewrite (wf_name _ Hwf _ _ Hp). unfold member, tagsOf. rewrite Hp.
  split; [eauto|by rewrite <- Htags].
Qed.

Lemma fired_sourceHolds st t :
  wf st → fired apiData st t → sourceHolds st t.
Proof.
  intros Hwf Hf. destruct t as [profName tag|old T new]; simpl; [done|].
  apply fired_dropdown in Hf as [_ ->]; [|done]. by apply Forall_forall.
Qed.

Lemma firedRun_sourceHoldsRun st ts :
  wf st → firedRun apiData st ts → sourceHoldsRun apiData st ts.
Proof.
  revert st. induction ts as [|t ts IH]; intros st Hwf; [done|].
  intros [Hf Hr]. split; [by apply fired_sourceHolds|].
  apply IH; [by apply wf_after|done].
Qed.

Lemma uniqueHolders_after st t :
  wf st → uniqueHolders st → sourceHolds st t →
  uniqueHolders (after apiData st t).
Proof.
  intros Hwf Hu Hh. unfold after.
  destruct (step apiData st t) as [st'|] eqn:Hs; [|done]. simpl.
  destruct t as [profName tag|old T new]; simpl in Hs, Hh.
  - by eapply uniqueHolders_swapListener.
  - rewrite Forall_forall in Hh. by eapply uniqueHolders_dropdownListener.
Qed.

Lemma uniqueHolders_run st ts :
  wf st → uniqueHolders st → sourceHoldsRun apiData st ts →
  uniqueHolders (run apiData st ts).
Proof.
  revert st. induction ts as [|t ts IH]; intros st Hwf Hu Hh; [done|].
  destruct Hh as [Hht Hhr]. simpl.
  apply IH; [|by apply uniqueHolders_after|done].
  by apply wf_after.
Qed.
End unique_holders.

Lemma elem_of_tagsOf_addTeamProf st e k tg :
  tg ∈ tagsOf (addTeamProf st e) k
  ↔ tg ∈ tagsOf st k ∨ (name e = k ∧ tg ∈ tags e).
Proof.
  unfold addTeamProf, tagsOf.
  destruct (obj_get (profMap st) (name e)) as [p|] eqn:Hp; simpl;
    rewrite obj_get_set; case_decide; subst; rewrite ?Hp; simpl;
    rewrite ?elem_of_app; try naive_solver.
  rewrite elem_of_nil. naive_solver.
Qed.

Lemma elem_of_tagsOf_foldl_addTeamProf st team k tg :
  tg ∈ tagsOf (foldl addTeamProf st team) k
  ↔ tg ∈ tagsOf st k ∨ ∃ e, e ∈ team ∧ name e = k ∧ tg ∈ tags e.
Proof.
  revert st. induction team as [|e team IH]; intros st; simpl.
  - split; [by left|]. intros [?|(e & []%elem_of_nil & _)]. done.
  - rewrite IH, elem_of_tagsOf_addTeamProf. setoid_rewrite elem_of_cons.
    naive_solver.
Qed.

Lemma uniqueHolders_buildTeam team :
  disjointTeam team → uniqueHolders (buildTeam team).
Proof.
  intros Hd k1 k2 tg. unfold buildTeam.
  rewrite !elem_of_tagsOf_foldl_addTeamProf. unfold tagsOf. simpl.
  rewrite elem_of_nil.
  intros [[]|(e1 & He1 & <- & Ht1)] [[]|(e2 & He2 & <- & Ht2)].
  unfold disjointTeam in Hd. rewrite Forall_forall in Hd.
  specialize (Hd e1 He1). rewrite Forall_forall in Hd.
  destruct (Hd e2 He2) as [?|Hdis]; [done|].
  rewrite Forall_forall in Hdis. by destruct (Hdis tg Ht1).
Qed.

(** *** One tag from a source to a destination *)

Lemma filter_around (P : string → Prop) `{!∀ x, Decision (P x)}
    (l1 l2 : list string) (a b : string) :
  (∀ x, x ∈ l1 → P x) → (∀ x, x ∈ l2 → P x) → P b →
  filter P (l1 ++ a :: b :: l2)
  = l1 ++ (if decide (P a) then [a] else []) ++ b :: l2.
Proof.
  intros H1 H2 Hb. rewrite filter_app, (filter_all l1) by done. f_equal.
  rewrite filter_cons, (filter_cons_True _ b), (filter_all l2) by done.
  by case_decide.
Qed.

Lemma moveTags_single st source dest f1 f2 fresh st' tag :
  wf st → source ≠ dest →
  moveTags st source dest f1 f2 fresh = Some st' → tags fresh = [] →
  (∀ ts x, x ∈ f1 ts ↔ x ∈ ts ∧ x ∉ [tag]) →
  (∀ ts x, x ∈ f2 ts ↔ x ∈ ts ∨ x ∈ [tag]) →
  (∀ tg, tg ∈ tagsOf st' source ↔ tg ∈ tagsOf st source ∧ tg ≠ tag)
  ∧ (∀ tg, tg ∈ tagsOf st' dest ↔ tg ∈ tagsOf st dest ∨ tg = tag)
  ∧ (∀ k, k ≠ source → k ≠ dest →
          obj_get (profMap st') k = obj_get (profMap st) k)
  ∧ member st' dest
  ∧ (member st' source ↔ tagsOf st' source ≠ [])
  ∧ (member st dest →
     profOrder st'
     = filter (λ k, k = source → tagsOf st' source ≠ []) (profOrder st))
  ∧ (¬ member st dest →
     ∃ l1 l2, profOrder st = l1 ++ source :: l2
              ∧ profOrder st'
                = l1 ++ (if decide (tagsOf st' source = []) then []
                         else [source]) ++ dest :: l2).
Proof.
  intros Hwf Hne Hm Hfresh Hf1 Hf2.
  pose proof (λ k tg, moveTags_elem _ _ _ _ _ _ _ [tag] [tag] k tg
                        Hm Hfresh Hf1 Hf2) as He.
  pose proof (λ k, moveTags_member _ _ _ _ _ _ _ k Hm Hfresh) as Hmem.
  pose proof (moveTags_member_old _ _ _ _ _ _ _ Hm) as Hsrc.
  pose proof (moveTags_order _ _ _ _ _ _ _ Hwf Hm Hfresh) as Hord.
  split_and!.
  - intros tg. rewrite He, list_elem_of_singleton. naive_solver.
  - intros tg. rewrite He, list_elem_of_singleton. naive_solver.
  - intros k Hk1 Hk2. by apply (moveTags_other _ _ _ _ _ _ _ _ Hm).
  - apply Hmem. naive_solver.
  - rewrite Hmem. naive_solver.
  - intros [q Hq]. rewrite Hord. unfold movedOrder. by rewrite Hq.
  - intros Hnm. rewrite Hord. unfold movedOrder.
    destruct (obj_get (profMap st) dest) as [q|] eqn:Hq;
      [destruct Hnm; by exists q|].
    assert (source ∈ profOrder st) as Hin by by apply (wf_member _ Hwf).
    destruct (splice0_indexAfter (profOrder st) source dest Hin)
      as (l1 & l2 & Heq & Hl1 & ->).
    exists l1, l2. split; [done|].
    pose proof (wf_order _ Hwf) as Hnd. rewrite Heq in Hnd.
    apply NoDup_app in Hnd as (_ & Hl12 & [Hl2 _]%NoDup_cons).
    rewrite filter_around.
    + repeat case_decide; naive_solver.
    + intros x Hx ->. done.
    + intros x Hx ->. done.
    + intros ->. done.
Qed.

(** *** Asking twice *)




Section twice.
Variable apiData : ApiData.
Implicit Types (st : TeamState).


End twice.

(** *** The order of the team *)





(** *** What the dropdown offers *)

Lemma elem_of_sort_insert {A} (cmp : A → A → comparison) (x y : A) l :
  y ∈ sort_insert cmp x l ↔ y = x ∨ y ∈ l.
Proof.
  induction l as [|z l IH]; simpl.
  - rewrite list_elem_of_singleton, elem_of_nil. naive_solver.
  - destruct (cmp x z); rewrite !elem_of_cons, ?IH; naive_solver.
Qed.

Lemma elem_of_js_sort {A} (cmp : A → A → comparison) (y : A) l :
  y ∈ js_sort cmp l ↔ y ∈ l.
Proof.
  unfold js_sort. induction l as [|x l IH]; simpl; [done|].
  by rewrite elem_of_sort_insert, elem_of_cons, IH.
Qed.

Lemma elem_of_keys_countProf pc n k :
  k ∈ obj_keys (countProf pc n) ↔ k = n ∨ k ∈ obj_keys pc.
Proof.
  unfold countProf. rewrite obj_keys_set.
  destruct (obj_get pc n) eqn:Hg.
  - split; [by right|]. intros [->|?]; [|done].
    apply elem_of_obj_keys. eauto.
  - rewrite elem_of_app, list_elem_of_singleton. naive_solver.
Qed.

Section offers.
Variable apiData : ApiData.
Implicit Types (st : TeamState) (T : list string).

Lemma keys_count_others (self : string) (profs : list RosterProf) pc k :
  k ∈ obj_keys
        (foldl (λ pc p, if decide (r_name p ≠ self)
                        then countProf pc (r_name p) else pc) pc profs)
  ↔ k ∈ obj_keys pc ∨ (k ≠ self ∧ k ∈ r_name <$> profs).
Proof.
  revert pc. induction profs as [|p profs IH]; intros pc; csimpl.
  - rewrite elem_of_nil. naive_solver.
  - rewrite IH, elem_of_cons. case_decide.
    + rewrite elem_of_keys_countProf. naive_solver.
    + naive_solver.
Qed.

Lemma keys_count_tags (self : string) T pc k :
  k ∈ obj_keys
        (foldl (λ profCount tag,
                  foldl (λ pc p, if decide (r_name p ≠ self)
                                 then countProf pc (r_name p) else pc)
                        profCount (allProfs apiData tag)) pc T)
  ↔ k ∈ obj_keys pc
    ∨ (k ≠ self ∧ ∃ tg, tg ∈ T ∧ possesses apiData k tg).
Proof.
  revert pc. induction T as [|tag T IH]; intros pc; simpl.
  - split; [by left|]. intros [?|(_ & tg & []%elem_of_nil & _)]. done.
  - rewrite IH, keys_count_others. setoid_rewrite elem_of_cons.
    setoid_rewrite possesses_spec. naive_solver.
Qed.

(** The dropdown of a card lists only other experts, each of whom the
    roster has for at least one tag of the card. *)
Lemma profsForDropdown_possesses teamProf new :
  new ∈ (profsForDropdown apiData teamProf).*1 →
  new ≠ name teamProf ∧ ∃ tg, tg ∈ tags teamProf ∧ possesses apiData new tg.
Proof.
  unfold profsForDropdown. intros ([k c] & -> & Hin)%list_elem_of_fmap.
  apply elem_of_js_sort in Hin. simpl.
  assert (k ∈ obj_keys
            (foldl (λ profCount tag,
                      foldl (λ pc p, if decide (r_name p ≠ name teamProf)
                                     then countProf pc (r_name p) else pc)
                            profCount (allProfs apiData tag))
                   [] (tags teamProf))) as Hk.
  { unfold obj_keys. apply list_elem_of_fmap. by exists (k, c). }
  apply keys_count_tags in Hk as [[]%elem_of_nil|Hk]. done.
Qed.

Lemma fired_dropdown_shares st old T new :
  wf st → fired apiData st (DropdownChange old T new) → new ≠ "" →
  new ≠ old ∧ ∃ tg, tg ∈ T ∧ possesses apiData new tg.
Proof.
  intros Hwf [(sel & Hsel & <- & <- & Hopt)%Exists_exists _] Hn.
  unfold renderTeamCards in Hsel.
  apply list_elem_of_omap in Hsel as (n & _ & Hr).
  destruct (obj_get (profMap st) n) as [p|]; [|done]. simpl in Hr.
  unfold renderSelect in Hr. destruct (tags p) eqn:Htags; [done|].
  injection Hr as <-. simpl in *. rewrite <- Htags.
  apply elem_of_cons in Hopt as [?|Hopt]; [done|].
  by apply profsForDropdown_possesses.
Qed.

(** A choice in a rendered dropdown whose card has no blank tag gives the
    destination a tag. *)
Lemma fired_givesTag st old T new :
  wf st → fired apiData st (DropdownChange old T new) → new ≠ "" →
  Forall (λ tg, ¬ isBlank tg) T →
  givesTag apiData st (DropdownChange old T new).
Proof.
  intros Hwf Hf Hn Hnb. right.
  destruct (fired_dropdown_shares st old T new Hwf Hf Hn)
    as (_ & tg & Htg & Hposs).
  rewrite Forall_forall in Hnb.
  assert (tg ∈ tagsToMove apiData T new) as Hin.
  { destruct (decide (1 < length T)) as [HT|HT].
    - rewrite tagsToMove_multi by done. apply list_elem_of_filter.
      naive_solver.
    - rewrite tagsToMove_single by lia. done. }
  intros Hnil.
  assert (tg ∈ filter (λ tg, ¬ isBlank tg) (tagsToMove apiData T new)) as Hx
    by (apply list_elem_of_filter; naive_solver).
  rewrite Hnil in Hx. by apply elem_of_nil in Hx.
Qed.
End offers.

(** *** Sorting, on small lists *)

Example sortResults_relevance :
  fmap (M := list) name
    <$> sortResults (λ _ _, Eq)
          [{| name := "Ann"; department := ""; base_url := "";
              position := ""; google_scholar_url := "";
              score := Some 40%Q; tags := ["ml"] |};
           {| name := "Bob"; department := ""; base_url := "";
              position := ""; google_scholar_url := "";
              score := Some 90%Q; tags := ["db"] |};
           {| name := "Cid"; department := ""; base_url := "";
              position := ""; google_scholar_url := "";
              score := Some 40%Q; tags := ["nlp"] |}]
          relevance
  = Some ["Bob"; "Ann"; "Cid"].
Proof. by vm_compute. Qed.

(** White space of [trim] that is not ASCII: a no-break space is blank, a
    line separator (U+2028) is, a zero-width space (U+200B) is not. *)
Example isBlank_not_ascii :
  isBlank noBreakSpace = true
  ∧ isBlank (String (Ascii.ascii_of_N 226)
               (String (Ascii.ascii_of_N 128)
                  (String (Ascii.ascii_of_N 168) ""))) = true
  ∧ isBlank (String (Ascii.ascii_of_N 226)
               (String (Ascii.ascii_of_N 128)
                  (String (Ascii.ascii_of_N 139) ""))) = false
  ∧ trim (" " +:+ noBreakSpace +:+ "deep learning" +:+ noBreakSpace)
    = "deep learning".
Proof. by vm_compute. Qed.

Example rankIndividuals_ties :
  i_name <$> rankIndividuals
               [individualProf "Cid" 70; individualProf "Bob" 85;
                individualProf "Ann" 70; individualProf "Dan" (171 # 2)]
  = ["Dan"; "Bob"; "Ann"; "Cid"].
Proof. by vm_compute. Qed.

(** *** The ranking *)

Lemma rankedBefore_spec a b :
  rankedBefore a b
  ↔ (rank_score b < rank_score a)%Q
    ∨ ((rank_score a == rank_score b)%Q
       ∧ (i_name a = i_name b ∨ String_as_OT.lt (i_name a) (i_name b))).
Proof.
  unfold rankedBefore.
  destruct (rank_score b ?= rank_score a)%Q eqn:Hc.
  - apply Qeq_alt in Hc.
    assert (¬ (rank_score b < rank_score a)%Q) as Hnlt
      by (rewrite Hc; apply Qlt_irrefl).
    destruct (String_as_OT.compare_spec (i_name a) (i_name b)) as [He|Hl|Hg].
    + split; [|done]. intros _. right. split; [by symmetry|by left].
    + split; [|done]. intros _. right. split; [by symmetry|by right].
    + split; [done|]. intros [?|[_ [He|Hl]]]; [done| |].
      * rewrite He in Hg. by apply (irreflexivity String_as_OT.lt) in Hg.
      * exfalso. apply (irreflexivity String_as_OT.lt (i_name a)).
        by transitivity (i_name b).
  - apply Qlt_alt in Hc. split; [by left|done].
  - apply Qgt_alt in Hc. split; [done|].
    intros [Hl|[He _]].
    + by apply (Qlt_irrefl (rank_score a)), (Qlt_trans _ (rank_score b)).
    + rewrite He in Hc. by apply Qlt_irrefl in Hc.
Qed.

Lemma rankedBefore_total : Total rankedBefore.
Proof.
  intros a b. rewrite !rankedBefore_spec.
  destruct (Q_dec (rank_score a) (rank_score b)) as [[Hl|Hg]|He];
    [by right; left|by left; left|].
  destruct (String_as_OT.compare_spec (i_name a) (i_name b)) as [Hn|Hn|Hn].
  - left. right. split; [done|by left].
  - left. right. split; [done|by right].
  - right. right. split; [by symmetry|by right].
Qed.

Lemma rankedBefore_trans : Transitive rankedBefore.
Proof.
  intros a b c. rewrite !rankedBefore_spec.
  intros [Hab|[Eab Nab]] [Hbc|[Ebc Nbc]].
  - left. by apply (Qlt_trans _ (rank_score b)).
  - left. by rewrite <- Ebc.
  - left. by rewrite Eab.
  - right. split; [by rewrite Eab|].
    destruct Nab as [->|Lab], Nbc as [<-|Lbc]; eauto.
    right. by transitivity (i_name b).
Qed.

Lemma StronglySorted_lookup {A} (R : relation A) (l : list A) i j a b :
  StronglySorted R l → i < j → l !! i = Some a → l !! j = Some b → R a b.
Proof.
  intros Hs. revert i j.
  induction Hs as [|x l Hs IH Hall]; intros i j Hij Hi Hj; [done|].
  destruct j as [|j]; [lia|]. simpl in Hj.
  destruct i as [|i]; simpl in Hi.
  - injection Hi as <-. rewrite Forall_forall in Hall.
    apply Hall. by eapply list_elem_of_lookup_2.
  - apply (IH i j); [lia|done..].
Qed.

Lemma card_prof_renderIndividualResults professors :
  card_prof <$> renderIndividualResults professors = professors.
Proof.
  unfold renderIndividualResults. rewrite fmap_imap.
  induction professors as [|x l IH] using rev_ind; [done|].
  rewrite imap_app. simpl. by rewrite IH.
Qed.

(** *** Requests, errors and repeated requests *)

Section requests.
Variable apiData : ApiData.
Implicit Types (st : TeamState) (T : list string).

Lemma findHolder_member st tag old card :
  findHolder st tag = Some (old, card) → member st old.
Proof.
  intros Hf. apply find_some in Hf as [Hin _].
  apply elem_of_obj_keys, list_elem_of_fmap. exists (old, card).
  split; [done|]. by apply list_elem_of_In.
Qed.


(** A request that goes through leaves the team as it is, or is one
    passage through the common statements of the listeners: the tags [M]
    are taken from the source and the tags [F] given to the destination. *)
Lemma step_cases st t st' :
  step apiData st t = Some st' →
  st' = st
  ∨ ∃ old new f1 f2 fresh (M F : list string),
      moveTags st old new f1 f2 fresh = Some st'
      ∧ tags fresh = [] ∧ name fresh = new
      ∧ (∀ ts x, x ∈ f1 ts ↔ x ∈ ts ∧ x ∉ M)
      ∧ (∀ ts x, x ∈ f2 ts ↔ x ∈ ts ∨ x ∈ F)
      ∧ (∀ x, x ∈ F → x ∈ M)
      ∧ (∀ x, x ∈ M → ¬ isBlank x → x ∈ F)
      ∧ match t with
        | SwapIcon profName tag =>
            new = profName ∧ new ≠ old ∧ M = [tag]
            ∧ ∃ card, findHolder st tag = Some (old, card)
        | DropdownChange oldProfName tagsOfOldProf newProfName =>
            old = oldProfName ∧ new = newProfName ∧ newProfName ≠ ""
            ∧ M = tagsToMove apiData tagsOfOldProf newProfName
        end.
Proof.
  destruct t as [profName tag|old T new]; simpl.
  - intros [->|(old & card & Hf & Hno & Hm)]%swapListener_cases; [by left|].
    right.
    exists old, profName, (filter (λ tg, tg ≠ tag)), (λ ts, ts ++ [tag]),
      (swapNewProf apiData tag profName), [tag], [tag].
    split_and!; try done.
    + intros ts x. apply elem_of_filter_ne.
    + intros ts x. apply elem_of_snoc.
    + by exists card.
  - destruct (decide (new = "")) as [->|Hn]; [intros [= <-]; by left|].
    rewrite dropdownListener_moveTags by done. intros Hm. right.
    exists old, new, (filter (λ tg, tg ∉ tagsToMove apiData T new)),
      (λ ts, arrayFromSet
               (ts ++ filter (λ tg, ¬ isBlank tg) (tagsToMove apiData T new))),
      (dropdownNewProf apiData (tagsToMove apiData T new) new),
      (tagsToMove apiData T new),
      (filter (λ tg, ¬ isBlank tg) (tagsToMove apiData T new)).
    split_and!; try done.
    + intros ts x. apply elem_of_filter_not_elem.
    + intros ts x. apply elem_of_arrayFromSet_app.
    + intros x. rewrite list_elem_of_filter. naive_solver.
    + intros x Hx Hb. by apply list_elem_of_filter.
Qed.

Lemma after_cases st t :
  after apiData st t = st
  ∨ step apiData st t = Some (after apiData st t).
Proof.
  unfold after. destruct (step apiData st t); simpl; [by right|by left].
Qed.

(** The one uncaught error: the dropdown listener, for a chosen name, on a
    source that is not a property of [profMap]. *)
Lemma step_None st t :
  step apiData st t = None
  ↔ ∃ oldProfName tagsOfOldProf newProfName,
      t = DropdownChange oldProfName tagsOfOldProf newProfName
      ∧ newProfName ≠ "" ∧ ¬ member st oldProfName.
Proof.
  destruct t as [profName tag|old T new]; simpl.
  - split; [|by intros (? & ? & ? & ? & _)].
    intros Hnone. exfalso.
    unfold swapListener in Hnone.
    destruct (findHolder st tag) as [[old card]|] eqn:Hf; [|done].
    destruct (decide (profName = old)) as [->|Hne]; [done|].
    pose proof (findHolder_member _ _ _ _ Hf) as Hold.
    destruct (moveTags_is_Some st old profName (filter (λ tg, tg ≠ tag))
                (λ ts, ts ++ [tag]) (swapNewProf apiData tag profName) Hold)
      as [st' Hm].
    rewrite <- (swapListener_moveTags apiData st profName tag old card Hf Hne)
      in Hm.
    unfold swapListener in Hm. rewrite Hf, decide_False in Hm by done.
    by rewrite Hm in Hnone.
  - destruct (decide (new = "")) as [->|Hn].
    + unfold dropdownListener. rewrite decide_True by done.
      split; [done|]. by intros (? & ? & ? & [= _ _ <-] & ? & _).
    + rewrite dropdownListener_moveTags by done. split.
      * intros Hnone. exists old, T, new. split_and!; [done..|].
        intros Hold. eapply moveTags_is_Some in Hold as [st' Hm].
        by rewrite Hm in Hnone.
      * intros (? & ? & ? & [= <- <- <-] & _ & Hold).
        destruct (moveTags _ _ _ _ _ _) as [st'|] eqn:Hm; [|done].
        by apply moveTags_member_old in Hm.
Qed.




End requests.

(** *** The TeamAssignment and the order of the properties *)











(** * The claims *)



(** C2, as the code has it.  After a reassignment (swap icon or dropdown)
    of a team without tagless member, nobody without a tag is left in the
    team, neither among the properties of [profMap] nor in [profOrder],
    provided the request gives the destination something: the destination
    was already in the team, or at least one non-blank tag is moved.  In
    particular a source left without tags is removed from both. *)
Theorem C2_members_keep_a_tag apiData st t st' :
  wf st → nonEmptyMembers st → givesTag apiData st t →
  step apiData st t = Some st' →
  nonEmptyMembers st'
  ∧ Forall (λ n, member st' n ∧ tagsOf st' n ≠ []) (profOrder st')
  ∧ ∀ n, member st n → tagsOf st' n = [] →
         ¬ member st' n ∧ n ∉ profOrder st'.
Proof.
  intros Hwf Hne Hgive Hstep.
  pose proof (wf_step _ _ _ _ Hwf Hstep) as Hwf'.
  assert (nonEmptyMembers st') as Hne'.
  { rewrite nonEmptyMembers_spec in Hne |- * by done.
    intros k Hk. destruct t as [profName tag|old T new]; simpl in *.
    - apply swapListener_cases in Hstep as [->|(old & card & Hf & Hno & Hm)];
        [by apply Hne|].
      apply (moveTags_member _ _ _ _ _ _ _ k Hm eq_refl) in Hk as [Hk Hold].
      rewrite (moveTags_tagsOf _ _ _ _ _ _ _ k Hm eq_refl).
      destruct (decide (profName = k)) as [->|Hnk].
      + by destruct (if decide (old = k) then _ else _).
      + destruct (decide (old = k)) as [->|Hok].
        * rewrite (moveTags_tagsOf _ _ _ _ _ _ _ k Hm eq_refl) in Hold.
          rewrite decide_False, decide_True in Hold by done. by apply Hold.
        * apply Hne. naive_solver.
    - destruct (decide (new = "")) as [->|Hn];
        [injection Hstep as <-; by apply Hne|].
      apply (dropdownListener_member _ _ _ _ _ _ k Hn Hstep) in Hk as [Hk Hold].
      destruct (decide (old = k)) as [->|Hok]; [by apply Hold|].
      rewrite (dropdownListener_tagsOf _ _ _ _ _ _ k Hn Hstep).
      rewrite (decide_False (P := old = k)) by done.
      destruct (decide (new = k)) as [->|Hnk]; simpl;
        [|apply Hne; naive_solver].
      intros [Hnil HFnil]%uniq_nil%app_eq_nil.
      destruct Hgive as [Hmem|HF]; [by apply (Hne k Hmem)|done]. }
  pose proof (proj1 (nonEmptyMembers_spec st' Hwf') Hne') as Htags.
  split_and!; [done| |].
  - apply Forall_forall. intros n Hn. apply (wf_member _ Hwf') in Hn.
    split; [done|by apply Htags].
  - intros n _ Hnil.
    assert (¬ member st' n) as Hout by (intros Hn; by apply (Htags n)).
    split; [done|]. by rewrite (wf_member _ Hwf').
Qed.

Lemma C2_witness :
  wf (buildTeam (team apiOneTag))
  ∧ nonEmptyMembers (buildTeam (team apiOneTag))
  ∧ givesTag apiOneTag (buildTeam (team apiOneTag))
      (DropdownChange "Ann" ["ml"] "Bob")
  ∧ step apiOneTag (buildTeam (team apiOneTag))
      (DropdownChange "Ann" ["ml"] "Bob")
    = Some {| profOrder := ["Bob"];
              profMap := [("Bob", teamProf "Bob" ["ml"])] |}
  ∧ nonEmptyMembers {| profOrder := ["Bob"];
                       profMap := [("Bob", teamProf "Bob" ["ml"])] |}
  ∧ "Ann" ∉ ["Bob"].
Proof.
  assert (wf (buildTeam (team apiOneTag))) as Hwf by apply wf_buildTeam.
  assert (nonEmptyMembers (buildTeam (team apiOneTag))) as Hne
    by (apply (bool_decide_unpack _); by vm_compute).
  assert (givesTag apiOneTag (buildTeam (team apiOneTag))
            (DropdownChange "Ann" ["ml"] "Bob")) as Hg
    by (right; by vm_compute).
  assert (step apiOneTag (buildTeam (team apiOneTag))
            (DropdownChange "Ann" ["ml"] "Bob")
          = Some {| profOrder := ["Bob"];
                    profMap := [("Bob", teamProf "Bob" ["ml"])] |}) as Hs
    by (by vm_compute).
  assert (member (buildTeam (team apiOneTag)) "Ann") as Hann
    by (apply (bool_decide_unpack _); by vm_compute).
  split_and!; [exact Hwf|exact Hne|exact Hg|exact Hs| |].
  - exact (proj1 (C2_members_keep_a_tag apiOneTag _ _ _ Hwf Hne Hg Hs)).
  - exact (proj2 (proj2 (proj2 (C2_members_keep_a_tag apiOneTag _ _ _
                                  Hwf Hne Hg Hs)) "Ann" Hann eq_refl)).
Defined.

(** C2 as stated fails for a destination that joins the team and is given
    nothing: Ann's only tag is blank and Bob, whom the roster lists for
    it, is chosen in her dropdown; Ann is removed and Bob stays without a
    tag, in [profMap] and in [profOrder]. *)
Lemma C2_counterexample :
  nonEmptyMembers (buildTeam (team apiOnlyBlank))
  ∧ fired apiOnlyBlank (buildTeam (team apiOnlyBlank))
      (DropdownChange "Ann" [" "] "Bob")
  ∧ ∃ st', step apiOnlyBlank (buildTeam (team apiOnlyBlank))
             (DropdownChange "Ann" [" "] "Bob") = Some st'
           ∧ profOrder st' = ["Bob"]
           ∧ member st' "Bob" ∧ tagsOf st' "Bob" = []
           ∧ ¬ nonEmptyMembers st'.
Proof.
  split; [apply (bool_decide_unpack _); by vm_compute|].
  split; [apply (bool_decide_unpack _); by vm_compute|].
  eexists. split; [by vm_compute|].
  split_and!; [done|by eexists|done|].
  apply (bool_decide_eq_false_1 _). by vm_compute.
Qed.

(** C3, as the code has it.  The source [old] holds [tags p] and the
    dropdown moves to another expert [new].  With more than one tag on the
    card, the tags moved are exactly the non-blank tags of the card that
    the roster lists [new] for: they are added to the tags of [new] and
    nothing else leaves [old].  When exactly one tag [t] is shared in this
    sense, exactly [t] is moved, whatever the number of tags on the
    card. *)
Theorem C3_shared_tags_move apiData st old p new :
  new ≠ "" → new ≠ old → obj_get (profMap st) old = Some p →
  let shared tg := tg ∈ tags p ∧ ¬ isBlank tg ∧ possesses apiData new tg in
  ∃ st', dropdownListener apiData st old (tags p) new = Some st'
    ∧ (1 < length (tags p) →
       (∀ tg, tg ∈ tagsToMove apiData (tags p) new ↔ shared tg)
       ∧ (∀ tg, tg ∈ tagsOf st' new ↔ tg ∈ tagsOf st new ∨ shared tg)
       ∧ (∀ tg, tg ∈ tagsOf st' old ↔ tg ∈ tags p ∧ ¬ shared tg))
    ∧ (∀ t, (∀ tg, shared tg ↔ tg = t) →
       (∀ tg, tg ∈ tagsOf st' new ↔ tg ∈ tagsOf st new ∨ tg = t)
       ∧ (∀ tg, tg ∈ tagsOf st' old ↔ tg ∈ tags p ∧ tg ≠ t)).
Proof.
  intros Hn Hno Hp shared.
  assert (member st old) as Hold by by exists p.
  destruct (dropdownListener_is_Some apiData st old (tags p) new Hold)
    as [st' Hst'].
  exists st'. split; [done|].
  pose proof (λ k, dropdownListener_tagsOf apiData st old (tags p) new st' k
                     Hn Hst') as Ht.
  assert (tagsOf st old = tags p) as Hto by (unfold tagsOf; by rewrite Hp).
  assert (∀ tg, tg ∈ tagsOf st' new
                ↔ tg ∈ tagsOf st new
                  ∨ ¬ isBlank tg ∧ tg ∈ tagsToMove apiData (tags p) new)
    as Hnew.
  { intros tg. rewrite (Ht new), decide_True, decide_False by done. simpl.
    by rewrite elem_of_uniq, elem_of_app, list_elem_of_filter. }
  assert (∀ tg, tg ∈ tagsOf st' old
                ↔ tg ∈ tags p ∧ tg ∉ tagsToMove apiData (tags p) new)
    as Hsrc.
  { intros tg. rewrite (Ht old), decide_False, decide_True by done. simpl.
    rewrite list_elem_of_filter, Hto. naive_solver. }
  assert (1 < length (tags p) →
          ∀ tg, tg ∈ tagsToMove apiData (tags p) new ↔ shared tg) as Hmulti.
  { intros HT tg. rewrite tagsToMove_multi by done.
    rewrite list_elem_of_filter. unfold shared. naive_solver. }
  split.
  - intros HT. split_and!; [by apply Hmulti| |].
    + intros tg. rewrite Hnew, (Hmulti HT). unfold shared. naive_solver.
    + intros tg. rewrite Hsrc, (Hmulti HT). done.
  - intros t Ht1.
    assert (∀ tg, ¬ isBlank tg ∧ tg ∈ tagsToMove apiData (tags p) new
                  ↔ tg = t) as Hmoved.
    { destruct (decide (1 < length (tags p))) as [HT|HT].
      - intros tg. rewrite (Hmulti HT), <- Ht1. unfold shared. naive_solver.
      - intros tg. rewrite tagsToMove_single by lia.
        assert (t ∈ tags p ∧ ¬ isBlank t) as [HtT Htb]
          by (destruct (proj2 (Ht1 t) eq_refl); naive_solver).
        destruct (tags p) as [|t0 [|??]]; simpl in HT; [|set_solver|lia].
        by apply elem_of_nil in HtT. }
    split.
    + intros tg. rewrite Hnew, Hmoved. done.
    + intros tg. rewrite Hsrc. split.
      * intros [HtgT Hnm]. split; [done|]. intros ->.
        apply Hnm. by apply Hmoved.
      * intros [HtgT Hne]. split; [done|]. intros Hm. apply Hne.
        destruct (decide (1 < length (tags p))) as [HT|HT].
        -- apply Ht1. by apply (Hmulti HT).
        -- assert (t ∈ tags p) as HtT
             by (destruct (proj2 (Ht1 t) eq_refl); naive_solver).
           destruct (tags p) as [|t0 [|??]]; simpl in HT; [|set_solver|lia].
           by apply elem_of_nil in HtT.
Qed.

Lemma C3_witness :
  "Bob" ≠ "" ∧ "Bob" ≠ "Ann"
  ∧ obj_get (profMap (buildTeam (team apiTwoMembers))) "Ann"
    = Some (teamProf "Ann" ["ml"; "nlp"])
  ∧ ∃ st', dropdownListener apiTwoMembers (buildTeam (team apiTwoMembers))
             "Ann" ["ml"; "nlp"] "Bob" = Some st'
           ∧ tagsOf st' "Ann" = ["nlp"]
           ∧ tagsOf st' "Bob" = ["db"; "ml"].
Proof.
  assert ("Bob" ≠ "") as Hn by done.
  assert ("Bob" ≠ "Ann") as Hne by done.
  assert (obj_get (profMap (buildTeam (team apiTwoMembers))) "Ann"
          = Some (teamProf "Ann" ["ml"; "nlp"])) as Hp by done.
  split; [exact Hn|]. split; [exact Hne|]. split; [exact Hp|].
  destruct (C3_shared_tags_move apiTwoMembers _ "Ann" _ "Bob" Hn Hne Hp)
    as (st' & Hst' & _).
  exists st'. split; [exact Hst'|].
  vm_compute in Hst'. injection Hst' as <-. by vm_compute.
Defined.

(** C3 as stated fails on a blank tag: the roster lists Bob for both tags
    of Ann's card, yet only [ml] is moved and [" "] stays with Ann. *)
Lemma C3_counterexample :
  possesses apiBlankTag "Bob" " " = true
  ∧ possesses apiBlankTag "Bob" "ml" = true
  ∧ tagsOf (buildTeam (team apiBlankTag)) "Ann" = [" "; "ml"]
  ∧ fired apiBlankTag (buildTeam (team apiBlankTag))
      (DropdownChange "Ann" [" "; "ml"] "Bob")
  ∧ tagsToMove apiBlankTag [" "; "ml"] "Bob" = ["ml"]
  ∧ ∃ st', dropdownListener apiBlankTag (buildTeam (team apiBlankTag))
             "Ann" [" "; "ml"] "Bob" = Some st'
           ∧ " " ∈ tagsOf st' "Ann" ∧ " " ∉ tagsOf st' "Bob".
Proof.
  split_and!; [done|done|done| |done|].
  - apply (bool_decide_unpack _). by vm_compute.
  - eexists. split; [by vm_compute|].
    split; apply (bool_decide_unpack _); by vm_compute.
Qed.






(** C6, as the code has it.  A single-tag move of [tag] from [source] to
    another expert [dest], asked through the swap icon of [dest] in the row
    of [tag], or through the dropdown of a card whose only tag is [tag]
    when [tag] is not blank.  In a team where [tag] is under [source] and
    no tag is under two members, the listener returns a team in which
    [tag] has left the tags of [source] and joined those of [dest], the
    others are as before, and the order is the old one, with [dest], if
    new, put immediately after [source], and without [source] if it lost
    its last tag. *)
Theorem C6_single_tag_move apiData st t tag source dest :
  wf st → uniqueHolders st →
  tag ∈ tagsOf st source → source ≠ dest →
  t = SwapIcon dest tag
  ∨ (t = DropdownChange source [tag] dest ∧ ¬ isBlank tag ∧ dest ≠ "") →
  ∃ st', step apiData st t = Some st'
    ∧ (∀ tg, tg ∈ tagsOf st' source ↔ tg ∈ tagsOf st source ∧ tg ≠ tag)
    ∧ (∀ tg, tg ∈ tagsOf st' dest ↔ tg ∈ tagsOf st dest ∨ tg = tag)
    ∧ (∀ k, k ≠ source → k ≠ dest →
            obj_get (profMap st') k = obj_get (profMap st) k)
    ∧ member st' dest
    ∧ (member st' source ↔ tagsOf st' source ≠ [])
    ∧ (member st dest →
       profOrder st'
       = filter (λ k, k = source → tagsOf st' source ≠ []) (profOrder st))
    ∧ (¬ member st dest →
       ∃ l1 l2, profOrder st = l1 ++ source :: l2
                ∧ profOrder st'
                  = l1 ++ (if decide (tagsOf st' source = []) then []
                           else [source]) ++ dest :: l2).
Proof.
  intros Hwf Hu Hin Hne Ht.
  assert (member st source) as Hsrc.
  { unfold member. unfold tagsOf in Hin.
    destruct (obj_get (profMap st) source); [eauto|].
    by apply elem_of_nil in Hin. }
  destruct Ht as [->|(-> & Hnb & Hd)]; simpl.
  - destruct (findHolder_is_Some st tag source Hin) as [[old card] Hf].
    pose proof (findHolder_Some _ _ _ _ Hwf Hf) as [Hg Hc].
    assert (old = source) as ->.
    { apply (Hu _ _ tag); [|done]. unfold tagsOf. by rewrite Hg. }
    rewrite (swapListener_moveTags apiData st dest tag source card) by done.
    destruct (moveTags_is_Some st source dest (filter (λ tg, tg ≠ tag))
                (λ ts, ts ++ [tag]) (swapNewProf apiData tag dest) Hsrc)
      as [st' Hm].
    exists st'. split; [done|].
    apply (moveTags_single _ _ _ _ _ _ _ tag Hwf Hne Hm eq_refl).
    + intros ts x. apply elem_of_filter_ne.
    + intros ts x. apply elem_of_snoc.
  - rewrite dropdownListener_moveTags by done.
    rewrite tagsToMove_single by (simpl; lia).
    rewrite (filter_all [tag])
      by (by intros x ->%list_elem_of_singleton).
    destruct (moveTags_is_Some st source dest (filter (λ tg, tg ∉ [tag]))
                (λ ts, arrayFromSet (ts ++ [tag]))
                (dropdownNewProf apiData [tag] dest) Hsrc) as [st' Hm].
    exists st'. split; [done|].
    apply (moveTags_single _ _ _ _ _ _ _ tag Hwf Hne Hm eq_refl).
    + intros ts x. apply elem_of_filter_not_elem.
    + intros ts x. apply elem_of_arrayFromSet_app.
Qed.

Lemma C6_witness :
  wf (buildTeam (team apiTwoMembers))
  ∧ uniqueHolders (buildTeam (team apiTwoMembers))
  ∧ "db" ∈ tagsOf (buildTeam (team apiTwoMembers)) "Bob"
  ∧ "Bob" ≠ "Cid"
  ∧ ∃ st', step apiTwoMembers (buildTeam (team apiTwoMembers))
             (SwapIcon "Cid" "db") = Some st'
           ∧ profOrder st' = ["Ann"; "Cid"]
           ∧ tagsOf st' "Cid" = ["db"] ∧ tagsOf st' "Bob" = [].
Proof.
  assert (wf (buildTeam (team apiTwoMembers))) as Hwf by apply wf_buildTeam.
  assert (uniqueHolders (buildTeam (team apiTwoMembers))) as Hu.
  { apply uniqueHolders_buildTeam. apply (bool_decide_unpack _).
    by vm_compute. }
  assert ("db" ∈ tagsOf (buildTeam (team apiTwoMembers)) "Bob") as Hin
    by (apply (bool_decide_unpack _); by vm_compute).
  assert ("Bob" ≠ "Cid") as Hne by done.
  split_and!; [exact Hwf|exact Hu|exact Hin|exact Hne|].
  destruct (C6_single_tag_move apiTwoMembers _ (SwapIcon "Cid" "db")
              "db" "Bob" "Cid" Hwf Hu Hin Hne (or_introl eq_refl))
    as (st' & Hst' & _).
  exists st'. split; [exact Hst'|].
  vm_compute in Hst'. injection Hst' as <-. by vm_compute.
Defined.

(** C6 as stated fails for the dropdown of a card whose only tag is
    blank: the tag leaves Ann, who is removed, but is not given to Bob,
    though the roster lists Bob for it. *)
Lemma C6_counterexample :
  possesses apiOnlyBlank "Bob" " " = true
  ∧ tagsOf (buildTeam (team apiOnlyBlank)) "Ann" = [" "]
  ∧ fired apiOnlyBlank (buildTeam (team apiOnlyBlank))
      (DropdownChange "Ann" [" "] "Bob")
  ∧ ∃ st', step apiOnlyBlank (buildTeam (team apiOnlyBlank))
             (DropdownChange "Ann" [" "] "Bob") = Some st'
           ∧ tagsOf st' "Ann" = []
           ∧ tagsOf st' "Bob" = [] ∧ " " ∉ tagsOf st' "Bob".
Proof.
  split_and!; [done|done| |].
  - apply (bool_decide_unpack _). by vm_compute.
  - eexists. split; [by vm_compute|].
    split_and!; [done|done|]. apply (bool_decide_unpack _). by vm_compute.
Qed.

(** C7.  The assembler gives no tag to two names.  Then, after the team is
    built and after every reassignment whose source holds the tags it is
    asked to move (so after every request the page can issue), no tag is
    under two different members: what goes to a destination has left its
    holder. *)
Theorem C7_no_tag_under_two_members apiData team ts :
  disjointTeam team →
  sourceHoldsRun apiData (buildTeam team) ts →
  uniqueHolders (run apiData (buildTeam team) ts).
Proof.
  intros Hd Hh. apply uniqueHolders_run; [apply wf_buildTeam| |done].
  by apply uniqueHolders_buildTeam.
Qed.

Lemma C7_witness :
  disjointTeam (team apiTwoMembers)
  ∧ sourceHoldsRun apiTwoMembers (buildTeam (team apiTwoMembers))
      [DropdownChange "Ann" ["ml"; "nlp"] "Bob"; SwapIcon "Cid" "db";
       DropdownChange "Bob" ["ml"] "Ann"]
  ∧ uniqueHolders
      (run apiTwoMembers (buildTeam (team apiTwoMembers))
         [DropdownChange "Ann" ["ml"; "nlp"] "Bob"; SwapIcon "Cid" "db";
          DropdownChange "Bob" ["ml"] "Ann"]).
Proof.
  assert (disjointTeam (team apiTwoMembers)) as Hd
    by (apply (bool_decide_unpack _); by vm_compute).
  assert (sourceHoldsRun apiTwoMembers (buildTeam (team apiTwoMembers))
            [DropdownChange "Ann" ["ml"; "nlp"] "Bob"; SwapIcon "Cid" "db";
             DropdownChange "Bob" ["ml"] "Ann"]) as Hh.
  { apply (bool_decide_unpack _). by vm_compute. }
  split; [exact Hd|]. split; [exact Hh|].
  exact (C7_no_tag_under_two_members apiTwoMembers _ _ Hd Hh).
Defined.

(** C8.  The cards of the individual mode show the ranked list in its
    order, numbered from one.  The ranked list is the full roster, and of
    two cards the earlier has the greater rank or, at equal rank, a name
    that is the same or comes first in lexicographic order. *)
Theorem C8_individual_sorted roster :
  let cards := renderIndividualResults (rankIndividuals roster) in
  card_prof <$> cards ≡ₚ roster
  ∧ (∀ i c, cards !! i = Some c → card_number c = i + 1)
  ∧ ∀ i j a b, i < j → cards !! i = Some a → cards !! j = Some b →
      (rank_score (card_prof b) < rank_score (card_prof a))%Q
      ∨ ((rank_score (card_prof a) == rank_score (card_prof b))%Q
         ∧ (i_name (card_prof a) = i_name (card_prof b)
            ∨ String_as_OT.lt (i_name (card_prof a)) (i_name (card_prof b)))).
Proof.
  intros cards. split_and!.
  - unfold cards. rewrite card_prof_renderIndividualResults.
    apply merge_sort_Permutation.
  - intros i c. unfold cards, renderIndividualResults.
    rewrite list_lookup_imap.
    destruct (rankIndividuals roster !! i); [|done]. by intros [= <-].
  - intros i j a b Hij Ha Hb. apply rankedBefore_spec.
    apply (StronglySorted_lookup rankedBefore (rankIndividuals roster) i j);
      [apply (StronglySorted_merge_sort rankedBefore (Transitive0 := rankedBefore_trans) (Total0 := rankedBefore_total))|done| |].
    + rewrite <- (card_prof_renderIndividualResults (rankIndividuals roster)).
      rewrite list_lookup_fmap. fold cards. by rewrite Ha.
    + rewrite <- (card_prof_renderIndividualResults (rankIndividuals roster)).
      rewrite list_lookup_fmap. fold cards. by rewrite Hb.
Qed.

(** C9.  After a dropdown reassignment (a destination was chosen and the
    source is in the team) the listener returns a team in which the tag
    list of the destination has no duplicate.  For a destination other
    than the source, the list is the union, through a [Set], of the tags
    the destination had and of the tags moved: it holds a tag exactly
    when the destination had it or it is a non-blank tag of the card (one
    the roster lists the destination for, when the card has more than one
    tag); a list without duplicate is kept as it is, in its order, and
    followed by the moved tags it did not hold, each once. *)
Theorem C9_destination_tags_union apiData st old T new :
  new ≠ "" → member st old →
  ∃ st', dropdownListener apiData st old T new = Some st'
    ∧ (∀ q, obj_get (profMap st') new = Some q → NoDup (tags q))
    ∧ (new ≠ old →
       (∀ tg, tg ∈ tagsOf st' new
              ↔ tg ∈ tagsOf st new
                ∨ (tg ∈ T ∧ ¬ isBlank tg
                   ∧ (1 < length T → possesses apiData new tg)))
       ∧ tagsOf st' new
         = uniq (tagsOf st new
                   ++ filter (λ tg, ¬ isBlank tg) (tagsToMove apiData T new))
       ∧ (NoDup (tagsOf st new) →
          ∃ added, tagsOf st' new = tagsOf st new ++ added
                   ∧ NoDup added
                   ∧ ∀ tg, tg ∈ added
                           ↔ (tg ∉ tagsOf st new)
                             ∧ tg ∈ T ∧ ¬ isBlank tg
                             ∧ (1 < length T → possesses apiData new tg))).
Proof.
  intros Hn Hold.
  destruct (dropdownListener_is_Some apiData st old T new Hold) as [st' Hst'].
  exists st'. split; [done|].
  pose proof (dropdownListener_tagsOf apiData st old T new st' new Hn Hst')
    as Ht.
  rewrite decide_True in Ht by done.
  split.
  { intros q Hq. unfold tagsOf at 1 in Ht. rewrite Hq in Ht.
    simpl in Ht. rewrite Ht. apply NoDup_uniq. }
  intros Hne. rewrite decide_False in Ht by done. simpl in Ht.
  assert (∀ tg, tg ∈ filter (λ tg, ¬ isBlank tg) (tagsToMove apiData T new)
                ↔ tg ∈ T ∧ ¬ isBlank tg
                  ∧ (1 < length T → possesses apiData new tg)) as Hmoved.
  { intros tg. rewrite list_elem_of_filter.
    destruct (decide (1 < length T)) as [HT|HT].
    - rewrite tagsToMove_multi by done. rewrite list_elem_of_filter.
      naive_solver.
    - rewrite tagsToMove_single by lia. naive_solver lia. }
  split_and!.
  - intros tg. by rewrite Ht, elem_of_uniq, elem_of_app, Hmoved.
  - done.
  - intros Hnd. rewrite Ht, uniq_app, (uniq_NoDup_id _ Hnd).
    eexists. split; [done|]. split.
    + apply NoDup_filter, NoDup_uniq.
    + intros tg. rewrite list_elem_of_filter, elem_of_uniq, Hmoved. done.
Qed.

Lemma C9_witness :
  "Bob" ≠ "" ∧ member (buildTeam (team apiSharedTag)) "Ann"
  ∧ tagsOf (buildTeam (team apiSharedTag)) "Bob" = ["db"; "ml"]
  ∧ tagsToMove apiSharedTag ["ml"; "nlp"] "Bob" = ["ml"]
  ∧ ∃ st', dropdownListener apiSharedTag (buildTeam (team apiSharedTag))
             "Ann" ["ml"; "nlp"] "Bob" = Some st'
           ∧ tagsOf st' "Bob" = ["db"; "ml"]
           ∧ NoDup (tagsOf st' "Bob").
Proof.
  assert ("Bob" ≠ "") as Hn by done.
  assert (member (buildTeam (team apiSharedTag)) "Ann") as Hm
    by (vm_compute; eauto).
  split; [exact Hn|]. split; [exact Hm|]. split; [reflexivity|].
  split; [reflexivity|].
  destruct (C9_destination_tags_union apiSharedTag _ "Ann" ["ml"; "nlp"] "Bob"
              Hn Hm) as (st' & Hst' & _ & Hunion).
  exists st'. split; [exact Hst'|].
  destruct Hunion as (_ & Heq & _); [done|].
  rewrite Heq. split; [reflexivity|]. apply NoDup_uniq.
Defined.

(** C10, as the code has it.  A dropdown reassignment never gives the
    destination a blank tag (empty, or of the white space [trim] strips,
    a no-break space for one): a blank tag it holds afterwards it held
    before.  What happens to a blank tag of the source depends on the
    card: with at most one tag on the card every tag of the card, blank or
    not, leaves the source; with more than one, blank tags are not among
    the tags to move and stay with the source. *)
Theorem C10_blank_tags apiData st old T new :
  new ≠ "" → member st old →
  ∃ st', dropdownListener apiData st old T new = Some st'
    ∧ (∀ tg, isBlank tg → tg ∈ tagsOf st' new → tg ∈ tagsOf st new)
    ∧ (length T ≤ 1 → ∀ tg, isBlank tg → tg ∈ T → tg ∉ tagsOf st' old)
    ∧ (1 < length T →
       ∀ tg, isBlank tg → tg ∈ tagsOf st old → tg ∈ tagsOf st' old)
    ∧ (1 < length T →
       ∀ tg, isBlank tg → tg ∉ tagsToMove apiData T new).
Proof.
  intros Hn Hold.
  destruct (dropdownListener_is_Some apiData st old T new Hold) as [st' Hst'].
  exists st'. split; [done|].
  pose proof (λ k, dropdownListener_tagsOf apiData st old T new st' k Hn Hst')
    as Ht.
  split_and!; [| | |intros HT tg Hb; rewrite tagsToMove_multi by done;
                     rewrite list_elem_of_filter; naive_solver].
  - intros tg Hb. rewrite (Ht new), decide_True by done.
    rewrite elem_of_uniq, elem_of_app, list_elem_of_filter.
    intros [Hin|[Hnb _]]; [|by destruct Hnb].
    case_decide; [|exact Hin]. apply list_elem_of_filter in Hin. naive_solver.
  - intros HT tg Hb HtgT.
    rewrite (Ht old), (decide_True (P := old = old)) by done.
    rewrite tagsToMove_single by done.
    case_decide; simpl;
      rewrite ?elem_of_uniq, ?elem_of_app, !list_elem_of_filter; naive_solver.
  - intros HT tg Hb Hin. rewrite (Ht old), (decide_True (P := old = old)) by done.
    assert (tg ∈ filter (λ tg, tg ∉ tagsToMove apiData T new) (tagsOf st old)).
    { apply list_elem_of_filter. split; [|done].
      rewrite tagsToMove_multi by done. rewrite list_elem_of_filter.
      naive_solver. }
    case_decide; simpl; [|done].
    rewrite elem_of_uniq, elem_of_app. by left.
Qed.

Lemma C10_witness :
  "Bob" ≠ "" ∧ member (buildTeam (team apiBlankTag)) "Ann"
  ∧ ∃ st', dropdownListener apiBlankTag (buildTeam (team apiBlankTag))
             "Ann" [" "; "ml"] "Bob" = Some st'
    ∧ (∀ tg, isBlank tg → tg ∈ tagsOf st' "Bob" →
             tg ∈ tagsOf (buildTeam (team apiBlankTag)) "Bob")
    ∧ (length [" "; "ml"] ≤ 1 →
       ∀ tg, isBlank tg → tg ∈ [" "; "ml"] → tg ∉ tagsOf st' "Ann")
    ∧ (1 < length [" "; "ml"] →
       ∀ tg, isBlank tg → tg ∈ tagsOf (buildTeam (team apiBlankTag)) "Ann" →
             tg ∈ tagsOf st' "Ann")
    ∧ (1 < length [" "; "ml"] →
       ∀ tg, isBlank tg → tg ∉ tagsToMove apiBlankTag [" "; "ml"] "Bob").
Proof.
  assert ("Bob" ≠ "") as Hn by done.
  assert (member (buildTeam (team apiBlankTag)) "Ann") as Hm
    by (vm_compute; eauto).
  split; [exact Hn|]. split; [exact Hm|].
  exact (C10_blank_tags apiBlankTag _ "Ann" [" "; "ml"] "Bob" Hn Hm).
Defined.

(** C10 as stated fails: a blank tag of a card with two tags is not removed
    from the source.  Ann keeps [" "] after [ml] went to Bob. *)
Lemma C10_counterexample :
  isBlank " " = true
  ∧ tagsOf (buildTeam (team apiBlankTag)) "Ann" = [" "; "ml"]
  ∧ fired apiBlankTag (buildTeam (team apiBlankTag))
      (DropdownChange "Ann" [" "; "ml"] "Bob")
  ∧ ∃ st', dropdownListener apiBlankTag (buildTeam (team apiBlankTag))
             "Ann" [" "; "ml"] "Bob" = Some st'
           ∧ tagsOf st' "Ann" = [" "]
           ∧ tagsOf st' "Bob" = ["ml"].
Proof.
  split; [done|]. split; [done|].
  split; [apply (bool_decide_unpack _); by vm_compute|].
  eexists. by vm_compute.
Qed.

(** * Further properties of the code *)

(** ** Sorting *)

Section js_sort_facts.
Context {A : Type} (cmp : A → A → comparison).

Lemma sort_insert_Permutation (x : A) l : sort_insert cmp x l ≡ₚ x :: l.
Proof.
  induction l as [|y r IH]; simpl; [done|].
  destruct (cmp x y); try done.
  rewrite IH. apply Permutation_swap.
Qed.

Lemma js_sort_Permutation l : js_sort cmp l ≡ₚ l.
Proof.
  induction l as [|x r IH]; simpl; [done|].
  fold (js_sort cmp r). by rewrite sort_insert_Permutation, IH.
Qed.

Lemma sort_insert_ext (cmp' : A → A → comparison) (x : A) l :
  (∀ y, y ∈ l → cmp x y = cmp' x y) →
  sort_insert cmp x l = sort_insert cmp' x l.
Proof.
  induction l as [|y r IH]; intros H; simpl; [done|].
  rewrite <- (H y) by left.
  destruct (cmp x y); try done.
  f_equal. apply IH. intros z Hz. apply H. by right.
Qed.

(** Where the comparator puts nothing before [x], [x] stays in front. *)
Lemma sort_insert_head (x : A) l :
  (∀ y, head l = Some y → cmp x y ≠ Gt) → sort_insert cmp x l = x :: l.
Proof.
  destruct l as [|y r]; intros H; simpl; [done|].
  specialize (H y eq_refl). by destruct (cmp x y).
Qed.

Lemma filter_sort_insert (P : A → Prop) `{!∀ x, Decision (P x)} (x : A) l :
  (∀ y, y ∈ l → P x → cmp x y = Gt → ¬ P y) →
  filter P (sort_insert cmp x l)
  = if decide (P x) then x :: filter P l else filter P l.
Proof.
  induction l as [|y r IH]; intros Hl; simpl.
  - rewrite filter_cons, filter_nil. by destruct (decide (P x)).
  - destruct (cmp x y) eqn:Hc.
    + rewrite filter_cons. by destruct (decide (P x)).
    + rewrite filter_cons. by destruct (decide (P x)).
    + rewrite !filter_cons, IH by (intros z Hz; apply Hl; by right).
      destruct (decide (P x)) as [Hx|Hx]; [|done].
      assert (¬ P y) as Hy by (apply Hl; [by left|done..]).
      by destruct (decide (P y)).
Qed.

(** The comparator is consistent: what it does not put after is a
    transitive relation, and of two elements one is not put after the
    other. *)
Hypothesis cmp_trans : ∀ x y z, cmp x y ≠ Gt → cmp y z ≠ Gt → cmp x z ≠ Gt.
Hypothesis cmp_total : ∀ x y, cmp x y = Gt → cmp y x ≠ Gt.

Lemma sort_insert_sorted (x : A) l :
  StronglySorted (λ a b, cmp a b ≠ Gt) l →
  StronglySorted (λ a b, cmp a b ≠ Gt) (sort_insert cmp x l).
Proof.
  induction 1 as [|y r Hr IH Hy]; simpl.
  - repeat constructor.
  - destruct (cmp x y) eqn:Hc.
    + constructor; [by constructor|].
      constructor; [by rewrite Hc|].
      eapply Forall_impl; [done|]. intros z Hz. simpl in Hz.
      apply (cmp_trans x y z); [by rewrite Hc|done].
    + constructor; [by constructor|].
      constructor; [by rewrite Hc|].
      eapply Forall_impl; [done|]. intros z Hz. simpl in Hz.
      apply (cmp_trans x y z); [by rewrite Hc|done].
    + constructor; [done|].
      apply Forall_forall. intros z Hz.
      apply elem_of_sort_insert in Hz as [->|Hz].
      * by apply cmp_total.
      * by rewrite Forall_forall in Hy; apply Hy.
Qed.

Lemma js_sort_sorted l : StronglySorted (λ a b, cmp a b ≠ Gt) (js_sort cmp l).
Proof.
  induction l as [|x r IH]; simpl; [constructor|].
  by apply sort_insert_sorted.
Qed.

(** A stable sort and a filter commute. *)
Lemma filter_sort_insert_sorted (P : A → Prop) `{!∀ x, Decision (P x)}
    (x : A) l :
  StronglySorted (λ a b, cmp a b ≠ Gt) l →
  filter P (sort_insert cmp x l)
  = if decide (P x) then sort_insert cmp x (filter P l) else filter P l.
Proof.
  induction 1 as [|y r Hr IH Hy]; simpl.
  - rewrite filter_cons, filter_nil. by destruct (decide (P x)).
  - assert (cmp x y ≠ Gt →
            filter P (x :: y :: r)
            = if decide (P x) then sort_insert cmp x (filter P (y :: r))
              else filter P (y :: r)) as Hfront.
    { intros Hc. rewrite (filter_cons _ x).
      destruct (decide (P x)) as [Hx|Hx]; [|done].
      rewrite sort_insert_head; [done|].
      intros z Hz. apply head_Some_elem_of, list_elem_of_filter in Hz as [_ Hz].
      apply elem_of_cons in Hz as [->|Hz]; [done|].
      apply (cmp_trans x y z); [done|].
      by rewrite Forall_forall in Hy; apply Hy. }
    destruct (cmp x y) eqn:Hc; [by apply Hfront..|].
    rewrite !(filter_cons _ y), IH.
    destruct (decide (P x)), (decide (P y)); simpl; by rewrite ?Hc.
Qed.

Lemma filter_js_sort (P : A → Prop) `{!∀ x, Decision (P x)} l :
  filter P (js_sort cmp l) = js_sort cmp (filter P l).
Proof.
  induction l as [|x r IH]; simpl; [done|].
  fold (js_sort cmp r).
  rewrite filter_sort_insert_sorted by apply js_sort_sorted.
  rewrite filter_cons, IH. by destruct (decide (P x)).
Qed.
End js_sort_facts.

Lemma js_sort_ext {A} (cmp cmp' : A → A → comparison) l :
  (∀ x y, x ∈ l → y ∈ l → cmp x y = cmp' x y) →
  js_sort cmp l = js_sort cmp' l.
Proof.
  induction l as [|x r IH]; intros H; simpl; [done|].
  fold (js_sort cmp r) (js_sort cmp' r).
  rewrite IH by (intros; apply H; by right).
  apply sort_insert_ext. intros y Hy. apply elem_of_js_sort in Hy.
  apply H; [by left|by right].
Qed.

Lemma StronglySorted_js_sort_lookup {A} (cmp : A → A → comparison) l i j a b :
  (∀ x y z, cmp x y ≠ Gt → cmp y z ≠ Gt → cmp x z ≠ Gt) →
  (∀ x y, cmp x y = Gt → cmp y x ≠ Gt) →
  i < j → js_sort cmp l !! i = Some a → js_sort cmp l !! j = Some b →
  cmp a b ≠ Gt.
Proof.
  intros Ht Hto Hij Ha Hb.
  by apply (StronglySorted_lookup (λ a b, cmp a b ≠ Gt) (js_sort cmp l) i j a b
              (js_sort_sorted cmp Ht Hto l)).
Qed.

(** *** [sortResults] by relevance *)

(** The comparator on the scores, a missing score read as [0]. *)
Lemma byScore_scores (a b : TeamProf) :
  is_Some (score a) → is_Some (score b) →
  byScore a b = (default 0%Q (score b) ?= default 0%Q (score a))%Q.
Proof. intros [sa Ha] [sb Hb]. unfold byScore. by rewrite Ha, Hb. Qed.

Lemma Qcompare_desc_trans (x y z : Q) :
  (y ?= x)%Q ≠ Gt → (z ?= y)%Q ≠ Gt → (z ?= x)%Q ≠ Gt.
Proof. rewrite <- !Qle_alt. intros H1 H2. by apply (Qle_trans _ y). Qed.

Lemma Qcompare_desc_total (x y : Q) : (y ?= x)%Q = Gt → (x ?= y)%Q ≠ Gt.
Proof.
  rewrite <- Qgt_alt, <- Qle_alt. intros H. by apply Qlt_le_weak.
Qed.

Lemma sortResults_relevance_scores localeCompare results :
  Forall (λ p, is_Some (score p)) results →
  sortResults localeCompare results relevance
  = Some (js_sort (λ a b, (default 0%Q (score b) ?= default 0%Q (score a))%Q)
                  results).
Proof.
  intros Hall. simpl. rewrite decide_True by by left. f_equal.
  rewrite Forall_forall in Hall. apply js_sort_ext.
  intros x y Hx Hy. by apply byScore_scores; apply Hall.
Qed.

Lemma sortResults_is_sort localeCompare results criteria sorted :
  sortResults localeCompare results criteria = Some sorted →
  sorted = results ∨ ∃ cmp, sorted = js_sort cmp results.
Proof.
  destruct criteria; simpl.
  - intros [= <-]. right. by eexists.
  - case_decide; [|done]. intros [= <-]. right. by eexists.
  - intros [= <-]. by left.
Qed.

Lemma filter_js_sort_class {A} (cmp : A → A → comparison) (P : A → Prop)
    `{!∀ x, Decision (P x)} l :
  (∀ a b, a ∈ l → b ∈ l → P a → cmp a b = Gt → ¬ P b) →
  filter P (js_sort cmp l) = filter P l.
Proof.
  induction l as [|x r IH]; intros Hl; simpl; [done|].
  fold (js_sort cmp r).
  rewrite filter_sort_insert, filter_cons.
  - rewrite IH; [done|]. intros a b Ha Hb. apply Hl; by right.
  - intros y Hy. apply elem_of_js_sort in Hy. apply Hl; [by left|by right].
Qed.

Lemma String_compare_trans (x y z : string) :
  String_as_OT.compare x y ≠ Gt → String_as_OT.compare y z ≠ Gt →
  String_as_OT.compare x z ≠ Gt.
Proof.
  destruct (String_as_OT.compare_spec x y) as [->|Hxy|Hxy]; [done| |done].
  destruct (String_as_OT.compare_spec y z) as [->|Hyz|Hyz]; intros _ Hz.
  - destruct (String_as_OT.compare_spec x z) as [->|?|Hzx]; [done..|].
    destruct (StrictOrder_Irreflexive x). by transitivity z.
  - destruct (String_as_OT.compare_spec x z) as [->|?|Hzx]; [done..|].
    destruct (StrictOrder_Irreflexive x).
    transitivity y; [done|]. by transitivity z.
  - done.
Qed.

Lemma String_compare_total (x y : string) :
  String_as_OT.compare x y = Gt → String_as_OT.compare y x ≠ Gt.
Proof.
  destruct (String_as_OT.compare_spec x y) as [->|Hxy|Hxy]; [done..|].
  intros _.
  destruct (String_as_OT.compare_spec y x) as [->|?|Hyx]; [done..|].
  destruct (StrictOrder_Irreflexive x). by transitivity y.
Qed.

(** X1.  [sortResults] only reorders: whatever the criterion and the
    collation of the host, the sorted array holds the entries of the array
    it was given, each as often as before. *)
Theorem X1_sortResults_permutation localeCompare results criteria sorted :
  sortResults localeCompare results criteria = Some sorted →
  sorted ≡ₚ results.
Proof.
  intros [->|[cmp ->]]%sortResults_is_sort; [done|].
  apply js_sort_Permutation.
Qed.

Lemma X1_witness :
  sortResults String_as_OT.compare
    [teamProf "Bob" ["db"]; teamProf "Ann" ["ml"]] alphabetical
  = Some [teamProf "Ann" ["ml"]; teamProf "Bob" ["db"]]
  ∧ [teamProf "Ann" ["ml"]; teamProf "Bob" ["db"]]
    ≡ₚ [teamProf "Bob" ["db"]; teamProf "Ann" ["ml"]].
Proof.
  assert (sortResults String_as_OT.compare
            [teamProf "Bob" ["db"]; teamProf "Ann" ["ml"]] alphabetical
          = Some [teamProf "Ann" ["ml"]; teamProf "Bob" ["db"]]) as Hs
    by reflexivity.
  split; [exact Hs|].
  exact (X1_sortResults_permutation _ _ _ _ Hs).
Defined.

(** X2.  Sorted by relevance, an array whose entries all have a score is
    in descending order of score: of two entries the earlier has the
    greater or an equal score. *)
Theorem X2_sortResults_relevance_descending localeCompare results :
  Forall (λ p, is_Some (score p)) results →
  ∃ sorted, sortResults localeCompare results relevance = Some sorted
    ∧ ∀ i j a b, i < j → sorted !! i = Some a → sorted !! j = Some b →
        ∃ sa sb, score a = Some sa ∧ score b = Some sb ∧ (sb <= sa)%Q.
Proof.
  intros Hall. eexists. split; [by apply sortResults_relevance_scores|].
  intros i j a b Hij Ha Hb.
  assert (∀ k p, js_sort (λ a b, (default 0%Q (score b)
                                   ?= default 0%Q (score a))%Q) results !! k
                 = Some p → is_Some (score p)) as Hsc.
  { intros k p Hk. apply list_elem_of_lookup_2 in Hk.
    apply elem_of_js_sort in Hk. by rewrite Forall_forall in Hall; apply Hall. }
  destruct (Hsc _ _ Ha) as [sa Hsa], (Hsc _ _ Hb) as [sb Hsb].
  exists sa, sb. split_and!; [done..|].
  pose proof (StronglySorted_js_sort_lookup _ results i j a b
                (λ x y z, Qcompare_desc_trans _ _ _)
                (λ x y, Qcompare_desc_total _ _) Hij Ha Hb) as Hle.
  simpl in Hle. rewrite Hsa, Hsb in Hle. simpl in Hle.
  by apply Qle_alt.
Qed.

Lemma X2_witness :
  Forall (λ p, is_Some (score p))
    [{| name := "Ann"; department := ""; base_url := ""; position := "";
        google_scholar_url := ""; score := Some 40%Q; tags := ["ml"] |};
     {| name := "Bob"; department := ""; base_url := ""; position := "";
        google_scholar_url := ""; score := Some 90%Q; tags := ["db"] |}]
  ∧ ∃ sorted,
      sortResults String_as_OT.compare
        [{| name := "Ann"; department := ""; base_url := ""; position := "";
            google_scholar_url := ""; score := Some 40%Q; tags := ["ml"] |};
         {| name := "Bob"; department := ""; base_url := ""; position := "";
            google_scholar_url := ""; score := Some 90%Q; tags := ["db"] |}]
        relevance = Some sorted
      ∧ name <$> sorted = ["Bob"; "Ann"].
Proof.
  assert (Forall (λ p, is_Some (score p))
    [{| name := "Ann"; department := ""; base_url := ""; position := "";
        google_scholar_url := ""; score := Some 40%Q; tags := ["ml"] |};
     {| name := "Bob"; department := ""; base_url := ""; position := "";
        google_scholar_url := ""; score := Some 90%Q; tags := ["db"] |}])
    as Hall by (repeat constructor; by eexists).
  split; [exact Hall|].
  destruct (X2_sortResults_relevance_descending String_as_OT.compare _ Hall)
    as (sorted & Hs & _).
  exists sorted. split; [exact Hs|].
  vm_compute in Hs. injection Hs as <-. reflexivity.
Defined.

(** X3.  The sort by relevance is stable: among the entries of one score
    (the score of [x]), the order of the array is kept, so that listing
    them gives the same before and after the sort. *)
Theorem X3_sortResults_relevance_stable localeCompare results x :
  Forall (λ p, is_Some (score p)) results → is_Some (score x) →
  ∃ sorted, sortResults localeCompare results relevance = Some sorted
    ∧ filter (λ p, byScore x p = Eq) sorted
      = filter (λ p, byScore x p = Eq) results.
Proof.
  intros Hall [sx Hx]. eexists. split.
  { simpl. by rewrite decide_True by by left. }
  apply filter_js_sort_class.
  rewrite Forall_forall in Hall.
  intros a b Ha Hb. destruct (Hall _ Ha) as [sa Hsa], (Hall _ Hb) as [sb Hsb].
  unfold byScore. rewrite Hx, Hsa, Hsb.
  rewrite <- Qeq_alt, <- Qgt_alt. intros Heq Hgt Heq'.
  rewrite <- Qeq_alt in Heq'. rewrite Heq, Heq' in Hgt.
  by apply Qlt_irrefl in Hgt.
Qed.

Lemma X3_witness :
  Forall (λ p, is_Some (score p))
    [{| name := "Ann"; department := ""; base_url := ""; position := "";
        google_scholar_url := ""; score := Some 40%Q; tags := ["ml"] |};
     {| name := "Bob"; department := ""; base_url := ""; position := "";
        google_scholar_url := ""; score := Some 90%Q; tags := ["db"] |};
     {| name := "Cid"; department := ""; base_url := ""; position := "";
        google_scholar_url := ""; score := Some 40%Q; tags := ["nlp"] |}]
  ∧ is_Some (Some 40%Q)
  ∧ ∃ sorted,
      sortResults String_as_OT.compare
        [{| name := "Ann"; department := ""; base_url := ""; position := "";
            google_scholar_url := ""; score := Some 40%Q; tags := ["ml"] |};
         {| name := "Bob"; department := ""; base_url := ""; position := "";
            google_scholar_url := ""; score := Some 90%Q; tags := ["db"] |};
         {| name := "Cid"; department := ""; base_url := ""; position := "";
            google_scholar_url := ""; score := Some 40%Q; tags := ["nlp"] |}]
        relevance = Some sorted
      ∧ name <$> sorted = ["Bob"; "Ann"; "Cid"]
      ∧ name <$> filter (λ p, byScore
                     {| name := "Ann"; department := ""; base_url := "";
                        position := ""; google_scholar_url := "";
                        score := Some 40%Q; tags := ["ml"] |} p = Eq) sorted
        = ["Ann"; "Cid"].
Proof.
  assert (Forall (λ p, is_Some (score p))
    [{| name := "Ann"; department := ""; base_url := ""; position := "";
        google_scholar_url := ""; score := Some 40%Q; tags := ["ml"] |};
     {| name := "Bob"; department := ""; base_url := ""; position := "";
        google_scholar_url := ""; score := Some 90%Q; tags := ["db"] |};
     {| name := "Cid"; department := ""; base_url := ""; position := "";
        google_scholar_url := ""; score := Some 40%Q; tags := ["nlp"] |}])
    as Hall by (repeat constructor; by eexists).
  assert (is_Some (Some 40%Q)) as Hx by (by eexists).
  split_and!; [done..|].
  destruct (X3_sortResults_relevance_stable String_as_OT.compare _
              {| name := "Ann"; department := ""; base_url := "";
                 position := ""; google_scholar_url := "";
                 score := Some 40%Q; tags := ["ml"] |} Hall Hx)
    as (sorted & Hs & Hf).
  exists sorted. split; [exact Hs|]. rewrite Hf.
  vm_compute in Hs. injection Hs as <-. split; reflexivity.
Defined.

(** X4.  Sorted alphabetically under a consistent collation (what it does
    not put after is transitive, and of two names one is not put after the
    other), the array is in ascending order of name. *)
Theorem X4_sortResults_alphabetical localeCompare results :
  (∀ x y z, localeCompare x y ≠ Gt → localeCompare y z ≠ Gt →
            localeCompare x z ≠ Gt) →
  (∀ x y, localeCompare x y = Gt → localeCompare y x ≠ Gt) →
  ∃ sorted, sortResults localeCompare results alphabetical = Some sorted
    ∧ ∀ i j a b, i < j → sorted !! i = Some a → sorted !! j = Some b →
        localeCompare (name a) (name b) ≠ Gt.
Proof.
  intros Htrans Htotal. eexists. split; [done|].
  intros i j a b Hij Ha Hb.
  apply (StronglySorted_js_sort_lookup
           (λ a b, localeCompare (name a) (name b)) results i j a b); eauto.
Qed.

Lemma X4_witness :
  (∀ x y z, String_as_OT.compare x y ≠ Gt → String_as_OT.compare y z ≠ Gt →
            String_as_OT.compare x z ≠ Gt)
  ∧ (∀ x y, String_as_OT.compare x y = Gt → String_as_OT.compare y x ≠ Gt)
  ∧ ∃ sorted,
      sortResults String_as_OT.compare
        [teamProf "Bob" ["db"]; teamProf "Ann" ["ml"]] alphabetical
      = Some sorted
      ∧ name <$> sorted = ["Ann"; "Bob"].
Proof.
  split; [exact String_compare_trans|].
  split; [exact String_compare_total|].
  destruct (X4_sortResults_alphabetical String_as_OT.compare
              [teamProf "Bob" ["db"]; teamProf "Ann" ["ml"]]
              String_compare_trans String_compare_total)
    as (sorted & Hs & _).
  exists sorted. split; [exact Hs|].
  vm_compute in Hs. injection Hs as <-. reflexivity.
Defined.

(** ** The department filter *)

Lemma elem_of_filterResults results dept p :
  p ∈ filterResults results dept
  ↔ p ∈ results ∧ (dept = "" ∨ department p = dept).
Proof.
  unfold filterResults. destruct (decide (dept = "")) as [->|Hne].
  - naive_solver.
  - rewrite list_elem_of_filter. naive_solver.
Qed.

Lemma populateDepartmentFilter_values results :
  (populateDepartmentFilter results).*1 = "" :: uniq (department <$> results).
Proof.
  unfold populateDepartmentFilter. csimpl. f_equal.
  rewrite <- list_fmap_compose, arrayFromSet_uniq.
  induction (uniq (department <$> results)) as [|d r IH]; csimpl; by f_equal.
Qed.

Lemma uniq_cons {A} `{EqDecision A} (x : A) (r : list A) :
  uniq (x :: r) = x :: filter (λ y, y ≠ x) (uniq r).
Proof. done. Qed.

(** X5.  [populateDepartmentFilter] offers "All Departments" first, with
    the empty value, and then every department of the results once, in
    the order in which the departments are first met. *)
Theorem X5_populateDepartmentFilter_options results :
  ∃ departments,
    populateDepartmentFilter results
    = ("", "All Departments") :: ((λ d, (d, d)) <$> departments)
    ∧ NoDup departments
    ∧ (∀ d, d ∈ departments ↔ ∃ p, p ∈ results ∧ department p = d)
    ∧ ∀ p q l1 l2 l3, results = l1 ++ p :: l2 ++ q :: l3 →
        department p ∉ department <$> l1 →
        department q ∉ department <$> (l1 ++ p :: l2) →
        ∃ k1 k2 k3, departments
                    = k1 ++ department p :: k2 ++ department q :: k3.
Proof.
  exists (uniq (department <$> results)).
  split_and!.
  - unfold populateDepartmentFilter. by rewrite arrayFromSet_uniq.
  - apply NoDup_uniq.
  - intros d. rewrite elem_of_uniq, list_elem_of_fmap. naive_solver.
  - intros p q l1 l2 l3 -> Hp Hq.
    rewrite fmap_app, fmap_cons, fmap_app, fmap_cons.
    rewrite fmap_app, fmap_cons in Hq.
    rewrite uniq_app, uniq_cons, uniq_app, uniq_cons.
    rewrite filter_cons, decide_True by done.
    rewrite filter_app, filter_cons, decide_True
      by (intros Hin; apply Hq; set_solver).
    rewrite filter_cons, decide_True
      by (intros Heq; apply Hq; set_solver).
    rewrite filter_app, filter_cons, decide_True
      by (intros Hin; apply Hq; set_solver).
    eexists _, _, _. reflexivity.
Qed.

(** X6.  Every value offered by [populateDepartmentFilter] selects
    something: filtering non-empty results by an offered value gives a
    non-empty array, consisting of the results of that department (all of
    them for the empty value), in their order; filtering again by the
    same value changes nothing. *)
Theorem X6_filterResults_offered results v :
  v ∈ (populateDepartmentFilter results).*1 → results ≠ [] →
  filterResults results v ≠ []
  ∧ (∀ p, p ∈ filterResults results v
          ↔ p ∈ results ∧ (v = "" ∨ department p = v))
  ∧ filterResults results v `sublist_of` results
  ∧ filterResults (filterResults results v) v = filterResults results v.
Proof.
  intros Hv Hne. split_and!.
  - rewrite populateDepartmentFilter_values in Hv.
    unfold filterResults. destruct (decide (v = "")) as [->|Hv']; [done|].
    apply elem_of_cons in Hv as [->|Hv]; [done|].
    apply elem_of_uniq, list_elem_of_fmap in Hv as (p & -> & Hp).
    intros Hnil.
    assert (p ∈ filter (λ prof, department prof = department p) results) as Hin
      by by apply list_elem_of_filter.
    rewrite Hnil in Hin. by apply elem_of_nil in Hin.
  - intros p. apply elem_of_filterResults.
  - unfold filterResults. destruct (decide (v = "")); [done|].
    apply sublist_filter.
  - unfold filterResults. destruct (decide (v = "")); [done|].
    apply filter_all. intros p Hp. by apply list_elem_of_filter in Hp as [? _].
Qed.

Lemma X6_witness :
  "Computer Science"
    ∈ (populateDepartmentFilter [teamProf "Ann" ["ml"]; teamProf "Bob" ["db"]]).*1
  ∧ [teamProf "Ann" ["ml"]; teamProf "Bob" ["db"]] ≠ []
  ∧ filterResults [teamProf "Ann" ["ml"]; teamProf "Bob" ["db"]]
      "Computer Science" ≠ [].
Proof.
  assert ("Computer Science"
    ∈ (populateDepartmentFilter [teamProf "Ann" ["ml"]; teamProf "Bob" ["db"]]).*1)
    as Hv by (apply (bool_decide_unpack _); by vm_compute).
  assert ([teamProf "Ann" ["ml"]; teamProf "Bob" ["db"]] ≠ []) as Hne by done.
  split_and!; [done..|].
  exact (proj1 (X6_filterResults_offered _ _ Hv Hne)).
Defined.

(** ** Counting the professors of tags *)

Lemma obj_keys_countProf pc n :
  obj_keys (countProf pc n) = setAdd (obj_keys pc) n.
Proof.
  unfold countProf, setAdd. rewrite obj_keys_set.
  destruct (obj_get pc n) as [c|] eqn:Hget.
  - rewrite decide_True; [done|]. apply elem_of_obj_keys. by eexists.
  - rewrite decide_False; [done|]. rewrite elem_of_obj_keys, Hget.
    by intros [? ?].
Qed.

Lemma obj_keys_foldl_countProf pc names :
  obj_keys (foldl countProf pc names) = foldl setAdd (obj_keys pc) names.
Proof.
  revert pc. induction names as [|n r IH]; intros pc; simpl; [done|].
  by rewrite IH, obj_keys_countProf.
Qed.

Lemma NoDup_keys_foldl_countProf pc names :
  NoDup (obj_keys pc) → NoDup (obj_keys (foldl countProf pc names)).
Proof.
  revert pc. induction names as [|n r IH]; intros pc Hnd; simpl; [done|].
  apply IH. by apply NoDup_obj_keys_set.
Qed.

Lemma obj_get_foldl_countProf pc names k :
  obj_get (foldl countProf pc names) k
  = match length (filter (λ n, n = k) names) with
    | 0 => obj_get pc k
    | S c => Some (default 0 (obj_get pc k) + S c)
    end.
Proof.
  revert pc. induction names as [|n r IH]; intros pc; simpl; [done|].
  rewrite IH, filter_cons. unfold countProf at 1 2. rewrite obj_get_set.
  destruct (decide (n = k)) as [->|Hne]; simpl.
  - destruct (length _); simpl; f_equal; lia.
  - done.
Qed.

Lemma foldl_count_profs pc (profs : list RosterProf) :
  foldl (λ pc p, countProf pc (r_name p)) pc profs
  = foldl countProf pc (r_name <$> profs).
Proof.
  revert pc. induction profs as [|p r IH]; intros pc; csimpl; [done|].
  by rewrite IH.
Qed.

Lemma foldl_count_tags apiData pc T :
  foldl (λ profCount tag,
           foldl (λ pc p, countProf pc (r_name p)) profCount
                 (allProfs apiData tag)) pc T
  = foldl countProf pc (r_name <$> (T ≫= allProfs apiData)).
Proof.
  revert pc. induction T as [|tg r IH]; intros pc; csimpl; [done|].
  by rewrite IH, foldl_count_profs, fmap_app, foldl_app.
Qed.

Lemma foldl_count_others (self : string) pc (profs : list RosterProf) :
  foldl (λ pc p, if decide (r_name p ≠ self)
                 then countProf pc (r_name p) else pc) pc profs
  = foldl countProf pc (filter (λ n, n ≠ self) (r_name <$> profs)).
Proof.
  revert pc. induction profs as [|p r IH]; intros pc; csimpl; [done|].
  rewrite IH, filter_cons. by destruct (decide (r_name p ≠ self)).
Qed.

Lemma foldl_count_others_tags apiData (self : string) pc T :
  foldl (λ profCount tag,
           foldl (λ pc p, if decide (r_name p ≠ self)
                          then countProf pc (r_name p) else pc)
                 profCount (allProfs apiData tag)) pc T
  = foldl countProf pc
      (filter (λ n, n ≠ self) (r_name <$> (T ≫= allProfs apiData))).
Proof.
  revert pc. induction T as [|tg r IH]; intros pc; csimpl; [done|].
  by rewrite IH, foldl_count_others, fmap_app, filter_app, foldl_app.
Qed.

Lemma length_filter_fmap_name (profs : list RosterProf) k :
  length (filter (λ n, n = k) (r_name <$> profs))
  = length (filter (λ p, r_name p = k) profs).
Proof.
  induction profs as [|p r IH]; csimpl; [done|].
  rewrite !filter_cons. destruct (decide (r_name p = k)); simpl; by rewrite IH.
Qed.

Lemma obj_delete_set {V} (o : list (string * V)) k v s :
  obj_delete (obj_set o k v) s
  = if decide (k = s) then obj_delete o s else obj_set (obj_delete o s) k v.
Proof.
  unfold obj_delete.
  induction o as [|[k' v'] r IH]; simpl.
  - rewrite filter_cons, filter_nil. simpl.
    destruct (decide (k = s)), (decide (k ≠ s)); done.
  - destruct (decide (k' = k)) as [->|Hne].
    + rewrite !filter_cons. simpl.
      destruct (decide (k = s)) as [->|Hks].
      * by rewrite !decide_False by (by intros ?).
      * rewrite !decide_True by done. simpl. by rewrite decide_True.
    + rewrite !filter_cons, IH. simpl.
      destruct (decide (k = s)) as [->|Hks]; [done|].
      destruct (decide (k' ≠ s)); [|done].
      simpl. by rewrite decide_False.
Qed.

Lemma obj_delete_countProf pc n s :
  obj_delete (countProf pc n) s
  = if decide (n = s) then obj_delete pc s
    else countProf (obj_delete pc s) n.
Proof.
  unfold countProf. rewrite obj_delete_set.
  destruct (decide (n = s)) as [->|Hne]; [done|].
  by rewrite obj_get_delete, decide_False.
Qed.

Lemma obj_delete_foldl_countProf pc names s :
  obj_delete (foldl countProf pc names) s
  = foldl countProf (obj_delete pc s) (filter (λ n, n ≠ s) names).
Proof.
  revert pc. induction names as [|n r IH]; intros pc; simpl; [done|].
  rewrite IH, obj_delete_countProf, filter_cons.
  destruct (decide (n = s)) as [->|Hne].
  - by rewrite decide_False by (by intros ?).
  - by rewrite decide_True.
Qed.

Lemma byCountDesc_trans (x y z : string * nat) :
  byCountDesc x y ≠ Gt → byCountDesc y z ≠ Gt → byCountDesc x z ≠ Gt.
Proof.
  unfold byCountDesc. rewrite !Nat.compare_le_iff. lia.
Qed.

Lemma byCountDesc_total (x y : string * nat) :
  byCountDesc x y = Gt → byCountDesc y x ≠ Gt.
Proof.
  unfold byCountDesc. rewrite Nat.compare_le_iff, Nat.compare_gt_iff. lia.
Qed.

Lemma getProfsForTags_sort apiData T :
  getProfsForTags apiData T
  = js_sort byCountDesc
      (foldl countProf [] (r_name <$> (T ≫= allProfs apiData))).
Proof. unfold getProfsForTags. by rewrite foldl_count_tags. Qed.

Lemma NoDup_getProfsForTags apiData T :
  NoDup (getProfsForTags apiData T).*1.
Proof.
  rewrite getProfsForTags_sort.
  rewrite (fmap_Permutation fst _ _ (js_sort_Permutation byCountDesc _)).
  apply (NoDup_keys_foldl_countProf []). constructor.
Qed.

Lemma elem_of_getProfsForTags apiData T n c :
  (n, c) ∈ getProfsForTags apiData T
  ↔ 0 < c ∧ c = length (filter (λ p, r_name p = n) (T ≫= allProfs apiData)).
Proof.
  rewrite getProfsForTags_sort, elem_of_js_sort.
  rewrite elem_of_obj_entries
    by (apply (NoDup_keys_foldl_countProf []); constructor).
  rewrite obj_get_foldl_countProf, length_filter_fmap_name. simpl.
  destruct (length _) as [|k]; [|split; [intros [= <-]|intros [_ ->]]; done || lia].
  split; [done|lia].
Qed.

Lemma find_key_Some {V} (l : list (string * V)) k v :
  NoDup l.*1 →
  List.find (λ p, bool_decide (p.1 = k)) l = Some v ↔ v.1 = k ∧ v ∈ l.
Proof.
  intros Hnd. induction l as [|[k' v'] r IH]; simpl.
  - split; [done|]. intros [_ H]. by apply elem_of_nil in H.
  - rewrite fmap_cons in Hnd. apply NoDup_cons in Hnd as [Hk' Hnd].
    simpl in Hk'. case_bool_decide as Hk; simpl in Hk.
    + subst k'. split.
      * intros [= <-]. split; [done|left].
      * intros [Hv Hin]. apply elem_of_cons in Hin as [->|Hin]; [done|].
        destruct Hk'. rewrite <- Hv. by apply (list_elem_of_fmap_2 fst).
    + rewrite IH by done. split.
      * intros [? ?]. split; [done|by right].
      * intros [Hv Hin]. apply elem_of_cons in Hin as [->|Hin]; [done|]. done.
Qed.

Lemma find_key_None {V} (l : list (string * V)) k :
  List.find (λ p, bool_decide (p.1 = k)) l = None ↔ k ∉ l.*1.
Proof.
  induction l as [|[k' v'] r IH]; csimpl.
  - split; [intros _ H; by apply elem_of_nil in H|done].
  - case_bool_decide as Hk; simpl in Hk.
    + subst. split; [done|]. intros H. destruct H. left.
    + rewrite IH, not_elem_of_cons. naive_solver.
Qed.

Lemma newProfCommonCount_max apiData T new :
  newProfCommonCount apiData T new
  = Nat.max 1 (length (filter (λ p, r_name p = new) (T ≫= allProfs apiData))).
Proof.
  unfold newProfCommonCount.
  destruct (List.find _ _) as [[k c]|] eqn:Hfind.
  - apply find_key_Some in Hfind as [Hk Hin]; [|apply NoDup_getProfsForTags].
    simpl in Hk. subst k. apply elem_of_getProfsForTags in Hin as [Hpos <-].
    destruct c; lia.
  - apply find_key_None in Hfind.
    destruct (length _) as [|c] eqn:Hlen; [done|].
    destruct Hfind. apply list_elem_of_fmap. exists (new, S c). split; [done|].
    apply elem_of_getProfsForTags. split; [lia|done].
Qed.

(** X7.  [getProfsForTags] lists a name with count [c] exactly when [c]
    is positive and is the number of times the name occurs in the roster
    lists of the given tags (a tag given twice, or a roster list naming
    somebody twice, counts twice). *)
Theorem X7_getProfsForTags_count apiData T n c :
  (n, c) ∈ getProfsForTags apiData T
  ↔ 0 < c ∧ c = length (filter (λ p, r_name p = n) (T ≫= allProfs apiData)).
Proof. apply elem_of_getProfsForTags. Qed.

(** X8.  [getProfsForTags] lists every name once, in descending order of
    count. *)
Theorem X8_getProfsForTags_sorted apiData T :
  NoDup (getProfsForTags apiData T).*1
  ∧ ∀ i j a b, i < j →
      getProfsForTags apiData T !! i = Some a →
      getProfsForTags apiData T !! j = Some b →
      b.2 ≤ a.2.
Proof.
  split; [apply NoDup_getProfsForTags|].
  intros i j a b Hij Ha Hb.
  pose proof (StronglySorted_js_sort_lookup byCountDesc _ i j a b
                byCountDesc_trans byCountDesc_total Hij Ha Hb) as Hle.
  unfold byCountDesc in Hle. by apply Nat.compare_le_iff.
Qed.

(** X9.  The options of a card and the listener count alike: the list
    computed for the dropdown of a card is the list [getProfsForTags]
    gives for the tags of the card, without the card's own professor.  So
    the count shown in an option is the count the listener finds for the
    chosen name. *)
Theorem X9_profsForDropdown_getProfsForTags apiData teamProf :
  profsForDropdown apiData teamProf
  = filter (λ e, e.1 ≠ name teamProf)
           (getProfsForTags apiData (tags teamProf)).
Proof.
  rewrite getProfsForTags_sort.
  rewrite (filter_js_sort byCountDesc byCountDesc_trans byCountDesc_total).
  unfold profsForDropdown. rewrite foldl_count_others_tags. f_equal.
  symmetry. apply (obj_delete_foldl_countProf []).
Qed.

(** X10.  The count the dropdown listener looks up is never below one
    (one, when the chosen name is not listed for any tag of the card), so
    its test of the count always passes: which tags are moved depends on
    the number of tags of the card only.  A card with more than one tag
    gives its non-blank tags the roster lists the chosen professor for; a
    card with one tag, or none, gives what it has. *)
Theorem X10_tagsToMove_by_length apiData tagsOfOldProf newProfName :
  newProfCommonCount apiData tagsOfOldProf newProfName
  = Nat.max 1 (length (filter (λ p, r_name p = newProfName)
                              (tagsOfOldProf ≫= allProfs apiData)))
  ∧ tagsToMove apiData tagsOfOldProf newProfName
    = if decide (1 < length tagsOfOldProf)
      then filter (λ tg, ¬ isBlank tg ∧ possesses apiData newProfName tg)
                  tagsOfOldProf
      else tagsOfOldProf.
Proof.
  split; [apply newProfCommonCount_max|].
  destruct (decide (1 < length tagsOfOldProf)).
  - by apply tagsToMove_multi.
  - apply tagsToMove_single. lia.
Qed.

(** ** The team built from the response *)

Lemma setTags_setTags p ts ts' : setTags (setTags p ts) ts' = setTags p ts'.
Proof. done. Qed.

Lemma obj_get_addTeamProf st e n :
  obj_get (profMap (addTeamProf st e)) n
  = if decide (name e = n)
    then Some (match obj_get (profMap st) n with
               | Some prof => setTags prof (tags prof ++ tags e)
               | None => e
               end)
    else obj_get (profMap st) n.
Proof.
  unfold addTeamProf.
  destruct (decide (name e = n)) as [<-|Hne].
  - destruct (obj_get (profMap st) (name e)); simpl; apply obj_get_set_eq.
  - destruct (obj_get (profMap st) (name e)); simpl; by apply obj_get_set_ne.
Qed.

Lemma obj_get_foldl_addTeamProf st team n :
  obj_get (profMap (foldl addTeamProf st team)) n
  = let entries := filter (λ e, name e = n) team in
    match obj_get (profMap st) n with
    | Some prof => Some (setTags prof (tags prof ++ concat (tags <$> entries)))
    | None => (λ e, setTags e (concat (tags <$> entries))) <$> head entries
    end.
Proof.
  revert st. induction team as [|e r IH]; intros st; simpl.
  - destruct (obj_get (profMap st) n) as [p|]; [|done].
    by rewrite app_nil_r, setTags_id.
  - rewrite IH, obj_get_addTeamProf, filter_cons. simpl.
    destruct (decide (name e = n)) as [Hn|Hn]; [|done].
    destruct (obj_get (profMap st) n) as [p|]; csimpl.
    + by rewrite setTags_setTags, app_assoc.
    + done.
Qed.

Lemma obj_keys_addTeamProf st e :
  obj_keys (profMap st) = profOrder st →
  obj_keys (profMap (addTeamProf st e)) = profOrder (addTeamProf st e).
Proof.
  intros Hk. unfold addTeamProf.
  destruct (obj_get (profMap st) (name e)) as [p|] eqn:Hget; simpl;
    by rewrite obj_keys_set, Hget, Hk.
Qed.

Lemma obj_keys_foldl_addTeamProf st team :
  obj_keys (profMap st) = profOrder st →
  obj_keys (profMap (foldl addTeamProf st team))
  = profOrder (foldl addTeamProf st team).
Proof.
  revert st. induction team as [|e r IH]; intros st Hk; simpl; [done|].
  by apply IH, obj_keys_addTeamProf.
Qed.

(** X11.  The team [renderResults] builds from [apiData.team]: the
    properties of [profMap] are in the order of [profOrder], and the
    record of a name is the first entry of that name, with the tags of all
    the entries of that name, in their order; a name without entry has no
    record. *)
Theorem X11_buildTeam_records team n :
  obj_keys (profMap (buildTeam team)) = profOrder (buildTeam team)
  ∧ obj_get (profMap (buildTeam team)) n
    = (λ e, setTags e (concat (tags <$> filter (λ e, name e = n) team)))
        <$> head (filter (λ e, name e = n) team).
Proof.
  split.
  - by apply obj_keys_foldl_addTeamProf.
  - unfold buildTeam. by rewrite obj_get_foldl_addTeamProf.
Qed.

(** ** The listeners *)

Section listener_more.
Variable apiData : ApiData.
Implicit Types (st : TeamState) (T : list string).

Lemma tagsOf_step_elem st t st' k tg :
  wf st → sourceHolds st t → step apiData st t = Some st' →
  tg ∈ tagsOf st' k → ∃ k', tg ∈ tagsOf st k'.
Proof.
  intros Hwf Hsrc Hstep Hin.
  apply step_cases in Hstep
    as [->|(old & new & f1 & f2 & fresh & M & F & Hm & Hfresh & _
            & Hf1 & Hf2 & HFM & _ & Ht)]; [by exists k|].
  apply (moveTags_elem _ _ _ _ _ _ _ M F _ _ Hm Hfresh Hf1 Hf2) in Hin
    as [[Hin _]|[<- Hin]]; [by exists k|].
  apply HFM in Hin. exists old.
  destruct t as [profName tag|old' T new'].
  - destruct Ht as (_ & _ & -> & card & Hf).
    apply list_elem_of_singleton in Hin as ->.
    apply findHolder_Some in Hf as [Hg Hc]; [|done].
    unfold tagsOf. by rewrite Hg.
  - destruct Ht as (-> & -> & _ & ->). simpl in Hsrc.
    rewrite Forall_forall in Hsrc.
    by apply Hsrc, (tagsToMove_subseteq apiData T new').
Qed.

Lemma tagsOf_step_kept st t st' k tg :
  ¬ isBlank tg → step apiData st t = Some st' →
  tg ∈ tagsOf st k → ∃ k', tg ∈ tagsOf st' k'.
Proof.
  intros Hnb Hstep Hin.
  apply step_cases in Hstep
    as [->|(old & new & f1 & f2 & fresh & M & F & Hm & Hfresh & _
            & Hf1 & Hf2 & _ & HMF & _)]; [by exists k|].
  destruct (decide (old = k ∧ tg ∈ M)) as [[-> HM]|Hno].
  - exists new. apply (moveTags_elem _ _ _ _ _ _ _ M F _ _ Hm Hfresh Hf1 Hf2).
    right. split; [done|]. by apply HMF.
  - exists k. apply (moveTags_elem _ _ _ _ _ _ _ M F _ _ Hm Hfresh Hf1 Hf2).
    by left.
Qed.

Lemma tagsOf_nonempty_member st k tg : tg ∈ tagsOf st k → member st k.
Proof.
  unfold tagsOf, member. destruct (obj_get (profMap st) k); [by eexists|].
  simpl. intros H. by apply elem_of_nil in H.
Qed.

(** A request of the page that changes the team leaves its destination
    in it. *)
Lemma fired_step_dest st t st' :
  wf st → fired apiData st t → step apiData st t = Some st' →
  st' = st ∨ ∃ new, member st' new.
Proof.
  intros Hwf Hfired Hstep.
  destruct (step_cases _ _ _ _ Hstep)
    as [->|(old & new & f1 & f2 & fresh & M & F & Hm & Hfresh & _
            & _ & _ & _ & _ & Ht)]; [by left|].
  right. exists new.
  apply (moveTags_member _ _ _ _ _ _ _ new Hm Hfresh).
  split; [by left|]. intros ->. exfalso.
  destruct t as [profName tag|old' T new'].
  - by destruct Ht as (_ & ? & _).
  - destruct Ht as (-> & -> & Hn & _).
    by apply fired_dropdown_shares in Hfired as [? _].
Qed.

Lemma fired_after_nonempty st t :
  wf st → fired apiData st t → profOrder st ≠ [] →
  profOrder (after apiData st t) ≠ [].
Proof.
  intros Hwf Hfired Hne.
  destruct (after_cases apiData st t) as [->|Hstep]; [done|].
  pose proof (wf_after apiData st t Hwf) as Hwf'.
  destruct (fired_step_dest _ _ _ Hwf Hfired Hstep) as [Heq|[new Hnew]];
    [by rewrite Heq|].
  apply (wf_member _ Hwf') in Hnew. intros Hnil. rewrite Hnil in Hnew.
  by apply elem_of_nil in Hnew.
Qed.
End listener_more.

(** X12.  A listener throws in one case only: the dropdown listener, for a
    chosen name, when the professor named by [data-current-prof] is not a
    property of [profMap].  The swap listener never throws. *)
Theorem X12_step_throws_iff apiData st t :
  step apiData st t = None
  ↔ ∃ oldProfName tagsOfOldProf newProfName,
      t = DropdownChange oldProfName tagsOfOldProf newProfName
      ∧ newProfName ≠ "" ∧ ¬ member st oldProfName.
Proof. apply step_None. Qed.

(** X13.  In a team reached from the response by requests, a request the
    page can issue (an icon of the tag table, a value of a rendered
    select) does not throw. *)
Theorem X13_fired_request_returns apiData team ts t :
  fired apiData (run apiData (buildTeam team) ts) t →
  is_Some (step apiData (run apiData (buildTeam team) ts) t).
Proof.
  intros Hfired.
  pose proof (wf_run apiData _ ts (wf_buildTeam team)) as Hwf.
  destruct (step apiData _ t) as [st'|] eqn:Hstep; [by eexists|].
  apply step_None in Hstep as (old & T & new & -> & Hn & Hold).
  by apply fired_dropdown in Hfired as [? _].
Qed.

Lemma X13_witness :
  fired apiTwoMembers
    (run apiTwoMembers (buildTeam (team apiTwoMembers)) [SwapIcon "Cid" "db"])
    (DropdownChange "Ann" ["ml"; "nlp"] "Bob")
  ∧ is_Some (step apiTwoMembers
               (run apiTwoMembers (buildTeam (team apiTwoMembers))
                  [SwapIcon "Cid" "db"])
               (DropdownChange "Ann" ["ml"; "nlp"] "Bob")).
Proof.
  assert (fired apiTwoMembers
    (run apiTwoMembers (buildTeam (team apiTwoMembers)) [SwapIcon "Cid" "db"])
    (DropdownChange "Ann" ["ml"; "nlp"] "Bob")) as Hfired
    by (apply (bool_decide_unpack _); by vm_compute).
  split; [done|].
  exact (X13_fired_request_returns apiTwoMembers (team apiTwoMembers)
           [SwapIcon "Cid" "db"] (DropdownChange "Ann" ["ml"; "nlp"] "Bob")
           Hfired).
Defined.

(** X14.  The shape of the team is kept by every run of requests from the
    team built from the response: [profOrder] has no duplicate, [profMap]
    has one property per name, the names of [profOrder] are the
    properties of [profMap], and every record sits under its own name. *)
Theorem X14_team_shape_kept apiData team ts :
  let st := run apiData (buildTeam team) ts in
  NoDup (profOrder st)
  ∧ NoDup (obj_keys (profMap st))
  ∧ (∀ n, n ∈ profOrder st ↔ is_Some (obj_get (profMap st) n))
  ∧ (∀ k p, obj_get (profMap st) k = Some p → name p = k).
Proof.
  intros st.
  destruct (wf_run apiData _ ts (wf_buildTeam team)) as [H1 H2 H3 H4].
  by split_and!.
Qed.

(** X15.  A request only touches its source and its destination: the
    record of anybody else is as before.  For the dropdown these are the
    professor of the card and the chosen one; for a swap icon, the
    professor of the icon and the holder of the tag. *)
Theorem X15_others_untouched apiData st t k :
  wf st →
  match t with
  | SwapIcon profName tag => k ≠ profName ∧ tag ∉ tagsOf st k
  | DropdownChange oldProfName _ newProfName =>
      k ≠ oldProfName ∧ k ≠ newProfName
  end →
  obj_get (profMap (after apiData st t)) k = obj_get (profMap st) k.
Proof.
  intros Hwf Hk.
  destruct (after_cases apiData st t) as [->|Hstep]; [done|].
  destruct (step_cases _ _ _ _ Hstep)
    as [->|(old & new & f1 & f2 & fresh & M & F & Hm & _ & _
            & _ & _ & _ & _ & Ht)]; [done|].
  apply (moveTags_other _ _ _ _ _ _ _ k Hm).
  - destruct t as [profName tag|old' T new'].
    + destruct Ht as (_ & _ & _ & card & Hf), Hk as [_ Hk].
      intros ->. apply Hk.
      apply findHolder_Some in Hf as [Hg Hc]; [|done].
      unfold tagsOf. by rewrite Hg.
    + destruct Ht as (-> & _). by destruct Hk.
  - destruct t as [profName tag|old' T new'].
    + destruct Ht as (-> & _). by destruct Hk.
    + destruct Ht as (_ & -> & _). by destruct Hk.
Qed.

Lemma X15_witness :
  wf (buildTeam (team apiTwoMembers))
  ∧ ("Ann" ≠ "Cid" ∧ "db" ∉ tagsOf (buildTeam (team apiTwoMembers)) "Ann")
  ∧ obj_get (profMap (after apiTwoMembers (buildTeam (team apiTwoMembers))
                        (SwapIcon "Cid" "db"))) "Ann"
    = obj_get (profMap (buildTeam (team apiTwoMembers))) "Ann".
Proof.
  pose proof (wf_buildTeam (team apiTwoMembers)) as Hwf.
  assert ("Ann" ≠ "Cid" ∧ "db" ∉ tagsOf (buildTeam (team apiTwoMembers)) "Ann")
    as Hk by (apply (bool_decide_unpack _); by vm_compute).
  split; [exact Hwf|]. split; [exact Hk|].
  exact (X15_others_untouched apiTwoMembers (buildTeam (team apiTwoMembers))
           (SwapIcon "Cid" "db") "Ann" Hwf Hk).
Defined.

(** X16.  Requests invent no tag.  When the source of every dropdown
    request holds the tags the request carries (as every request issued
    by the page does), a tag found under somebody after a run of requests
    was under somebody before it. *)
Theorem X16_no_tag_invented apiData st ts k tg :
  wf st → sourceHoldsRun apiData st ts →
  tg ∈ tagsOf (run apiData st ts) k → ∃ k', tg ∈ tagsOf st k'.
Proof.
  revert st k. induction ts as [|t r IH]; intros st k Hwf Hsrc Hin.
  - by exists k.
  - destruct Hsrc as [Ht Hr]. simpl in Hin.
    apply IH in Hin as [k1 Hin]; [|by apply wf_after|done].
    destruct (after_cases apiData st t) as [Heq|Hstep].
    + rewrite Heq in Hin. by exists k1.
    + by apply (tagsOf_step_elem apiData st t _ k1 tg Hwf Ht Hstep).
Qed.

Lemma X16_witness :
  wf (buildTeam (team apiTwoMembers))
  ∧ sourceHoldsRun apiTwoMembers (buildTeam (team apiTwoMembers))
      [DropdownChange "Ann" ["ml"; "nlp"] "Bob"; SwapIcon "Cid" "db"]
  ∧ "ml" ∈ tagsOf (run apiTwoMembers (buildTeam (team apiTwoMembers))
                     [DropdownChange "Ann" ["ml"; "nlp"] "Bob";
                      SwapIcon "Cid" "db"]) "Bob"
  ∧ ∃ k', "ml" ∈ tagsOf (buildTeam (team apiTwoMembers)) k'.
Proof.
  pose proof (wf_buildTeam (team apiTwoMembers)) as Hwf.
  assert (sourceHoldsRun apiTwoMembers (buildTeam (team apiTwoMembers))
      [DropdownChange "Ann" ["ml"; "nlp"] "Bob"; SwapIcon "Cid" "db"]) as Hsrc
    by (apply (bool_decide_unpack _); by vm_compute).
  assert ("ml" ∈ tagsOf (run apiTwoMembers (buildTeam (team apiTwoMembers))
                     [DropdownChange "Ann" ["ml"; "nlp"] "Bob";
                      SwapIcon "Cid" "db"]) "Bob") as Hin
    by (apply (bool_decide_unpack _); by vm_compute).
  split_and!; [done..|].
  exact (X16_no_tag_invented apiTwoMembers _ _ "Bob" "ml" Hwf Hsrc Hin).
Defined.

(** X17.  Requests lose no proper tag: a tag that is not blank and is
    under somebody before a run of requests is under somebody after it,
    whatever the requests. *)
Theorem X17_nonblank_tag_kept apiData st ts k tg :
  ¬ isBlank tg → tg ∈ tagsOf st k →
  ∃ k', tg ∈ tagsOf (run apiData st ts) k'.
Proof.
  intros Hnb. revert st k. induction ts as [|t r IH]; intros st k Hin.
  - by exists k.
  - simpl. destruct (after_cases apiData st t) as [Heq|Hstep].
    + rewrite Heq. by apply (IH st k).
    + destruct (tagsOf_step_kept apiData st t _ k tg Hnb Hstep Hin)
        as [k1 Hin1].
      by apply (IH _ k1).
Qed.

Lemma X17_witness :
  ¬ isBlank "nlp"
  ∧ "nlp" ∈ tagsOf (buildTeam (team apiTwoMembers)) "Ann"
  ∧ ∃ k', "nlp" ∈ tagsOf (run apiTwoMembers (buildTeam (team apiTwoMembers))
                            [SwapIcon "Cid" "db";
                             DropdownChange "Ann" ["nlp"] "Dan"]) k'.
Proof.
  assert (¬ isBlank "nlp") as Hnb
    by (apply (bool_decide_unpack _); by vm_compute).
  assert ("nlp" ∈ tagsOf (buildTeam (team apiTwoMembers)) "Ann") as Hin
    by (apply (bool_decide_unpack _); by vm_compute).
  split_and!; [done..|].
  exact (X17_nonblank_tag_kept apiTwoMembers _
           [SwapIcon "Cid" "db"; DropdownChange "Ann" ["nlp"] "Dan"]
           "Ann" "nlp" Hnb Hin).
Defined.

(** X18.  The page cannot empty the team: after a run of requests issued
    by the page on a team with a member, the team has a member. *)
Theorem X18_team_never_empty apiData st ts :
  wf st → firedRun apiData st ts → profOrder st ≠ [] →
  profOrder (run apiData st ts) ≠ [].
Proof.
  revert st. induction ts as [|t r IH]; intros st Hwf Hfired Hne; [done|].
  destruct Hfired as [Ht Hr]. simpl. apply IH; [by apply wf_after|done|].
  by apply fired_after_nonempty.
Qed.

Lemma X18_witness :
  wf (buildTeam (team apiBackAndForth))
  ∧ firedRun apiBackAndForth (buildTeam (team apiBackAndForth))
      [SwapIcon "Bob" "ml"; SwapIcon "Ann" "ml"]
  ∧ profOrder (buildTeam (team apiBackAndForth)) ≠ []
  ∧ profOrder (run apiBackAndForth (buildTeam (team apiBackAndForth))
                 [SwapIcon "Bob" "ml"; SwapIcon "Ann" "ml"]) ≠ [].
Proof.
  pose proof (wf_buildTeam (team apiBackAndForth)) as Hwf.
  assert (firedRun apiBackAndForth (buildTeam (team apiBackAndForth))
      [SwapIcon "Bob" "ml"; SwapIcon "Ann" "ml"]) as Hfired
    by (apply (bool_decide_unpack _); by vm_compute).
  assert (profOrder (buildTeam (team apiBackAndForth)) ≠ []) as Hne by done.
  split_and!; [done..|].
  exact (X18_team_never_empty apiBackAndForth _ _ Hwf Hfired Hne).
Defined.

(** ** Newcomers *)

Lemma moveTags_newcomer_record st old new f1 f2 fresh st' :
  moveTags st old new f1 f2 fresh = Some st' → ¬ member st new →
  obj_get (profMap st') new = Some (setTags fresh (f2 (tags fresh))).
Proof.
  intros Hm Hnew.
  pose proof (moveTags_member_old _ _ _ _ _ _ _ Hm) as Hold.
  assert (old ≠ new) as Hne by (by intros ->).
  apply moveTags_inv in Hm as (p3 & _ & _ & Hget & _).
  rewrite Hget, decide_False by naive_solver.
  unfold movedProf. rewrite decide_True by done.
  unfold takenProf. rewrite decide_False by done.
  destruct (obj_get (profMap st) new) as [q|] eqn:Hq; [|done].
  destruct Hnew. by exists q.
Qed.

Lemma moveTags_newcomer_order st old new f1 f2 fresh st' :
  wf st → moveTags st old new f1 f2 fresh = Some st' → tags fresh = [] →
  ¬ member st new →
  ∃ l1 l2, profOrder st = l1 ++ old :: l2
           ∧ profOrder st'
             = l1 ++ (if decide (tagsOf st' old = []) then [] else [old])
                  ++ new :: l2.
Proof.
  intros Hwf Hm Hfresh Hnew.
  pose proof (moveTags_member_old _ _ _ _ _ _ _ Hm) as Hold.
  assert (old ≠ new) as Hne by (by intros ->).
  rewrite (moveTags_order _ _ _ _ _ _ _ Hwf Hm Hfresh). unfold movedOrder.
  destruct (obj_get (profMap st) new) as [q|] eqn:Hq;
    [destruct Hnew; by exists q|].
  assert (old ∈ profOrder st) as Hin by by apply (wf_member _ Hwf).
  destruct (splice0_indexAfter (profOrder st) old new Hin)
    as (l1 & l2 & Heq & Hl1 & ->).
  exists l1, l2. split; [done|].
  pose proof (wf_order _ Hwf) as Hnd. rewrite Heq in Hnd.
  apply NoDup_app in Hnd as (_ & Hl12 & [Hl2 _]%NoDup_cons).
  rewrite filter_around.
  - repeat case_decide; naive_solver.
  - intros x Hx ->. done.
  - intros x Hx ->. done.
  - intros ->. done.
Qed.

Section newcomers.
Variable apiData : ApiData.

Lemma findProf_Some profName tg r :
  findProf apiData profName tg = Some r →
  r ∈ allProfs apiData tg ∧ r_name r = profName.
Proof.
  intros [Hin Hr]%find_some. split; [by apply list_elem_of_In|].
  by apply bool_decide_eq_true in Hr.
Qed.

Lemma findProf_None profName tg :
  findProf apiData profName tg = None → ¬ possesses apiData profName tg.
Proof.
  intros Hnone Hp. apply Is_true_true, existsb_exists in Hp as (r & Hin & Hr).
  by rewrite (find_none _ _ Hnone r Hin) in Hr.
Qed.

Lemma findProf_is_Some profName tg :
  profName ∈ r_name <$> allProfs apiData tg →
  is_Some (findProf apiData profName tg).
Proof.
  intros Hin. destruct (findProf apiData profName tg) eqn:Hf; [by eexists|].
  apply findProf_None in Hf. destruct Hf. by apply possesses_spec.
Qed.

Lemma findDetails_Some tgs newProfName r :
  findDetails apiData tgs newProfName = Some r →
  ∃ tg, tg ∈ tgs ∧ ¬ isBlank tg
        ∧ r ∈ allProfs apiData tg ∧ r_name r = newProfName.
Proof.
  induction tgs as [|tg rest IH]; simpl; [done|].
  destruct (isBlank tg) eqn:Hb.
  - intros (tg' & ? & ?)%IH. exists tg'. split; [by right|done].
  - destruct (findProf apiData newProfName tg) as [found|] eqn:Hf.
    + intros [= ->]. apply findProf_Some in Hf as [? ?].
      exists tg. split_and!; [left|rewrite Hb; by intros []|done..].
    + intros (tg' & ? & ?)%IH. exists tg'. split; [by right|done].
Qed.

Lemma findDetails_None tgs newProfName :
  findDetails apiData tgs newProfName = None →
  ∀ tg, tg ∈ tgs → ¬ isBlank tg → ¬ possesses apiData newProfName tg.
Proof.
  induction tgs as [|tg rest IH]; simpl; intros Hnone tg' Hin Hnb.
  - by apply elem_of_nil in Hin.
  - destruct (isBlank tg) eqn:Hb.
    + apply elem_of_cons in Hin as [->|Hin]; [destruct Hnb; by rewrite Hb|].
      by apply IH.
    + destruct (findProf apiData newProfName tg) as [found|] eqn:Hf; [done|].
      apply elem_of_cons in Hin as [->|Hin]; [by apply findProf_None|].
      by apply IH.
Qed.
End newcomers.

(** X19.  Somebody who joins the team through a dropdown is put right
    after the professor of the card, and takes that place when the card
    has lost its last tag: the rest of the order is untouched. *)
Theorem X19_dropdown_newcomer_position apiData st old T new st' :
  wf st → new ≠ "" → ¬ member st new →
  dropdownListener apiData st old T new = Some st' →
  ∃ l1 l2, profOrder st = l1 ++ old :: l2
           ∧ profOrder st'
             = l1 ++ (if decide (tagsOf st' old = []) then [] else [old])
                  ++ new :: l2.
Proof.
  intros Hwf Hn Hnew. rewrite dropdownListener_moveTags by done. intros Hm.
  by apply (moveTags_newcomer_order _ _ _ _ _ _ _ Hwf Hm).
Qed.

Lemma X19_witness :
  wf (buildTeam (team apiTwoTags))
  ∧ "Cid" ≠ "" ∧ ¬ member (buildTeam (team apiTwoTags)) "Cid"
  ∧ dropdownListener apiTwoTags (buildTeam (team apiTwoTags))
      "Ann" ["ml"; "nlp"] "Cid"
    = Some {| profOrder := ["Ann"; "Cid"];
              profMap := [("Ann", teamProf "Ann" ["nlp"]);
                          ("Cid", teamProf "Cid" ["ml"])] |}
  ∧ ∃ l1 l2, ["Ann"] = l1 ++ "Ann" :: l2
             ∧ ["Ann"; "Cid"] = l1 ++ ["Ann"] ++ "Cid" :: l2.
Proof.
  pose proof (wf_buildTeam (team apiTwoTags)) as Hwf.
  assert ("Cid" ≠ "") as Hn by done.
  assert (¬ member (buildTeam (team apiTwoTags)) "Cid") as Hnew
    by (apply (bool_decide_unpack _); by vm_compute).
  assert (dropdownListener apiTwoTags (buildTeam (team apiTwoTags))
            "Ann" ["ml"; "nlp"] "Cid"
          = Some {| profOrder := ["Ann"; "Cid"];
                    profMap := [("Ann", teamProf "Ann" ["nlp"]);
                                ("Cid", teamProf "Cid" ["ml"])] |})
    as Hstep by reflexivity.
  split_and!; [done..|].
  exact (X19_dropdown_newcomer_position apiTwoTags _ "Ann" ["ml"; "nlp"]
           "Cid" _ Hwf Hn Hnew Hstep).
Defined.

(** X20.  Somebody who joins the team through a swap icon of the tag
    table gets the tag of the row as the only tag, and the department and
    the profile link of the first entry of that name in the roster list
    of the tag; position and Scholar link are left empty, whatever the
    roster says. *)
Theorem X20_swap_newcomer_record apiData st profName tag old card :
  findHolder st tag = Some (old, card) → ¬ member st profName →
  profName ∈ r_name <$> allProfs apiData tag →
  ∃ st' r, swapListener apiData st profName tag = Some st'
    ∧ r ∈ allProfs apiData tag ∧ r_name r = profName
    ∧ obj_get (profMap st') profName
      = Some {| name := profName; department := r_department r;
                base_url := r_base_url r; position := "";
                google_scholar_url := ""; score := None; tags := [tag] |}.
Proof.
  intros Hf Hnew Hin.
  pose proof (findHolder_member _ _ _ _ Hf) as Hold.
  assert (profName ≠ old) as Hne by (by intros ->).
  rewrite (swapListener_moveTags apiData st profName tag old card Hf Hne).
  destruct (moveTags_is_Some st old profName (filter (λ tg, tg ≠ tag))
              (λ ts, ts ++ [tag]) (swapNewProf apiData tag profName) Hold)
    as [st' Hm].
  destruct (findProf_is_Some apiData profName tag Hin) as [r Hr].
  exists st', r. split; [done|].
  destruct (findProf_Some _ _ _ _ Hr) as [Hrin Hrn]. split_and!; [done..|].
  rewrite (moveTags_newcomer_record _ _ _ _ _ _ _ Hm Hnew).
  unfold swapNewProf, setTags. simpl. by rewrite Hr.
Qed.

Lemma X20_witness :
  findHolder (buildTeam (team apiTwoMembers)) "db"
  = Some ("Bob", teamProf "Bob" ["db"])
  ∧ ¬ member (buildTeam (team apiTwoMembers)) "Cid"
  ∧ "Cid" ∈ r_name <$> allProfs apiTwoMembers "db"
  ∧ ∃ st' r, swapListener apiTwoMembers (buildTeam (team apiTwoMembers))
               "Cid" "db" = Some st'
    ∧ r ∈ allProfs apiTwoMembers "db" ∧ r_name r = "Cid"
    ∧ obj_get (profMap st') "Cid"
      = Some {| name := "Cid"; department := r_department r;
                base_url := r_base_url r; position := "";
                google_scholar_url := ""; score := None; tags := ["db"] |}.
Proof.
  assert (findHolder (buildTeam (team apiTwoMembers)) "db"
          = Some ("Bob", teamProf "Bob" ["db"])) as Hf by reflexivity.
  assert (¬ member (buildTeam (team apiTwoMembers)) "Cid") as Hnew
    by (apply (bool_decide_unpack _); by vm_compute).
  assert ("Cid" ∈ r_name <$> allProfs apiTwoMembers "db") as Hin
    by (apply (bool_decide_unpack _); by vm_compute).
  split_and!; [done..|].
  exact (X20_swap_newcomer_record apiTwoMembers _ "Cid" "db" "Bob" _
           Hf Hnew Hin).
Defined.

(** X21.  Somebody who joins the team through a dropdown gets the
    non-blank tags among those moved, each once, and no score.  The
    department, profile link, position and Scholar link are those of a
    roster entry of that name, listed for a non-blank moved tag, when
    there is one; otherwise all four are empty. *)
Theorem X21_dropdown_newcomer_record apiData st old T new :
  new ≠ "" → member st old → ¬ member st new →
  ∃ st' p, dropdownListener apiData st old T new = Some st'
    ∧ obj_get (profMap st') new = Some p
    ∧ name p = new ∧ score p = None
    ∧ tags p = uniq (filter (λ tg, ¬ isBlank tg) (tagsToMove apiData T new))
    ∧ ((∃ tg r, tg ∈ tagsToMove apiData T new ∧ ¬ isBlank tg
                ∧ r ∈ allProfs apiData tg ∧ r_name r = new
                ∧ department p = r_department r
                ∧ base_url p = r_base_url r
                ∧ position p = r_position r
                ∧ google_scholar_url p = r_google_scholar_url r)
       ∨ ((∀ tg, tg ∈ tagsToMove apiData T new → ¬ isBlank tg →
                 ¬ possesses apiData new tg)
          ∧ department p = "" ∧ base_url p = ""
          ∧ position p = "" ∧ google_scholar_url p = "")).
Proof.
  intros Hn Hold Hnew.
  destruct (dropdownListener_is_Some apiData st old T new Hold) as [st' Hd].
  exists st'. eexists. split; [done|].
  rewrite dropdownListener_moveTags in Hd by done.
  rewrite (moveTags_newcomer_record _ _ _ _ _ _ _ Hd Hnew).
  split; [done|]. simpl. split_and!; [done..|by rewrite arrayFromSet_uniq|].
  destruct (findDetails apiData (tagsToMove apiData T new) new) as [r|] eqn:Hfd.
  - left. apply findDetails_Some in Hfd as (tg & ? & ? & ? & ?).
    by exists tg, r.
  - right. split; [|done]. by apply findDetails_None.
Qed.

Lemma X21_witness :
  "Bob" ≠ "" ∧ member (buildTeam (team apiOneTag)) "Ann"
  ∧ ¬ member (buildTeam (team apiOneTag)) "Bob"
  ∧ ∃ st' p, dropdownListener apiOneTag (buildTeam (team apiOneTag))
               "Ann" ["ml"] "Bob" = Some st'
    ∧ obj_get (profMap st') "Bob" = Some p
    ∧ name p = "Bob" ∧ tags p = ["ml"].
Proof.
  assert ("Bob" ≠ "") as Hn by done.
  assert (member (buildTeam (team apiOneTag)) "Ann") as Hold
    by (apply (bool_decide_unpack _); by vm_compute).
  assert (¬ member (buildTeam (team apiOneTag)) "Bob") as Hnew
    by (apply (bool_decide_unpack _); by vm_compute).
  split_and!; [done..|].
  destruct (X21_dropdown_newcomer_record apiOneTag _ "Ann" ["ml"] "Bob"
              Hn Hold Hnew) as (st' & p & Hd & Hp & Hname & _ & Htags & _).
  exists st', p. split_and!; [done..|].
  rewrite Htags. reflexivity.
Defined.

(** X22.  The search of the swap listener through the properties of
    [profMap] does not depend on their order when no tag is under two
    members: it finds a professor exactly when that professor holds the
    tag. *)
Theorem X22_findHolder_unique st tag k p :
  wf st → uniqueHolders st →
  findHolder st tag = Some (k, p)
  ↔ obj_get (profMap st) k = Some p ∧ tag ∈ tags p.
Proof.
  intros Hwf Hu. split; [by apply findHolder_Some|].
  intros [Hg Hin].
  assert (tag ∈ tagsOf st k) as Hk by (unfold tagsOf; by rewrite Hg).
  destruct (findHolder_is_Some st tag k Hk) as [[k' p'] Hf].
  destruct (findHolder_Some st tag k' p' Hwf Hf) as [Hg' Hin'].
  assert (k' = k) as ->.
  { apply (Hu k' k tag); [|done]. unfold tagsOf. by rewrite Hg'. }
  rewrite Hg in Hg'. by injection Hg' as ->.
Qed.

Lemma X22_witness :
  wf (buildTeam (team apiTwoMembers))
  ∧ uniqueHolders (buildTeam (team apiTwoMembers))
  ∧ (findHolder (buildTeam (team apiTwoMembers)) "db"
     = Some ("Bob", teamProf "Bob" ["db"])
     ↔ obj_get (profMap (buildTeam (team apiTwoMembers))) "Bob"
       = Some (teamProf "Bob" ["db"])
       ∧ "db" ∈ tags (teamProf "Bob" ["db"])).
Proof.
  pose proof (wf_buildTeam (team apiTwoMembers)) as Hwf.
  assert (uniqueHolders (buildTeam (team apiTwoMembers))) as Hu.
  { apply uniqueHolders_buildTeam.
    apply (bool_decide_unpack _). by vm_compute. }
  split_and!; [done..|].
  exact (X22_findHolder_unique _ "db" "Bob" (teamProf "Bob" ["db"]) Hwf Hu).
Defined.

(** ** What the cards offer *)

Section cards.
Variable apiData : ApiData.
Implicit Types (st : TeamState).

Lemma renderSelect_Some teamProf sel :
  renderSelect apiData teamProf = Some sel ↔
  tags teamProf ≠ []
  ∧ sel = {| data_current_prof := name teamProf;
             data_tags := tags teamProf;
             options := "" :: (profsForDropdown apiData teamProf).*1 |}.
Proof.
  unfold renderSelect. destruct (tags teamProf) eqn:Ht; [naive_solver|].
  split; [intros [= <-]|intros [_ ->]]; done.
Qed.

Lemma elem_of_renderTeamCards st sel :
  wf st →
  sel ∈ renderTeamCards apiData st
  ↔ ∃ p, obj_get (profMap st) (data_current_prof sel) = Some p
         ∧ tags p ≠ []
         ∧ sel = {| data_current_prof := name p; data_tags := tags p;
                    options := "" :: (profsForDropdown apiData p).*1 |}.
Proof.
  intros Hwf. unfold renderTeamCards. rewrite list_elem_of_omap. split.
  - intros (n & Hn & Hsel).
    destruct (obj_get (profMap st) n) as [p|] eqn:Hp; [|done]. simpl in Hsel.
    apply renderSelect_Some in Hsel as [Ht ->]. simpl.
    exists p. by rewrite (wf_name _ Hwf _ _ Hp).
  - intros (p & Hp & Ht & Hsel). exists (data_current_prof sel).
    split; [apply (wf_member _ Hwf); by eexists|].
    rewrite Hp. simpl. by apply renderSelect_Some.
Qed.

Lemma current_prof_omap st (l : list string) :
  wf st →
  data_current_prof
    <$> omap (λ profName, obj_get (profMap st) profName
                          ≫= renderSelect apiData) l
  = filter (λ n, tagsOf st n ≠ []) l.
Proof.
  intros Hwf. induction l as [|n r IH]; [done|].
  rewrite filter_cons. csimpl.
  assert (tagsOf st n = from_option tags [] (obj_get (profMap st) n)) as Htg
    by done.
  destruct (obj_get (profMap st) n) as [p|] eqn:Hp; simpl in Htg; csimpl.
  - unfold renderSelect at 1. destruct (tags p) eqn:Ht; csimpl.
    + by rewrite decide_False by (rewrite Htg; by intros ?).
    + rewrite decide_True by (by rewrite Htg). csimpl.
      by rewrite IH, (wf_name _ Hwf _ _ Hp).
  - by rewrite decide_False by (rewrite Htg; by intros ?).
Qed.

Lemma elem_of_profsForDropdown_names teamProf new :
  new ∈ (profsForDropdown apiData teamProf).*1
  ↔ new ≠ name teamProf
    ∧ ∃ tg, tg ∈ tags teamProf ∧ possesses apiData new tg.
Proof.
  unfold profsForDropdown.
  rewrite (fmap_Permutation fst _ _ (js_sort_Permutation byCountDesc _)).
  rewrite (keys_count_tags apiData (name teamProf) (tags teamProf) [] new).
  split; [intros [H|H]; [by apply elem_of_nil in H|done]|by right].
Qed.
End cards.

(** X23.  [renderTeamCards] gives a dropdown to the members that have a
    tag, and to them only, in the order of the cards; a dropdown carries
    the name and the tags of its member, and its first option is the
    empty one ("Show more options..."). *)
Theorem X23_renderTeamCards_selects apiData st :
  wf st →
  data_current_prof <$> renderTeamCards apiData st
  = filter (λ n, tagsOf st n ≠ []) (profOrder st)
  ∧ Forall (λ sel, data_tags sel = tagsOf st (data_current_prof sel)
                   ∧ head (options sel) = Some "")
           (renderTeamCards apiData st).
Proof.
  intros Hwf. split; [by apply current_prof_omap|].
  apply Forall_forall. intros sel Hsel.
  apply elem_of_renderTeamCards in Hsel as (p & Hp & _ & Hsel); [|done].
  unfold tagsOf. rewrite Hp. by rewrite Hsel.
Qed.

Lemma X23_witness :
  wf (buildTeam (team apiTwoMembers))
  ∧ data_current_prof
      <$> renderTeamCards apiTwoMembers (buildTeam (team apiTwoMembers))
    = ["Ann"; "Bob"].
Proof.
  pose proof (wf_buildTeam (team apiTwoMembers)) as Hwf.
  split; [done|].
  rewrite (proj1 (X23_renderTeamCards_selects apiTwoMembers _ Hwf)).
  reflexivity.
Defined.

(** X24.  What a dropdown offers: besides the empty option, exactly the
    professors other than the card's own that the roster lists for at
    least one tag of the card. *)
Theorem X24_dropdown_options apiData st sel new :
  wf st → sel ∈ renderTeamCards apiData st →
  new ∈ options sel
  ↔ new = ""
    ∨ (new ≠ data_current_prof sel
       ∧ ∃ tg, tg ∈ data_tags sel ∧ possesses apiData new tg).
Proof.
  intros Hwf Hsel.
  apply elem_of_renderTeamCards in Hsel as (p & Hp & _ & ->); [|done].
  simpl. by rewrite elem_of_cons, elem_of_profsForDropdown_names.
Qed.

Lemma X24_witness :
  wf (buildTeam (team apiTwoMembers))
  ∧ {| data_current_prof := "Ann"; data_tags := ["ml"; "nlp"];
       options := [""; "Bob"] |}
    ∈ renderTeamCards apiTwoMembers (buildTeam (team apiTwoMembers))
  ∧ ("Bob" ∈ [""; "Bob"]
     ↔ "Bob" = ""
       ∨ ("Bob" ≠ "Ann"
          ∧ ∃ tg, tg ∈ ["ml"; "nlp"] ∧ possesses apiTwoMembers "Bob" tg)).
Proof.
  pose proof (wf_buildTeam (team apiTwoMembers)) as Hwf.
  assert ({| data_current_prof := "Ann"; data_tags := ["ml"; "nlp"];
             options := [""; "Bob"] |}
          ∈ renderTeamCards apiTwoMembers (buildTeam (team apiTwoMembers)))
    as Hsel by (vm_compute; left).
  split_and!; [done..|].
  exact (X24_dropdown_options apiTwoMembers _ _ "Bob" Hwf Hsel).
Defined.

(** ** The page *)

Lemma pageRun_snoc es e : pageRun (es ++ [e]) = pageStep (pageRun es) e.
Proof. unfold pageRun. by rewrite foldl_app. Qed.

(** The tabs and the two result sections are as in [index.html] in team
    mode, and as after a first click on the individual tab otherwise. *)
Lemma pageRun_mode es :
  (currentMode (pageRun es) = "team"
   ∧ teamTab (pageRun es) = teamTab initialPage
   ∧ individualTab (pageRun es) = individualTab initialPage
   ∧ teamResultsSection (pageRun es) = teamResultsSection initialPage
   ∧ individualResultsSection (pageRun es)
     = individualResultsSection initialPage)
  ∨ (currentMode (pageRun es) = "individual"
     ∧ teamTab (pageRun es) = teamTab (switchTab initialPage "individual")
     ∧ individualTab (pageRun es)
       = individualTab (switchTab initialPage "individual")
     ∧ teamResultsSection (pageRun es)
       = teamResultsSection (switchTab initialPage "individual")
     ∧ individualResultsSection (pageRun es)
       = individualResultsSection (switchTab initialPage "individual")).
Proof.
  induction es as [|e es IH] using rev_ind.
  - left. split_and!; reflexivity.
  - rewrite pageRun_snoc.
    destruct e; unfold pageStep.
    + page_fields. exact IH.
    + left. generalize dependent (pageRun es). intros pg IH.
      unfold switchTab. rewrite decide_True by done. page_fields.
      destruct IH as [(_ & -> & -> & -> & ->)|(_ & -> & -> & -> & ->)];
        split_and!; closed_eq.
    + right. generalize dependent (pageRun es). intros pg IH.
      set (pg1 := switchTab initialPage "individual") in *.
      unfold switchTab. rewrite decide_False by done. page_fields.
      destruct IH as [(_ & -> & -> & -> & ->)|(_ & -> & -> & -> & ->)];
        split_and!; closed_eq.
    + left. unfold handleClearClick. page_fields.
      destruct IH as [(_ & -> & -> & -> & ->)|(_ & -> & -> & -> & ->)];
        split_and!; closed_eq.
    + unfold analyzeProblem. page_fields. exact IH.
    + unfold tagTableTimeout. page_fields. exact IH.
Qed.

Lemma classList_add_remove_add (c : gset string) (P G : list string) :
  classList_remove (classList_add (classList_add (classList_remove c P) G) P) G
  = classList_remove (classList_add c P) G.
Proof. class_lists. Qed.

Lemma classList_remove_add_remove (c : gset string) (P G : list string) :
  classList_add (classList_remove (classList_remove (classList_add c P) G) P) G
  = classList_add (classList_remove c P) G.
Proof. class_lists. Qed.

Lemma classList_add_add (c : gset string) (P G : list string) :
  classList_remove (classList_add (classList_remove (classList_add c P) G) P) G
  = classList_remove (classList_add c P) G.
Proof. class_lists. Qed.

Lemma classList_remove_remove (c : gset string) (P G : list string) :
  classList_add (classList_remove (classList_add (classList_remove c P) G) P) G
  = classList_add (classList_remove c P) G.
Proof. class_lists. Qed.

Lemma classList_add_after_remove (c : gset string) (H : list string) :
  classList_add (classList_remove c H) H = classList_add c H.
Proof. class_lists. Qed.

Lemma classList_remove_after_add (c : gset string) (H : list string) :
  classList_remove (classList_add c H) H = classList_remove c H.
Proof. class_lists. Qed.

Lemma classList_add_idemp (c : gset string) (H : list string) :
  classList_add (classList_add c H) H = classList_add c H.
Proof. class_lists. Qed.

Lemma classList_remove_idemp (c : gset string) (H : list string) :
  classList_remove (classList_remove c H) H = classList_remove c H.
Proof. class_lists. Qed.

Lemma page_ext (pg1 pg2 : Page) :
  problemInput_value pg1 = problemInput_value pg2 →
  teamTab pg1 = teamTab pg2 →
  individualTab pg1 = individualTab pg2 →
  teamResultsSection pg1 = teamResultsSection pg2 →
  individualResultsSection pg1 = individualResultsSection pg2 →
  tagTableContainer pg1 = tagTableContainer pg2 →
  filterSortBar pg1 = filterSortBar pg2 →
  tabNavigation pg1 = tabNavigation pg2 →
  currentResults pg1 = currentResults pg2 →
  currentApiData pg1 = currentApiData pg2 →
  currentMode pg1 = currentMode pg2 →
  pg1 = pg2.
Proof. destruct pg1, pg2. page_fields. by intros; subst. Qed.

(** The three elements a click on Clear hides again have, but for
    [hidden], the classes of [index.html]. *)
Lemma pageRun_hidden es :
  classList_add (tagTableContainer (pageRun es)) ["hidden"]
  = tagTableContainer initialPage
  ∧ classList_add (filterSortBar (pageRun es)) ["hidden"]
    = filterSortBar initialPage
  ∧ classList_add (tabNavigation (pageRun es)) ["hidden"]
    = tabNavigation initialPage.
Proof.
  induction es as [|e es IH] using rev_ind.
  - split_and!; closed_eq.
  - rewrite pageRun_snoc.
    generalize dependent (pageRun es). intros pg IH.
    destruct e; unfold pageStep.
    + page_fields. exact IH.
    + unfold switchTab. rewrite decide_True by done. page_fields. exact IH.
    + unfold switchTab. rewrite decide_False by done. page_fields. exact IH.
    + unfold handleClearClick. page_fields.
      rewrite !classList_add_idemp. exact IH.
    + unfold analyzeProblem. page_fields.
      rewrite !classList_add_after_remove. exact IH.
    + unfold tagTableTimeout. page_fields.
      rewrite !classList_add_after_remove. exact IH.
Qed.

(** X25.  After [switchTab] and [handleClearClick]: whatever has
    happened to the page, [currentMode] is one of the two modes, the
    section of that mode is shown and the other hidden, and the tab of
    that mode has the purple classes and the other the gray ones. *)
Theorem X25_page_follows_mode es :
  let pg := pageRun es in
  (currentMode pg = "team" ∨ currentMode pg = "individual")
  ∧ ("hidden" ∈ teamResultsSection pg ↔ currentMode pg = "individual")
  ∧ ("hidden" ∈ individualResultsSection pg ↔ currentMode pg = "team")
  ∧ ("text-purple-600" ∈ teamTab pg ↔ currentMode pg = "team")
  ∧ ("text-gray-600" ∈ teamTab pg ↔ currentMode pg = "individual")
  ∧ ("text-purple-600" ∈ individualTab pg ↔ currentMode pg = "individual")
  ∧ ("text-gray-600" ∈ individualTab pg ↔ currentMode pg = "team").
Proof.
  intros pg. subst pg.
  destruct (pageRun_mode es) as [(-> & -> & -> & -> & ->)|(-> & -> & -> & -> & ->)].
  - split; [by left|].
    split_and!; apply (bool_decide_unpack _); vm_compute; exact I.
  - split; [by right|].
    split_and!; apply (bool_decide_unpack _); vm_compute; exact I.
Qed.

(** X26.  [handleClearClick]: a click on Clear brings the
    page, in whatever state, back to the one of [index.html]: the input
    empty, the team tab selected, the tabs, the filter bar and the tag
    table hidden, and the three variables as the script initialises
    them. *)
Theorem X26_clear_restores_initial_page es :
  pageStep (pageRun es) ClearClick = initialPage.
Proof.
  destruct (pageRun_hidden es) as (Htable & Hbar & Hnav).
  pose proof (pageRun_mode es) as Hmode.
  unfold pageStep. generalize dependent (pageRun es). intros pg.
  intros Htable Hbar Hnav Hmode.
  apply page_ext; unfold handleClearClick; page_fields;
    try reflexivity; try assumption.
  - destruct Hmode as [(_ & -> & _)|(_ & -> & _)]; closed_eq.
  - destruct Hmode as [(_ & _ & -> & _)|(_ & _ & -> & _)]; closed_eq.
  - destruct Hmode as [(_ & _ & _ & -> & _)|(_ & _ & _ & -> & _)]; closed_eq.
  - destruct Hmode as [(_ & _ & _ & _ & ->)|(_ & _ & _ & _ & ->)]; closed_eq.
Qed.

(** X27.  [switchTab]: of two clicks on the tabs in a row the
    last one decides, on any page: the classes and the mode are those a
    single call with the last mode leaves. *)
Theorem X27_switchTab_last_wins pg mode1 mode2 :
  switchTab (switchTab pg mode1) mode2 = switchTab pg mode2.
Proof.
  unfold switchTab.
  destruct (decide (mode1 = "team")), (decide (mode2 = "team"));
    apply page_ext; page_fields; try reflexivity;
    first [apply classList_add_remove_add
          |apply classList_remove_add_remove
          |apply classList_add_add
          |apply classList_remove_remove
          |apply classList_add_after_remove
          |apply classList_remove_after_add
          |apply classList_add_idemp
          |apply classList_remove_idemp].
Qed.
